(** * Long-delay timers: a model of [src/index.ts] and [src/typings.ts]

    The library decomposes a long delay into a chain of native timer
    segments, each bounded by [MAX_TIMEOUT], and offers a repeating driver,
    an abort-signal bridge and a promise-returning [delay].

    Embedding.  The mutable objects of one logical timer (the [Timeout]
    object, the variables captured by its closures, the platform's queue of
    native timers, the abort signals, the promise made by [delay]) are the
    fields of a [World]; every source function is a function on worlds.  The
    arrow functions handed to the native [globalThis.setTimeout] are the
    constructors of [closure]; the event loop [step] runs one of them when
    the platform fires a native timer.

    Numbers.  A JavaScript number is a [num]: an exact integer count of
    milliseconds, or one of the three non-finite values.  Fractions of a
    millisecond and the rounding of IEEE doubles are outside this model. *)

From Stdlib Require Import ZArith List String Bool Lia.
Import ListNotations.
Open Scope string_scope.
Open Scope list_scope.
Open Scope Z_scope.

(** ** Numbers *)

Inductive num : Type :=
| Fin (z : Z)
| PosInf
| NegInf
| NaN.

Module Num.

Definition isFinite (a : num) : bool :=
  match a with Fin _ => true | _ => false end.

(** [a < b]; every comparison with [NaN] is false. *)
Definition ltb (a b : num) : bool :=
  match a, b with
  | Fin x, Fin y => x <? y
  | Fin _, PosInf => true
  | NegInf, Fin _ => true
  | NegInf, PosInf => true
  | _, _ => false
  end.

Definition gtb (a b : num) : bool := ltb b a.

Definition leb (a b : num) : bool :=
  match a, b with
  | Fin x, Fin y => x <=? y
  | Fin _, PosInf => true
  | NegInf, Fin _ => true
  | NegInf, PosInf => true
  | NegInf, NegInf => true
  | PosInf, PosInf => true
  | _, _ => false
  end.

Definition neg (a : num) : num :=
  match a with
  | Fin x => Fin (- x)
  | PosInf => NegInf
  | NegInf => PosInf
  | NaN => NaN
  end.

Definition add (a b : num) : num :=
  match a, b with
  | Fin x, Fin y => Fin (x + y)
  | NaN, _ | _, NaN => NaN
  | PosInf, NegInf | NegInf, PosInf => NaN
  | PosInf, _ | _, PosInf => PosInf
  | NegInf, _ | _, NegInf => NegInf
  end.

Definition sub (a b : num) : num := add a (neg b).

(** [Math.max(a, b)]: [NaN] as soon as one argument is. *)
Definition max (a b : num) : num :=
  match a, b with
  | NaN, _ | _, NaN => NaN
  | _, _ => if ltb a b then b else a
  end.

(** A number that is not negative: [0 <= a], with [+Infinity] allowed. *)
Definition nonneg (a : num) : bool := leb (Fin 0) a.

End Num.

(** [MAX_TIMEOUT] of typings.ts: 2^31 - 1 milliseconds. *)
Definition MAX_TIMEOUT : Z := 2147483647.

(** [Number.MAX_SAFE_INTEGER]: 2^53 - 1. *)
Definition MAX_SAFE_INTEGER : Z := 9007199254740991.

(** ** Values, functions and errors *)

(** The functions that reach a timer as its callback: a function of the
    caller, the arrow function [delay] passes to [setTimeout], and the
    wrapper [setTimeout] builds around its callback. *)
Inductive fn : Type :=
| UserFn (f : nat)
| DelayResolver (signal : option nat)
| Wrapped (signal : option nat) (originalCallback : fn).

Inductive value : Type :=
| VUndefined
| VNull
| VBool (b : bool)
| VNumber (n : num)
| VString (s : string)
| VFunction (f : fn)
| VSignal (s : nat)
| VObject (props : list property)
with property : Type :=
| Property (key : string) (own enumerable : bool) (v : value).

Definition key (p : property) : string :=
  match p with Property k _ _ _ => k end.
Definition own (p : property) : bool :=
  match p with Property _ o _ _ => o end.
Definition enumerable (p : property) : bool :=
  match p with Property _ _ e _ => e end.
Definition pvalue (p : property) : value :=
  match p with Property _ _ _ v => v end.

Definition typeof (v : value) : string :=
  match v with
  | VUndefined => "undefined"
  | VNull => "object"
  | VBool _ => "boolean"
  | VNumber _ => "number"
  | VString _ => "string"
  | VFunction _ => "function"
  | VSignal _ => "object"
  | VObject _ => "object"
  end.

Definition is_null (v : value) : bool :=
  match v with VNull => true | _ => false end.

(** The members of an [AbortSignal] all live on its prototype. *)
Definition signal_members : list string :=
  ["aborted"; "reason"; "onabort"; "throwIfAborted";
   "addEventListener"; "removeEventListener"; "dispatchEvent"].

(** [k in v], for an object [v]: own and inherited properties alike. *)
Definition has_property (k : string) (v : value) : bool :=
  match v with
  | VObject props => existsb (fun p => String.eqb (key p) k) props
  | VSignal _ => existsb (String.eqb k) signal_members
  | _ => false
  end.

(** [Object.keys(v)]: the own enumerable string keys. *)
Definition Object_keys (v : value) : list string :=
  match v with
  | VObject props => map key (filter (fun p => own p && enumerable p) props)
  | _ => []
  end.

(** [v[k]]. *)
Definition get (k : string) (v : value) : value :=
  match v with
  | VObject props =>
      match find (fun p => String.eqb (key p) k) props with
      | Some p => pvalue p
      | None => VUndefined
      end
  | _ => VUndefined
  end.

(** The declared type of the [signal] option is [AbortSignal | undefined]:
    any other value is read as no signal. *)
Definition as_signal (v : value) : option nat :=
  match v with VSignal s => Some s | _ => None end.

Record error : Type := { name : string; message : string }.

Definition TypeError (msg : string) : error :=
  {| name := "TypeError"; message := msg |}.

(** [class AbortError extends Error], with its constructor. *)
Definition AbortError (msg : option string) : error :=
  {| name := "AbortError";
     message := match msg with
                | Some m => m
                | None => "The operation was aborted."
                end |}.

Inductive completion (A : Type) : Type :=
| Normal (a : A)
| Throw (e : error).
Arguments Normal {A} a.
Arguments Throw {A} e.

(** ** The state of one logical timer *)

(** Which object literal built the handle; it decides what [cleared],
    [ref], [unref] and [remaining] do. *)
Inductive flavour : Type :=
| PreCleared   (* the literal returned for an already aborted signal *)
| OneShot      (* [timeout] of [_setTimeout] *)
| Repeating.   (* [interval] of [setInterval] *)

(** [TimeoutWithBrand]. *)
Record Timeout : Type := {
  made_by : flavour;
  brand : bool;
  id : option nat;
  _cleared : bool;
  _targetTime : option num
}.

(** The arrow functions given to [globalThis.setTimeout]. *)
Inductive closure : Type :=
| TFinal   (* _setTimeout, lines 137-141 *)
| TChain   (* _setTimeout, lines 143-147 *)
| IFinal   (* setInterval, lines 233-244 *)
| IChain.  (* setInterval, lines 246-250 *)

(** A pending registration with the native timer. *)
Record Native : Type := {
  nid : nat;
  body : closure;
  span : num;
  issued_at : Z;
  unrefd : bool
}.

(** The variables the closures of a timer capture. *)
Record Vars : Type := {
  callback : fn;
  arguments_ : list value;
  delay_ : num;
  shouldUnref : bool;
  nextTargetTime : num
}.

(** The abort listeners of this file: [abortListener] of [setTimeout]
    and [abortListener] of [delay]. *)
Inductive listener : Type :=
| ClearListener
| RejectListener.

Record Signal : Type := {
  aborted : bool;
  listeners : list listener
}.

Inductive settled : Type :=
| Pending
| Resolved
| Rejected (e : error).

Record Promise : Type := {
  state : settled;
  resolve_calls : nat;
  reject_calls : nat
}.

(** What an observer of the timer sees, newest first. *)
Inductive obs : Type :=
| Issued (n : Native)
| Fired (n : Native) (at_ : Z)
| Called (f : nat) (args : list value) (at_ : Z).

Record World : Type := {
  clock : Z;                   (* performance.now() *)
  handle : Timeout;
  vars : Vars;
  natives : list Native;
  next_nid : nat;
  signals : nat -> Signal;
  promise : Promise;
  log : list obs
}.

Definition set_clock (t : Z) (w : World) : World :=
  {| clock := t; handle := handle w; vars := vars w; natives := natives w;
     next_nid := next_nid w; signals := signals w; promise := promise w;
     log := log w |}.
Definition set_handle (h : Timeout) (w : World) : World :=
  {| clock := clock w; handle := h; vars := vars w; natives := natives w;
     next_nid := next_nid w; signals := signals w; promise := promise w;
     log := log w |}.
Definition set_vars (v : Vars) (w : World) : World :=
  {| clock := clock w; handle := handle w; vars := v; natives := natives w;
     next_nid := next_nid w; signals := signals w; promise := promise w;
     log := log w |}.
Definition set_natives (l : list Native) (w : World) : World :=
  {| clock := clock w; handle := handle w; vars := vars w; natives := l;
     next_nid := next_nid w; signals := signals w; promise := promise w;
     log := log w |}.
Definition set_next_nid (n : nat) (w : World) : World :=
  {| clock := clock w; handle := handle w; vars := vars w; natives := natives w;
     next_nid := n; signals := signals w; promise := promise w;
     log := log w |}.
Definition set_signals (s : nat -> Signal) (w : World) : World :=
  {| clock := clock w; handle := handle w; vars := vars w; natives := natives w;
     next_nid := next_nid w; signals := s; promise := promise w;
     log := log w |}.
Definition set_promise (p : Promise) (w : World) : World :=
  {| clock := clock w; handle := handle w; vars := vars w; natives := natives w;
     next_nid := next_nid w; signals := signals w; promise := p;
     log := log w |}.
Definition emit (o : obs) (w : World) : World :=
  {| clock := clock w; handle := handle w; vars := vars w; natives := natives w;
     next_nid := next_nid w; signals := signals w; promise := promise w;
     log := o :: log w |}.

Definition set_id (i : option nat) (w : World) : World :=
  set_handle {| made_by := made_by (handle w); brand := brand (handle w);
                id := i; _cleared := _cleared (handle w);
                _targetTime := _targetTime (handle w) |} w.
Definition set_cleared (b : bool) (w : World) : World :=
  set_handle {| made_by := made_by (handle w); brand := brand (handle w);
                id := id (handle w); _cleared := b;
                _targetTime := _targetTime (handle w) |} w.
Definition set_targetTime (t : option num) (w : World) : World :=
  set_handle {| made_by := made_by (handle w); brand := brand (handle w);
                id := id (handle w); _cleared := _cleared (handle w);
                _targetTime := t |} w.
Definition set_shouldUnref (b : bool) (w : World) : World :=
  set_vars {| callback := callback (vars w); arguments_ := arguments_ (vars w);
              delay_ := delay_ (vars w); shouldUnref := b;
              nextTargetTime := nextTargetTime (vars w) |} w.
Definition set_nextTargetTime (t : num) (w : World) : World :=
  set_vars {| callback := callback (vars w); arguments_ := arguments_ (vars w);
              delay_ := delay_ (vars w); shouldUnref := shouldUnref (vars w);
              nextTargetTime := t |} w.
Definition set_delay (d : num) (w : World) : World :=
  set_vars {| callback := callback (vars w); arguments_ := arguments_ (vars w);
              delay_ := d; shouldUnref := shouldUnref (vars w);
              nextTargetTime := nextTargetTime (vars w) |} w.

(** A world in which no timer has been made yet: the clock reads [t] and
    the abort signals are [sigs]. *)
Definition no_timer : Timeout :=
  {| made_by := PreCleared; brand := false; id := None; _cleared := false;
     _targetTime := None |}.
Definition no_vars : Vars :=
  {| callback := UserFn 0; arguments_ := []; delay_ := Fin 0;
     shouldUnref := false; nextTargetTime := NaN |}.
Definition fresh (t : Z) (sigs : nat -> Signal) : World :=
  {| clock := t; handle := no_timer; vars := no_vars; natives := [];
     next_nid := 0; signals := sigs;
     promise := {| state := Pending; resolve_calls := 0; reject_calls := 0 |};
     log := [] |}.

(** A signal store in which no signal has aborted or is listened to. *)
Definition quiet : nat -> Signal :=
  fun _ => {| aborted := false; listeners := [] |}.

(** ** The platform: native timers, signals, promises *)

(** [globalThis.setTimeout(c, ms)]: registers a native timer and returns
    its identifier. *)
Definition native_setTimeout (c : closure) (ms : num) (w : World)
  : nat * World :=
  let n := {| nid := next_nid w; body := c; span := ms;
              issued_at := clock w; unrefd := false |} in
  (nid n,
   emit (Issued n)
     (set_next_nid (S (next_nid w)) (set_natives (natives w ++ [n]) w))).

(** [globalThis.clearTimeout(i)]. *)
Definition native_clearTimeout (i : nat) (w : World) : World :=
  set_natives (filter (fun n => negb (Nat.eqb (nid n) i)) (natives w)) w.

Definition mark (u : bool) (i : nat) (n : Native) : Native :=
  if Nat.eqb (nid n) i
  then {| nid := nid n; body := body n; span := span n;
          issued_at := issued_at n; unrefd := u |}
  else n.

(** [i?.unref?.()] and [i?.ref?.()] on a native timer identifier. *)
Definition native_unref (i : option nat) (w : World) : World :=
  match i with
  | Some k => set_natives (map (mark true k) (natives w)) w
  | None => w
  end.
Definition native_ref (i : option nat) (w : World) : World :=
  match i with
  | Some k => set_natives (map (mark false k) (natives w)) w
  | None => w
  end.

Definition upd {A : Type} (k : nat) (a : A) (f : nat -> A) : nat -> A :=
  fun x => if Nat.eqb x k then a else f x.

Definition listener_eqb (a b : listener) : bool :=
  match a, b with
  | ClearListener, ClearListener => true
  | RejectListener, RejectListener => true
  | _, _ => false
  end.

(** [signal?.aborted]. *)
Definition signal_aborted (signal : option nat) (w : World) : bool :=
  match signal with
  | Some s => aborted (signals w s)
  | None => false
  end.

(** [signal?.addEventListener('abort', l, { once: true })]. *)
Definition addEventListener (signal : option nat) (l : listener) (w : World)
  : World :=
  match signal with
  | Some s =>
      let sg := signals w s in
      set_signals
        (upd s {| aborted := aborted sg; listeners := listeners sg ++ [l] |}
           (signals w)) w
  | None => w
  end.

(** [signal?.removeEventListener('abort', l)]. *)
Definition removeEventListener (signal : option nat) (l : listener)
    (w : World) : World :=
  match signal with
  | Some s =>
      let sg := signals w s in
      set_signals
        (upd s {| aborted := aborted sg;
                  listeners := filter (fun x => negb (listener_eqb x l))
                                 (listeners sg) |}
           (signals w)) w
  | None => w
  end.

(** [resolve()] and [reject(e)] of the promise: only the first call of
    either settles it. *)
Definition resolve (w : World) : World :=
  let p := promise w in
  set_promise
    {| state := match state p with Pending => Resolved | s => s end;
       resolve_calls := S (resolve_calls p);
       reject_calls := reject_calls p |} w.
Definition reject (e : error) (w : World) : World :=
  let p := promise w in
  set_promise
    {| state := match state p with Pending => Rejected e | s => s end;
       resolve_calls := resolve_calls p;
       reject_calls := S (reject_calls p) |} w.

(** ** index.ts *)

(** What can be passed to [clearTimeout]: [undefined] or [null], a value
    that does not carry the brand, or the handle of this world. *)
Inductive arg : Type :=
| ArgNullish
| ArgForeign (v : value)
| ArgHandle.

Definition clearTimeout (timeout : arg) (w : World) : World :=
  match timeout with
  | ArgNullish => w
  | ArgForeign _ => w
  | ArgHandle =>
      if negb (brand (handle w)) then w else
      let w := set_cleared true w in
      match id (handle w) with
      | Some i => set_id None (native_clearTimeout i w)
      | None => w
      end
  end.

Definition clearInterval (interval : arg) (w : World) : World :=
  clearTimeout interval w.

(** Calling a callback.  A function of the caller is recorded in the log;
    whatever else it does to the timer (taking time, clearing the handle,
    aborting a signal) is an event of the script that follows, since every
    closure calls it last. *)
Fixpoint invoke (f : fn) (args : list value) (w : World) : World :=
  match f with
  | UserFn k => emit (Called k args (clock w)) w
  | DelayResolver signal =>
      removeEventListener signal RejectListener (resolve w)
  | Wrapped signal originalCallback =>
      invoke originalCallback args
        (removeEventListener signal ClearListener w)
  end.

(** [x ?? 0]. *)
Definition or_zero (x : option num) : num :=
  match x with Some a => a | None => Fin 0 end.

Module OneShotTimer.

(** [schedule] of [_setTimeout]. *)
Definition schedule (remainingDelay : num) (w : World) : World :=
  if _cleared (handle w) then w else
  let w :=
    if Num.leb remainingDelay (Fin MAX_TIMEOUT)
    then let '(i, w) := native_setTimeout TFinal remainingDelay w in
         set_id (Some i) w
    else let '(i, w) := native_setTimeout TChain (Fin MAX_TIMEOUT) w in
         set_id (Some i) w in
  if shouldUnref (vars w) then native_unref (id (handle w)) w else w.

End OneShotTimer.

Module IntervalTimer.

(** [schedule] of [setInterval]. *)
Definition schedule (remainingDelay : num) (w : World) : World :=
  if _cleared (handle w) then w else
  let w :=
    if Num.leb remainingDelay (Fin MAX_TIMEOUT)
    then let '(i, w) := native_setTimeout IFinal remainingDelay w in
         set_id (Some i) w
    else let '(i, w) := native_setTimeout IChain (Fin MAX_TIMEOUT) w in
         set_id (Some i) w in
  if shouldUnref (vars w) then native_unref (id (handle w)) w else w.

End IntervalTimer.

(** The bodies of the four arrow functions given to the native timer. *)
Definition run (c : closure) (w : World) : World :=
  match c with
  | TFinal =>
      if negb (_cleared (handle w))
      then invoke (callback (vars w)) (arguments_ (vars w)) w
      else w
  | TChain =>
      let now := Fin (clock w) in
      let remaining :=
        Num.max (Fin 0) (Num.sub (or_zero (_targetTime (handle w))) now) in
      OneShotTimer.schedule remaining w
  | IFinal =>
      if _cleared (handle w) then w else
      let w :=
        set_nextTargetTime
          (Num.add (nextTargetTime (vars w)) (delay_ (vars w))) w in
      let now := Fin (clock w) in
      let nextDelay :=
        Num.max (Fin 0) (Num.sub (nextTargetTime (vars w)) now) in
      let w := IntervalTimer.schedule nextDelay w in
      invoke (callback (vars w)) (arguments_ (vars w)) w
  | IChain =>
      let now := Fin (clock w) in
      let nextDelay :=
        Num.max (Fin 0) (Num.sub (nextTargetTime (vars w)) now) in
      IntervalTimer.schedule nextDelay w
  end.

(** The value of [delay] after lines 125-127 (and 221-223). *)
Definition clamp (delay : num) : num :=
  if negb (Num.isFinite delay) || Num.ltb delay (Fin 0) then Fin 0 else delay.

Definition _setTimeout (callback : fn) (delay : option num)
    (arguments_ : list value) (w : World) : World :=
  let delay := or_zero delay in
  let w := set_vars {| callback := callback; arguments_ := arguments_;
                       delay_ := delay; shouldUnref := false;
                       nextTargetTime := NaN |} w in
  let w := set_handle {| made_by := OneShot; brand := true; id := None;
                         _cleared := false; _targetTime := None |} w in
  if Num.gtb delay (Fin MAX_SAFE_INTEGER) then w else
  let delay := clamp delay in
  let w := set_delay delay w in
  let w := set_targetTime (Some (Num.add (Fin (clock w)) delay)) w in
  OneShotTimer.schedule delay w.

(** The test on [args.at(-1)] of lines 35-40. *)
Definition is_options (mostRecentArg : value) : bool :=
  String.eqb (typeof mostRecentArg) "object"
  && negb (is_null mostRecentArg)
  && (has_property "signal" mostRecentArg
      || Nat.eqb (List.length (Object_keys mostRecentArg)) 0).

(** The arguments left for the callback, and the options popped. *)
Definition split_options (args : list value) : option value * list value :=
  if is_options (last args VUndefined)
  then (Some (last args VUndefined), removelast args)
  else (None, args).

(** The handle returned for a signal that has already aborted. *)
Definition precleared : Timeout :=
  {| made_by := PreCleared; brand := true; id := None; _cleared := false;
     _targetTime := None |}.
Definition setTimeout (callback : value) (delay : option num)
    (args : list value) (w : World) : completion World :=
  match callback with
  | VFunction f =>
      let '(options, newArgs) := split_options args in
      let signal :=
        as_signal
          (get "signal"
             (match options with Some o => o | None => VObject [] end)) in
      if signal_aborted signal w then
        Normal (set_handle precleared w)
      else
        let w := _setTimeout f delay newArgs w in
        let w := addEventListener signal ClearListener w in
        (* line 76 assigns the wrapper to the parameter [callback] of
           [setTimeout]; the timer made on line 66 holds the function it
           was given, and nothing reads the parameter again *)
        let callback := Wrapped signal f in
        Normal w
  | _ => Throw (TypeError "Expected callback to be a function")
  end.

Definition setInterval (callback : value) (delay : option num)
    (arguments_ : list value) (w : World) : completion World :=
  match callback with
  | VFunction f =>
      let delay := or_zero delay in
      let w := set_vars {| callback := f; arguments_ := arguments_;
                           delay_ := delay; shouldUnref := false;
                           nextTargetTime := NaN |} w in
      let w := set_handle {| made_by := Repeating; brand := true; id := None;
                             _cleared := false; _targetTime := None |} w in
      if Num.gtb delay (Fin MAX_SAFE_INTEGER)
      then Normal (set_nextTargetTime PosInf w)
      else
        let delay := clamp delay in
        let w := set_delay delay w in
        let w := set_nextTargetTime (Num.add (Fin (clock w)) delay) w in
        Normal (IntervalTimer.schedule delay w)
  | _ => Throw (TypeError "Expected callback to be a function")
  end.

(** [delay(ms, { signal })]: the executor of the promise it returns. *)
Definition delay (ms : num) (signal : option nat) (w : World) : World :=
  if signal_aborted signal w then reject (AbortError None) w else
  match setTimeout (VFunction (DelayResolver signal)) (Some ms) [] w with
  | Normal w => addEventListener signal RejectListener w
  | Throw e => reject e w
  end.

(** *** The members of a handle *)

Definition cleared (w : World) : bool :=
  match made_by (handle w) with
  | PreCleared => true
  | _ => _cleared (handle w)
  end.

Definition remaining (w : World) : num :=
  match made_by (handle w) with
  | PreCleared => Fin 0
  | OneShot =>
      if _cleared (handle w) then Fin 0 else
      match _targetTime (handle w) with
      | None => PosInf
      | Some t => Num.max (Fin 0) (Num.sub t (Fin (clock w)))
      end
  | Repeating =>
      if _cleared (handle w) then Fin 0 else
      if negb (Num.isFinite (nextTargetTime (vars w))) then PosInf else
      Num.max (Fin 0) (Num.sub (nextTargetTime (vars w)) (Fin (clock w)))
  end.

Definition ref (w : World) : World :=
  match made_by (handle w) with
  | PreCleared => w
  | _ => native_ref (id (handle w)) (set_shouldUnref false w)
  end.

Definition unref (w : World) : World :=
  match made_by (handle w) with
  | PreCleared => w
  | _ => native_unref (id (handle w)) (set_shouldUnref true w)
  end.

(** ** The event loop *)

Definition run_listener (l : listener) (w : World) : World :=
  match l with
  | ClearListener => clearTimeout ArgHandle w
  | RejectListener => reject (AbortError None) (clearTimeout ArgHandle w)
  end.

(** The signal [s] aborts: its listeners run once, in order of
    registration, and are gone; a signal aborts only once. *)
Definition abort (s : nat) (w : World) : World :=
  let sg := signals w s in
  if aborted sg then w else
  fold_left (fun w l => run_listener l w) (listeners sg)
    (set_signals (upd s {| aborted := true; listeners := [] |} (signals w)) w).

(** The earliest time at which the platform fires a native timer. *)
Definition due (n : Native) : Z :=
  issued_at n + match span n with Fin z => z | _ => 0 end.

(** The platform fires the oldest pending native timer, [late]
    milliseconds after it was due. *)
Definition fire (late : nat) (w : World) : World :=
  match natives w with
  | [] => w
  | n :: rest =>
      let t := Z.max (clock w) (due n) + Z.of_nat late in
      run (body n) (emit (Fired n t) (set_clock t (set_natives rest w)))
  end.

Inductive event : Type :=
| Fire (late : nat)        (* a native timer fires *)
| Advance (dt : nat)       (* time passes *)
| Clear (a : arg)          (* clearTimeout / clearInterval is called *)
| Abort (s : nat)          (* a signal aborts *)
| Ref                      (* handle.ref() *)
| Unref.                   (* handle.unref() *)

Definition step (e : event) (w : World) : World :=
  match e with
  | Fire late => fire late w
  | Advance dt => set_clock (clock w + Z.of_nat dt) w
  | Clear a => clearTimeout a w
  | Abort s => abort s w
  | Ref => ref w
  | Unref => unref w
  end.

(** Running a script of events, first event first. *)
Definition exec (es : list event) (w : World) : World :=
  fold_left (fun w e => step e w) es w.

(** *** Observations *)

Definition is_call (o : obs) : bool :=
  match o with Called _ _ _ => true | _ => false end.
Definition is_issue (o : obs) : bool :=
  match o with Issued _ => true | _ => false end.
Definition is_final (c : closure) : bool :=
  match c with TFinal | IFinal => true | _ => false end.
Definition is_final_fire (o : obs) : bool :=
  match o with Fired n _ => is_final (body n) | _ => false end.

(** How often a function of the caller has been called. *)
Definition calls (w : World) : nat := List.length (filter is_call (log w)).
(** How many native timers have been registered. *)
Definition issued (w : World) : nat := List.length (filter is_issue (log w)).
(** How many uncapped segments have fired: a one-shot delay that ran out,
    or the completed periods of an interval. *)
Definition completed (w : World) : nat :=
  List.length (filter is_final_fire (log w)).

(** The spans of the native timers registered, oldest first. *)
Definition spans (w : World) : list num :=
  rev (flat_map (fun o => match o with Issued n => [span n] | _ => [] end)
         (log w)).

(** The argument lists the caller's function was called with, oldest
    first. *)
Definition call_args (w : World) : list (list value) :=
  rev (flat_map (fun o => match o with Called _ a _ => [a] | _ => [] end)
         (log w)).


(** * The vocabulary of the statements *)

(** The function of the caller a callback ends up calling, if any. *)
Fixpoint target_fn (f : fn) : option nat :=
  match f with
  | UserFn k => Some k
  | DelayResolver _ => None
  | Wrapped _ g => target_fn g
  end.

(** The fields no listener and no clear touches. *)
Definition same_frame (w w' : World) : Prop :=
  clock w' = clock w /\ vars w' = vars w /\ log w' = log w /\
  next_nid w' = next_nid w /\
  made_by (handle w') = made_by (handle w) /\
  brand (handle w') = brand (handle w) /\
  _targetTime (handle w') = _targetTime (handle w).

(** The two [schedule] functions differ in the closures they register
    only. *)
Definition schedule_with (final chain : closure) (remainingDelay : num)
    (w : World) : World :=
  if _cleared (handle w) then w else
  let w :=
    if Num.leb remainingDelay (Fin MAX_TIMEOUT)
    then let '(i, w) := native_setTimeout final remainingDelay w in
         set_id (Some i) w
    else let '(i, w) := native_setTimeout chain (Fin MAX_TIMEOUT) w in
         set_id (Some i) w in
  if shouldUnref (vars w) then native_unref (id (handle w)) w else w.

(** The native timer registered for a remaining delay of [r]
    milliseconds. *)
Definition segment (final chain : closure) (r : Z) (w : World) : Native :=
  {| nid := next_nid w;
     body := if r <=? MAX_TIMEOUT then final else chain;
     span := Fin (Z.min r MAX_TIMEOUT);
     issued_at := clock w;
     unrefd := false |}.

(** The number of native timers a delay of [d] milliseconds takes. *)
Definition segments (d : Z) : nat := S (Z.to_nat ((d - 1) / MAX_TIMEOUT)).

(** One native timer is pending, and it belongs to the handle. *)
Definition waiting (w : World) : Prop :=
  exists n,
    natives w = [n] /\ _cleared (handle w) = false /\
    id (handle w) = Some (nid n) /\ completed w = 0%nat /\
    (body n = TFinal \/ body n = TChain).

(** What holds of a one-shot timer with callback [f], arguments [args]
    and target time [T], after any script. *)
Record oneshot (f : fn) (args : list value) (T : Z) (w : World) : Prop := {
  os_made : made_by (handle w) = OneShot;
  os_brand : brand (handle w) = true;
  os_cb : callback (vars w) = f;
  os_args : arguments_ (vars w) = args;
  os_target : _targetTime (handle w) = Some (Fin T);
  os_natives : natives w = [] \/ waiting w;
  os_once : (completed w <= 1)%nat;
  os_calls : calls w =
             match target_fn f with Some _ => completed w | None => 0%nat end;
  os_called : forall k a t, In (Called k a t) (log w) -> a = args;
  os_spans : forall n, In (Issued n) (log w) ->
             span n = Fin (Z.min (Z.max 0 (T - issued_at n)) MAX_TIMEOUT)
}.

(** The timer waits for a segment registered just now, [r] milliseconds
    before its target time. *)
Definition armed (f : fn) (args : list value) (r : Z) (w : World) : Prop :=
  exists n,
    natives w = [n] /\ issued_at n = clock w /\
    span n = Fin (Z.min r MAX_TIMEOUT) /\
    body n = (if r <=? MAX_TIMEOUT then TFinal else TChain) /\
    _targetTime (handle w) = Some (Fin (clock w + r)) /\
    _cleared (handle w) = false /\
    callback (vars w) = f /\ arguments_ (vars w) = args /\
    0 <= r.

(** One native timer is pending for the interval; when it is the last
    segment of a cycle, it is not due before the target of that cycle. *)
Definition ticking (p T0 : Z) (w : World) : Prop :=
  exists n,
    natives w = [n] /\ _cleared (handle w) = false /\
    id (handle w) = Some (nid n) /\
    (body n = IFinal \/ body n = IChain) /\
    (body n = IFinal ->
     T0 + Z.of_nat (completed w) * p <= due n).

(** What holds of an interval with callback [f], arguments [args],
    period [p] and first target time [T0], after any script. *)
Record interval (f : fn) (args : list value) (p T0 : Z) (w : World)
  : Prop := {
  iv_made : made_by (handle w) = Repeating;
  iv_brand : brand (handle w) = true;
  iv_cb : callback (vars w) = f;
  iv_args : arguments_ (vars w) = args;
  iv_delay : delay_ (vars w) = Fin p;
  iv_next : nextTargetTime (vars w) =
            Fin (T0 + Z.of_nat (completed w) * p);
  iv_natives : (natives w = [] /\ _cleared (handle w) = true) \/ ticking p T0 w;
  iv_calls : calls w =
             match target_fn f with Some _ => completed w | None => 0%nat end;
  iv_called : forall k a t, In (Called k a t) (log w) -> a = args
}.

Definition is_abort (e : event) : bool :=
  match e with Abort _ => true | _ => false end.

Definition is_clear (e : event) : bool :=
  match e with Clear _ => true | _ => false end.

(** The signal found in the options of a call, if any. *)
Definition options_signal (args : list value) : option nat :=
  as_signal
    (get "signal"
       (match fst (split_options args) with
        | Some o => o
        | None => VObject []
        end)).

(** A timer nobody listens for, with a callback of the caller: only a
    clear sets its flag. *)
Definition unheard (k : nat) (w : World) : Prop :=
  callback (vars w) = UserFn k /\
  (forall x, listeners (signals w x) = []) /\
  _cleared (handle w) = false.

(** The delays that lines 125-127 (and 221-223) turn into 0: an omitted
    one, [NaN], [-Infinity] and the negative numbers. *)
Definition collapses (d : option num) : Prop :=
  d = None \/
  exists a, d = Some a /\ a <> PosInf /\
            (Num.isFinite a = false \/ Num.ltb a (Fin 0) = true).

(** The absolute target time [remaining()] reads: [_targetTime] of a
    one-shot handle, [nextTargetTime] of an interval unless that is not
    finite. *)
Definition absoluteTargetTime (w : World) : option num :=
  match made_by (handle w) with
  | PreCleared => None
  | OneShot => _targetTime (handle w)
  | Repeating =>
      if Num.isFinite (nextTargetTime (vars w))
      then Some (nextTargetTime (vars w))
      else None
  end.

(** The state of the promise of [delay] and of its timer go together. *)
Definition delay_state (sg : option nat) (w : World) : Prop :=
  match state (promise w) with
  | Pending =>
      resolve_calls (promise w) = 0%nat /\
      reject_calls (promise w) = 0%nat /\
      (forall s, sg = Some s ->
         aborted (signals w s) = false /\
         listeners (signals w s) = [RejectListener]) /\
      (natives w = [] \/
       exists n, natives w = [n] /\ id (handle w) = Some (nid n) /\
                 _cleared (handle w) = false /\
                 (body n = TFinal \/ body n = TChain))
  | Resolved =>
      resolve_calls (promise w) = 1%nat /\
      reject_calls (promise w) = 0%nat /\
      natives w = [] /\ forall x, listeners (signals w x) = []
  | Rejected e =>
      e = AbortError None /\
      resolve_calls (promise w) = 0%nat /\
      reject_calls (promise w) = 1%nat /\
      natives w = [] /\ forall x, listeners (signals w x) = []
  end.

(** What holds of the world of a call of [delay] with signal [sg], after
    any script. *)
Record delaying (sg : option nat) (w : World) : Prop := {
  dl_cb : callback (vars w) = DelayResolver sg;
  dl_brand : brand (handle w) = true;
  dl_made : made_by (handle w) = OneShot;
  dl_others : forall x, sg <> Some x -> listeners (signals w x) = [];
  dl_state : delay_state sg w
}.

(** The handles of the scheduler: [w0] is the world just after
    [_setTimeout], [setTimeout] with a signal that has not aborted, or
    [setInterval] has made a timer with delay [d]. *)
Definition scheduled (f : fn) (d : option num) (args : list value) (t : Z)
    (sigs : nat -> Signal) (w0 : World) : Prop :=
  w0 = _setTimeout f d args (fresh t sigs) \/
  (setTimeout (VFunction f) d args (fresh t sigs) = Normal w0 /\
   signal_aborted (options_signal args) (fresh t sigs) = false) \/
  setInterval (VFunction f) d args (fresh t sigs) = Normal w0.



(** ** The vocabulary of the further properties *)

(** The handles given to a caller: [w0] is the world just after
    [_setTimeout], [setTimeout] or [setInterval] has returned one, the
    call being made at time [t] with the signals [sigs]. *)
Definition handed (t : Z) (sigs : nat -> Signal) (w0 : World) : Prop :=
  (exists f d args, w0 = _setTimeout f d args (fresh t sigs)) \/
  (exists cb d args, setTimeout cb d args (fresh t sigs) = Normal w0) \/
  (exists cb d args, setInterval cb d args (fresh t sigs) = Normal w0).

(** The worlds the library makes: those of the handles, and the world of
    a call of [delay]. *)
Definition made (t : Z) (sigs : nat -> Signal) (w0 : World) : Prop :=
  handed t sigs w0 \/ exists ms sg, w0 = delay ms sg (fresh t sigs).

(** The one-shot timers: [w0] is the world just after [_setTimeout] or
    [setTimeout] was called with delay [d]. *)
Definition timed (d : option num) (t : Z) (sigs : nat -> Signal)
    (w0 : World) : Prop :=
  (exists f args, w0 = _setTimeout f d args (fresh t sigs)) \/
  (exists f args, setTimeout (VFunction f) d args (fresh t sigs) = Normal w0).

(** At most one native timer is pending; the handle holds its identifier
    and is not cleared, and the native timer is unref'ed exactly when
    [shouldUnref] says so.  A cleared handle holds no identifier. *)
Definition owned (w : World) : Prop :=
  (natives w = [] \/
   exists n, natives w = [n] /\ id (handle w) = Some (nid n) /\
             _cleared (handle w) = false /\
             unrefd n = shouldUnref (vars w)) /\
  (_cleared (handle w) = true -> id (handle w) = None).

(** What the calls of [ref()] and [unref()] in a script leave in
    [shouldUnref]: the last of them decides. *)
Definition asked (u : bool) (e : event) : bool :=
  match e with
  | Ref => false
  | Unref => true
  | _ => u
  end.
Definition intent (es : list event) : bool := fold_left asked es false.

(** A span the native timer handles: a number of milliseconds from 0 to
    [MAX_TIMEOUT]. *)
Definition bounded (n : Native) : Prop :=
  exists z, span n = Fin z /\ 0 <= z <= MAX_TIMEOUT.

(** Every native timer registered so far, and every one still pending,
    has such a span. *)
Definition all_bounded (w : World) : Prop :=
  (forall n, In (Issued n) (log w) -> bounded n) /\
  (forall n, In n (natives w) -> bounded n).


(** The times at which the caller's function was called, oldest first. *)
Definition call_times (w : World) : list Z :=
  rev (flat_map (fun o => match o with Called _ _ t => [t] | _ => [] end)
         (log w)).

(** A delay the native timer takes as it is: one native timer with that
    span has been registered, and what is pending calls the callback. *)
Definition single (p : Z) (w : World) : Prop :=
  spans w = [Fin p] /\ forall n, In n (natives w) -> body n = TFinal.

(** The interval waits for the tick number [i], on schedule: the last
    segment of the cycle is pending and due at [T0 + i * p], and the clock
    has not passed that time. *)
Definition on_schedule (p T0 : Z) (i : nat) (w : World) : Prop :=
  exists n,
    natives w = [n] /\ body n = IFinal /\
    due n = T0 + Z.of_nat i * p /\
    clock w <= T0 + Z.of_nat i * p /\
    completed w = i.



(** * Proofs *)

Arguments MAX_TIMEOUT : simpl never.
Arguments MAX_SAFE_INTEGER : simpl never.

(** ** Numbers *)

Lemma MAX_TIMEOUT_pos : 0 < MAX_TIMEOUT.
Proof. reflexivity. Qed.

Lemma clamp_finite (a : num) :
  Num.gtb a (Fin MAX_SAFE_INTEGER) = false ->
  exists z, clamp a = Fin z /\ 0 <= z <= MAX_SAFE_INTEGER.
Proof.
  unfold clamp, Num.gtb.
  destruct a as [z| | |]; cbn; intros H; try discriminate.
  - destruct (z <? 0) eqn:E.
    + exists 0. split; [reflexivity|]. unfold MAX_SAFE_INTEGER. lia.
    + exists z. split; [reflexivity|]. lia.
  - exists 0. split; [reflexivity|]. unfold MAX_SAFE_INTEGER. lia.
  - exists 0. split; [reflexivity|]. unfold MAX_SAFE_INTEGER. lia.
Qed.


Lemma max0_sub (a b : Z) :
  Num.max (Fin 0) (Num.sub (Fin a) (Fin b)) = Fin (Z.max 0 (a - b)).
Proof.
  cbn. destruct (0 <? a + - b) eqn:E; f_equal; lia.
Qed.

(** ** Scripts *)

Lemma exec_app (es1 es2 : list event) (w : World) :
  exec (es1 ++ es2) w = exec es2 (exec es1 w).
Proof. apply fold_left_app. Qed.

Lemma exec_cons (e : event) (es : list event) (w : World) :
  exec (e :: es) w = exec es (step e w).
Proof. reflexivity. Qed.

(** An invariant of every step is an invariant of every script. *)
Lemma exec_invariant (I : World -> Prop) :
  (forall e w, I w -> I (step e w)) ->
  forall es w, I w -> I (exec es w).
Proof.
  intros Hstep es. induction es as [|e es IH]; intros w Hw; [exact Hw|].
  rewrite exec_cons. apply IH, Hstep, Hw.
Qed.

(** The same for the scripts whose events all satisfy [ok]. *)
Lemma exec_invariant_on (ok : event -> Prop) (I : World -> Prop) :
  (forall e w, ok e -> I w -> I (step e w)) ->
  forall es w, Forall ok es -> I w -> I (exec es w).
Proof.
  intros Hstep es. induction es as [|e es IH]; intros w Hok Hw; [exact Hw|].
  inversion Hok; subst. rewrite exec_cons. apply IH; auto.
Qed.

Lemma abort_listeners_invariant (I : World -> Prop) :
  (forall f w, I w -> I (set_signals f w)) ->
  (forall l w, I w -> I (run_listener l w)) ->
  forall s w, I w -> I (abort s w).
Proof.
  intros Hsig Hrun s w Hw. unfold abort.
  destruct (aborted (signals w s)); [exact Hw|].
  generalize (listeners (signals w s)).
  generalize (Hsig (upd s {| aborted := true; listeners := [] |} (signals w))
                w Hw).
  generalize (set_signals
                (upd s {| aborted := true; listeners := [] |} (signals w)) w).
  intros w' Hw' ls. revert w' Hw'.
  induction ls as [|l ls IH]; intros w' Hw'; cbn; auto.
Qed.

(** ** What the callback does to the timer *)

Lemma invoke_frame (f : fn) (args : list value) (w : World) :
  clock (invoke f args w) = clock w /\
  handle (invoke f args w) = handle w /\
  vars (invoke f args w) = vars w /\
  natives (invoke f args w) = natives w /\
  next_nid (invoke f args w) = next_nid w.
Proof.
  revert w. induction f as [k|s|s f IH]; intros w; cbn.
  - repeat split.
  - destruct s; cbn; repeat split.
  - destruct (IH (removeEventListener s ClearListener w))
      as (H1 & H2 & H3 & H4 & H5).
    rewrite H1, H2, H3, H4, H5. destruct s; cbn; repeat split.
Qed.

(** ** The cleared flag *)

Arguments clearTimeout : simpl never.

Lemma clearTimeout_cleared (a : arg) (w : World) :
  _cleared (handle w) = true -> _cleared (handle (clearTimeout a w)) = true.
Proof.
  intros H. unfold clearTimeout. destruct a; cbn; auto.
  destruct (brand (handle w)); cbn; auto.
  destruct (id (handle w)); cbn; auto.
Qed.

(** A native timer that fires on a cleared handle changes nothing but the
    clock: no callback runs and no native timer is registered. *)
Lemma run_cleared (c : closure) (w : World) :
  _cleared (handle w) = true -> run c w = w.
Proof.
  intros H. destruct c; cbn; unfold OneShotTimer.schedule,
    IntervalTimer.schedule; rewrite H; reflexivity.
Qed.

Lemma clearTimeout_log (a : arg) (w : World) :
  log (clearTimeout a w) = log w.
Proof.
  unfold clearTimeout. destruct a; cbn; auto.
  destruct (brand (handle w)); cbn; auto.
  destruct (id (handle w)); cbn; auto.
Qed.

Lemma run_listener_log (l : listener) (w : World) :
  log (run_listener l w) = log w.
Proof. destruct l; cbn; apply clearTimeout_log. Qed.

Lemma run_listener_cleared (l : listener) (w : World) :
  _cleared (handle w) = true -> _cleared (handle (run_listener l w)) = true.
Proof. destruct l; cbn; apply clearTimeout_cleared. Qed.

Lemma abort_log (s : nat) (w : World) : log (abort s w) = log w.
Proof.
  apply (abort_listeners_invariant (fun w' => log w' = log w)); auto.
  intros l w' H. rewrite run_listener_log. exact H.
Qed.

Lemma abort_cleared (s : nat) (w : World) :
  _cleared (handle w) = true -> _cleared (handle (abort s w)) = true.
Proof.
  intros H.
  apply (abort_listeners_invariant (fun w' => _cleared (handle w') = true));
    auto.
  intros l w'. apply run_listener_cleared.
Qed.

(** Once the flag of a handle is set, no step takes it back, calls the
    caller's function, or registers a native timer. *)
Lemma step_cleared (e : event) (w : World) :
  _cleared (handle w) = true ->
  _cleared (handle (step e w)) = true /\
  calls (step e w) = calls w /\
  issued (step e w) = issued w.
Proof.
  intros H. destruct e as [late|dt|a|s| |]; cbn [step].
  - unfold fire. destruct (natives w) as [|n rest]; [auto|].
    rewrite run_cleared by exact H. auto.
  - auto.
  - split; [apply clearTimeout_cleared, H|].
    unfold calls, issued. rewrite clearTimeout_log. auto.
  - split; [apply abort_cleared, H|].
    unfold calls, issued. rewrite abort_log. auto.
  - unfold ref. destruct (made_by (handle w)); [auto| |];
      destruct (id (handle w)); cbn; auto.
  - unfold unref. destruct (made_by (handle w)); [auto| |];
      destruct (id (handle w)); cbn; auto.
Qed.

Lemma exec_cleared (es : list event) (w : World) :
  _cleared (handle w) = true ->
  _cleared (handle (exec es w)) = true /\
  calls (exec es w) = calls w /\
  issued (exec es w) = issued w.
Proof.
  intros H.
  apply (exec_invariant
           (fun w' => _cleared (handle w') = true /\
                      calls w' = calls w /\ issued w' = issued w)); auto.
  intros e w' (H1 & H2 & H3).
  destruct (step_cleared e w' H1) as (G1 & G2 & G3).
  repeat split; congruence.
Qed.

(** ** What [clearTimeout] and an abort leave alone *)

Lemma same_frame_refl (w : World) : same_frame w w.
Proof. repeat split. Qed.

Lemma same_frame_trans (w1 w2 w3 : World) :
  same_frame w1 w2 -> same_frame w2 w3 -> same_frame w1 w3.
Proof.
  unfold same_frame. intros (A1 & A2 & A3 & A4 & A5 & A6 & A7)
    (B1 & B2 & B3 & B4 & B5 & B6 & B7).
  repeat split; congruence.
Qed.

Lemma clearTimeout_frame (a : arg) (w : World) :
  same_frame w (clearTimeout a w) /\
  promise (clearTimeout a w) = promise w /\
  signals (clearTimeout a w) = signals w.
Proof.
  unfold clearTimeout, same_frame. destruct a; cbn; auto 10.
  destruct (brand (handle w)) eqn:B; cbn; auto 10.
  destruct (id (handle w)); cbn; auto 10.
Qed.

Lemma run_listener_frame (l : listener) (w : World) :
  same_frame w (run_listener l w).
Proof.
  destruct l; unfold run_listener, reject, same_frame;
    cbn [clock vars log next_nid handle set_promise];
    apply clearTimeout_frame.
Qed.

Lemma abort_frame (s : nat) (w : World) : same_frame w (abort s w).
Proof.
  apply (abort_listeners_invariant (same_frame w)).
  - intros f w' H. exact H.
  - intros l w' H. eapply same_frame_trans; [exact H|].
    apply run_listener_frame.
  - apply same_frame_refl.
Qed.

(** ** A timer with no pending native timer *)

Lemma clearTimeout_idle (a : arg) (w : World) :
  natives w = [] -> natives (clearTimeout a w) = [].
Proof.
  intros H. unfold clearTimeout. destruct a; cbn; auto.
  destruct (brand (handle w)); cbn; auto.
  destruct (id (handle w)); cbn; auto. rewrite H. reflexivity.
Qed.

Lemma run_listener_idle (l : listener) (w : World) :
  natives w = [] -> natives (run_listener l w) = [].
Proof. destruct l; cbn; apply clearTimeout_idle. Qed.

Lemma abort_idle (s : nat) (w : World) :
  natives w = [] -> natives (abort s w) = [].
Proof.
  intros H.
  apply (abort_listeners_invariant (fun w' => natives w' = [])); auto.
  intros l w'. apply run_listener_idle.
Qed.

(** With nothing pending, no step registers a native timer or calls
    anything, and the target time stays what it is. *)
Lemma step_idle (e : event) (w : World) :
  natives w = [] ->
  natives (step e w) = [] /\
  log (step e w) = log w /\
  made_by (handle (step e w)) = made_by (handle w) /\
  _targetTime (handle (step e w)) = _targetTime (handle w) /\
  nextTargetTime (vars (step e w)) = nextTargetTime (vars w).
Proof.
  intros H. destruct e as [late|dt|a|s| |]; cbn [step].
  - unfold fire. rewrite H. auto.
  - auto.
  - destruct (clearTimeout_frame a w) as ((_ & V & L & _ & M & _ & T) & _).
    rewrite (clearTimeout_idle a w H), V, L, M, T. auto.
  - destruct (abort_frame s w) as (_ & V & L & _ & M & _ & T).
    rewrite (abort_idle s w H), V, L, M, T. auto.
  - unfold ref. destruct (made_by (handle w)) eqn:M; [auto| |];
      destruct (id (handle w)); cbn; rewrite ?H; auto.
  - unfold unref. destruct (made_by (handle w)) eqn:M; [auto| |];
      destruct (id (handle w)); cbn; rewrite ?H; auto.
Qed.

Lemma exec_idle (es : list event) (w : World) :
  natives w = [] ->
  natives (exec es w) = [] /\
  log (exec es w) = log w /\
  made_by (handle (exec es w)) = made_by (handle w) /\
  _targetTime (handle (exec es w)) = _targetTime (handle w) /\
  nextTargetTime (vars (exec es w)) = nextTargetTime (vars w).
Proof.
  intros H.
  apply (exec_invariant
           (fun w' => natives w' = [] /\ log w' = log w /\
                      made_by (handle w') = made_by (handle w) /\
                      _targetTime (handle w') = _targetTime (handle w) /\
                      nextTargetTime (vars w') = nextTargetTime (vars w)));
    auto.
  intros e w' (H1 & H2 & H3 & H4 & H5).
  destruct (step_idle e w' H1) as (G1 & G2 & G3 & G4 & G5).
  repeat split; congruence.
Qed.

(** ** Registering a segment *)

Lemma calls_emit (o : obs) (w : World) :
  calls (emit o w) = if is_call o then S (calls w) else calls w.
Proof. unfold calls. cbn. destruct (is_call o); reflexivity. Qed.

Lemma issued_emit (o : obs) (w : World) :
  issued (emit o w) = if is_issue o then S (issued w) else issued w.
Proof. unfold issued. cbn. destruct (is_issue o); reflexivity. Qed.

Lemma completed_emit (o : obs) (w : World) :
  completed (emit o w) =
  if is_final_fire o then S (completed w) else completed w.
Proof. unfold completed. cbn. destruct (is_final_fire o); reflexivity. Qed.

Lemma counts_log (w w' : World) :
  log w' = log w ->
  calls w' = calls w /\ completed w' = completed w /\ issued w' = issued w.
Proof. unfold calls, completed, issued. intros ->. auto. Qed.

Lemma counts_cons (o : obs) (w w' : World) :
  log w' = o :: log w ->
  calls w' = (if is_call o then S (calls w) else calls w) /\
  completed w' = (if is_final_fire o then S (completed w) else completed w) /\
  issued w' = (if is_issue o then S (issued w) else issued w).
Proof.
  unfold calls, completed, issued. intros ->. cbn.
  destruct (is_call o), (is_final_fire o), (is_issue o); auto.
Qed.

Lemma OneShotTimer_schedule_eq :
  OneShotTimer.schedule = schedule_with TFinal TChain.
Proof. reflexivity. Qed.

Lemma IntervalTimer_schedule_eq :
  IntervalTimer.schedule = schedule_with IFinal IChain.
Proof. reflexivity. Qed.

Lemma schedule_with_spec (final chain : closure) (r : Z) (w : World) :
  _cleared (handle w) = false ->
  natives w = [] ->
  let n := segment final chain r w in
  let w' := schedule_with final chain (Fin r) w in
  natives w' = [mark (shouldUnref (vars w)) (nid n) n] /\
  log w' = Issued n :: log w /\
  id (handle w') = Some (nid n) /\
  _cleared (handle w') = false /\
  made_by (handle w') = made_by (handle w) /\
  brand (handle w') = brand (handle w) /\
  _targetTime (handle w') = _targetTime (handle w) /\
  vars w' = vars w /\ clock w' = clock w /\
  signals w' = signals w /\ promise w' = promise w.
Proof.
  intros C N. unfold schedule_with, segment. rewrite C. cbn [Num.leb].
  destruct (r <=? MAX_TIMEOUT) eqn:E;
    [apply Z.leb_le in E | apply Z.leb_gt in E];
    cbn; rewrite N; cbn;
    destruct (shouldUnref (vars w)) eqn:U; cbn; rewrite ?C;
    rewrite ?Nat.eqb_refl;
    rewrite ?(Z.min_l r MAX_TIMEOUT) by lia;
    rewrite ?(Z.min_r r MAX_TIMEOUT) by lia;
    unfold mark; cbn; rewrite ?Nat.eqb_refl; auto 15.
Qed.

Lemma mark_nid (u : bool) (i : nat) (n : Native) : nid (mark u i n) = nid n.
Proof. unfold mark. destruct (Nat.eqb (nid n) i); reflexivity. Qed.

Lemma mark_body (u : bool) (i : nat) (n : Native) :
  body (mark u i n) = body n.
Proof. unfold mark. destruct (Nat.eqb (nid n) i); reflexivity. Qed.

Lemma mark_span (u : bool) (i : nat) (n : Native) :
  span (mark u i n) = span n.
Proof. unfold mark. destruct (Nat.eqb (nid n) i); reflexivity. Qed.

Lemma mark_issued_at (u : bool) (i : nat) (n : Native) :
  issued_at (mark u i n) = issued_at n.
Proof. unfold mark. destruct (Nat.eqb (nid n) i); reflexivity. Qed.

Lemma mark_due (u : bool) (i : nat) (n : Native) : due (mark u i n) = due n.
Proof. unfold due. rewrite mark_span, mark_issued_at. reflexivity. Qed.

Lemma invoke_log (f : fn) (args : list value) (w : World) :
  log (invoke f args w) =
  match target_fn f with
  | Some k => Called k args (clock w) :: log w
  | None => log w
  end.
Proof.
  revert w. induction f as [k|s|s f IH]; intros w; cbn.
  - reflexivity.
  - destruct s; reflexivity.
  - rewrite IH. destruct s; reflexivity.
Qed.

(** ** The one-shot timer: what every script preserves *)

Section OneShotInvariant.

Variable f : fn.
Variable args : list value.
Variable T : Z.

(** A world that differs in the clock, the signals and the promise
    only. *)
Lemma oneshot_agree (w w' : World) :
  handle w' = handle w -> vars w' = vars w -> natives w' = natives w ->
  log w' = log w -> oneshot f args T w -> oneshot f args T w'.
Proof.
  intros Hh Hv Hn Hl [A B C D E F G H I J].
  constructor; unfold waiting, completed, calls in *;
    rewrite ?Hh, ?Hv, ?Hn, ?Hl; auto.
Qed.

Lemma oneshot_clearTimeout (a : arg) (w : World) :
  oneshot f args T w -> oneshot f args T (clearTimeout a w).
Proof.
  intros Hw. destruct a; try exact Hw.
  destruct Hw as [A B C D E F G H I J].
  destruct (clearTimeout_frame ArgHandle w)
    as ((_ & V & L & _ & M & Br & Tg) & _).
  constructor; unfold completed, calls in *; rewrite ?V, ?L, ?M, ?Br, ?Tg;
    auto.
  left. destruct F as [F|(n & N & Cl & Id & _)].
  - apply clearTimeout_idle, F.
  - unfold clearTimeout. rewrite B. cbn. rewrite Id. cbn. rewrite N. cbn.
    rewrite Nat.eqb_refl. reflexivity.
Qed.

Lemma oneshot_run_listener (l : listener) (w : World) :
  oneshot f args T w -> oneshot f args T (run_listener l w).
Proof.
  intros Hw. destruct l; unfold run_listener.
  - apply oneshot_clearTimeout, Hw.
  - eapply oneshot_agree; [| | | |apply (oneshot_clearTimeout ArgHandle), Hw];
      reflexivity.
Qed.

Lemma oneshot_abort (s : nat) (w : World) :
  oneshot f args T w -> oneshot f args T (abort s w).
Proof.
  apply abort_listeners_invariant.
  - intros g w' Hw'. eapply oneshot_agree; [| | | |exact Hw']; reflexivity.
  - intros l w'. apply oneshot_run_listener.
Qed.

Lemma oneshot_mark (u : bool) (w : World) :
  oneshot f args T w ->
  oneshot f args T (set_natives
             (match id (handle w) with
              | Some k => map (mark u k) (natives w)
              | None => natives w
              end) (set_shouldUnref u w)).
Proof.
  intros [A B C D E F G H I J].
  constructor; unfold completed, calls in *; cbn; auto.
  destruct F as [F|(n & N & Cl & Id & Co & Bo)].
  - left. rewrite F. destruct (id (handle w)); reflexivity.
  - right. exists (mark u (nid n) n). rewrite Id, N. cbn.
    rewrite mark_nid, mark_body. auto.
Qed.

Lemma oneshot_fire (late : nat) (w : World) :
  oneshot f args T w -> oneshot f args T (fire late w).
Proof.
  intros Hw. unfold fire.
  destruct (natives w) as [|n rest] eqn:N; [exact Hw|].
  destruct Hw as [A B C D E F G H I J].
  destruct F as [F|(n' & N' & Cl & Id & Co & Bo)]; [congruence|].
  rewrite N in N'. injection N' as -> ->.
  set (t := Z.max (clock w) (due n') + Z.of_nat late).
  set (w1 := emit (Fired n' t) (set_clock t (set_natives [] w))).
  assert (Co1 : completed w1 = if is_final (body n') then 1%nat else 0%nat).
  { unfold w1. rewrite completed_emit. cbn [is_final_fire].
    replace (completed (set_clock t (set_natives [] w))) with (completed w)
      by reflexivity.
    rewrite Co. reflexivity. }
  assert (Ca1 : calls w1 = calls w).
  { unfold w1. rewrite calls_emit. reflexivity. }
  destruct Bo as [Bo|Bo]; rewrite Bo in *; cbn [is_final] in Co1.
  - (* the last segment: the callback runs *)
    cbn [run].
    replace (_cleared (handle w1)) with false by (symmetry; exact Cl).
    cbn [negb]. replace (callback (vars w1)) with f by (symmetry; exact C).
    replace (arguments_ (vars w1)) with args by (symmetry; exact D).
    destruct (invoke_frame f args w1) as (K1 & K2 & K3 & K4 & K5).
    pose proof (invoke_log f args w1) as L.
    assert (Cnt : completed (invoke f args w1) = 1%nat /\
                  calls (invoke f args w1) =
                  match target_fn f with Some _ => 1%nat | None => 0%nat end).
    { destruct (target_fn f) as [k|].
      - destruct (counts_cons _ _ _ L) as (X1 & X2 & _).
        cbn [is_call is_final_fire] in X1, X2.
        rewrite X1, X2, Ca1, H, Co, Co1. auto.
      - destruct (counts_log _ _ L) as (X1 & X2 & _).
        rewrite X1, X2, Ca1, H, Co1. auto. }
    destruct Cnt as (Cn1 & Cn2).
    constructor; rewrite ?K2, ?K3, ?K4, ?Cn1, ?Cn2; auto.
    + intros k a t0. rewrite L. destruct (target_fn f).
      * intros [Q|[Q|Q]]; [congruence|discriminate|eauto].
      * intros [Q|Q]; [discriminate|eauto].
    + intros m. rewrite L. destruct (target_fn f).
      * intros [Q|[Q|Q]]; [discriminate|discriminate|eauto].
      * intros [Q|Q]; [discriminate|eauto].
  - (* a capped segment: the next one is registered *)
    cbn [run]. replace (_targetTime (handle w1)) with (Some (Fin T))
      by (symmetry; exact E).
    cbn [or_zero]. rewrite max0_sub, OneShotTimer_schedule_eq.
    destruct (schedule_with_spec TFinal TChain (Z.max 0 (T - clock w1)) w1
                Cl eq_refl)
      as (S1 & S2 & S3 & S4 & S5 & S6 & S7 & S8 & S9 & _).
    set (w2 := schedule_with TFinal TChain (Fin (Z.max 0 (T - clock w1))) w1)
      in *.
    destruct (counts_cons _ _ _ S2) as (X1 & X2 & _).
    cbn [is_call is_final_fire] in X1, X2.
    constructor; rewrite ?S5, ?S6, ?S7, ?S8, ?X1, ?X2, ?Co1, ?Ca1; auto.
    + right. eexists. split; [exact S1|]. rewrite mark_nid, mark_body.
      repeat split; auto; try (rewrite X2; exact Co1).
      unfold segment. cbn [body].
      destruct (Z.max 0 (T - clock w1) <=? MAX_TIMEOUT); auto.
    + rewrite H, Co. destruct (target_fn f); reflexivity.
    + intros k a t0. rewrite S2. intros [Q|[Q|Q]];
        [discriminate|discriminate|eauto].
    + intros m. rewrite S2. intros [Q|[Q|Q]]; [|discriminate|eauto].
      injection Q as <-. reflexivity.
Qed.

Theorem oneshot_step (e : event) (w : World) :
  oneshot f args T w -> oneshot f args T (step e w).
Proof.
  intros Hw. destruct e as [late|dt|a|s| |]; cbn [step].
  - apply oneshot_fire, Hw.
  - eapply oneshot_agree; [| | | |exact Hw]; reflexivity.
  - apply oneshot_clearTimeout, Hw.
  - apply oneshot_abort, Hw.
  - unfold ref. rewrite (os_made f args T w Hw).
    generalize (oneshot_mark false w Hw). unfold native_ref.
    destruct (id (handle w)); cbn; auto.
  - unfold unref. rewrite (os_made f args T w Hw).
    generalize (oneshot_mark true w Hw). unfold native_unref.
    destruct (id (handle w)); cbn; auto.
Qed.

Lemma oneshot_exec (es : list event) (w : World) :
  oneshot f args T w -> oneshot f args T (exec es w).
Proof. apply exec_invariant. intros e w'. apply oneshot_step. Qed.

End OneShotInvariant.

(** ** The chain of segments when every native timer fires on time *)


Lemma segments_bounds (d : Z) :
  0 <= d ->
  let k := Z.of_nat (Nat.pred (segments d)) in
  0 <= d - k * MAX_TIMEOUT <= MAX_TIMEOUT /\
  (Nat.pred (segments d) = 0%nat \/ k * MAX_TIMEOUT < d).
Proof.
  intros H k. subst k. unfold segments. cbn [Nat.pred].
  pose proof MAX_TIMEOUT_pos as P.
  destruct (Z.eq_dec d 0) as [->|N].
  - assert (E : Z.to_nat ((0 - 1) / MAX_TIMEOUT) = 0%nat) by reflexivity.
    rewrite E. split; [lia|]. left. reflexivity.
  - rewrite Z2Nat.id by (apply Z.div_pos; lia).
    pose proof (Z.mul_div_le (d - 1) MAX_TIMEOUT P) as Q1.
    pose proof (Z.mul_succ_div_gt (d - 1) MAX_TIMEOUT P) as Q2.
    split; [|right]; lia.
Qed.

Lemma addremove_promise (s : option nat) (l : listener) (w w' : World) :
promise w' = promise w -> signals w' = signals w ->
promise (removeEventListener s l w') = promise (removeEventListener s l w)
/\ signals (removeEventListener s l w') =
signals (removeEventListener s l w).
Proof. intros P S. destruct s; cbn; rewrite ?P, ?S; auto. Qed.

(** What a callback does to the promise and the signals depends on
those only. *)
Lemma invoke_promise_signals (f : fn) (args : list value) (w w' : World) :
promise w' = promise w -> signals w' = signals w ->
promise (invoke f args w') = promise (invoke f args w) /\
signals (invoke f args w') = signals (invoke f args w).
Proof.
revert w w'. induction f as [k|s|s f IH]; intros w w' P S; cbn [invoke].
- cbn. auto.
- apply addremove_promise; cbn; rewrite ?P, ?S; reflexivity.
- apply IH; apply addremove_promise; auto.
Qed.

Section OnTime.

Variable f : fn.
Variable args : list value.

Lemma armed_fire_chain (r : Z) (w : World) :
  armed f args r w -> MAX_TIMEOUT < r ->
  let w' := fire 0 w in
  armed f args (r - MAX_TIMEOUT) w' /\
  clock w' = clock w + MAX_TIMEOUT /\
  calls w' = calls w /\ completed w' = completed w /\
  issued w' = S (issued w) /\
  spans w' = spans w ++ [Fin (Z.min (r - MAX_TIMEOUT) MAX_TIMEOUT)] /\
  call_args w' = call_args w /\
  promise w' = promise w /\ signals w' = signals w.
Proof.
  intros (n & N & I & Sp & Bo & Tg & Cl & Cb & Ar & R) Hr.
  pose proof MAX_TIMEOUT_pos as P.
  assert (Bo' : body n = TChain).
  { rewrite Bo. destruct (r <=? MAX_TIMEOUT) eqn:E; [|reflexivity].
    apply Z.leb_le in E. lia. }
  assert (D : due n = clock w + MAX_TIMEOUT).
  { unfold due. rewrite I, Sp. lia. }
  unfold fire. rewrite N, Bo', D.
  replace (Z.max (clock w) (clock w + MAX_TIMEOUT) + Z.of_nat 0)
    with (clock w + MAX_TIMEOUT) by lia.
  set (t := clock w + MAX_TIMEOUT).
  set (w1 := emit (Fired n t) (set_clock t (set_natives [] w))).
  cbn [run]. replace (_targetTime (handle w1)) with (Some (Fin (clock w + r)))
    by (symmetry; exact Tg).
  cbn [or_zero]. rewrite max0_sub, OneShotTimer_schedule_eq.
  replace (Z.max 0 (clock w + r - clock w1)) with (r - MAX_TIMEOUT)
    by (unfold w1, t; cbn; lia).
  destruct (schedule_with_spec TFinal TChain (r - MAX_TIMEOUT) w1 Cl eq_refl)
    as (S1 & S2 & S3 & S4 & S5 & S6 & S7 & S8 & S9 & S10 & S11).
  set (w2 := schedule_with TFinal TChain (Fin (r - MAX_TIMEOUT)) w1) in *.
  destruct (counts_cons _ _ _ S2) as (X1 & X2 & X3).
  cbn [is_call is_final_fire is_issue] in X1, X2, X3.
  assert (C1 : calls w1 = calls w /\ completed w1 = completed w /\
               issued w1 = issued w).
  { unfold w1. rewrite calls_emit, completed_emit, issued_emit.
    cbn [is_call is_final_fire is_issue]. rewrite Bo'. auto. }
  destruct C1 as (Y1 & Y2 & Y3).
  split; [|split; [|split; [|split; [|split; [|split; [|split; [|split]]]]]]];
    try congruence.
  - eexists. split; [exact S1|].
    rewrite mark_issued_at, mark_span, mark_body, S7, S8, S9, S4.
    unfold segment. cbn [issued_at span body]. repeat split; auto; try lia.
    unfold w1. cbn. rewrite Tg. f_equal. f_equal. unfold t. lia.
  - rewrite S9. reflexivity.
  - unfold spans. rewrite S2. cbn. reflexivity.
  - unfold call_args. rewrite S2. cbn. reflexivity.
  - rewrite S11. reflexivity.
  - rewrite S10. reflexivity.
Qed.

Lemma armed_fire_final (r : Z) (w : World) :
  armed f args r w -> r <= MAX_TIMEOUT ->
  let w' := fire 0 w in
  natives w' = [] /\ clock w' = clock w + r /\
  completed w' = S (completed w) /\
  issued w' = issued w /\ spans w' = spans w /\
  calls w' = match target_fn f with
             | Some _ => S (calls w)
             | None => calls w
             end /\
  call_args w' = match target_fn f with
                 | Some _ => call_args w ++ [args]
                 | None => call_args w
                 end /\
                 _cleared (handle w') = false /\
                 promise w' = promise (invoke f args w) /\
                 signals w' = signals (invoke f args w).
Proof.
  intros (n & N & I & Sp & Bo & Tg & Cl & Cb & Ar & R) Hr.
  assert (Bo' : body n = TFinal).
  { rewrite Bo. destruct (r <=? MAX_TIMEOUT) eqn:E; [reflexivity|].
    apply Z.leb_gt in E. lia. }
  assert (D : due n = clock w + r).
  { unfold due. rewrite I, Sp. lia. }
  unfold fire. rewrite N, Bo', D.
  replace (Z.max (clock w) (clock w + r) + Z.of_nat 0)
    with (clock w + r) by lia.
  set (t := clock w + r).
  set (w1 := emit (Fired n t) (set_clock t (set_natives [] w))).
  cbn [run]. replace (_cleared (handle w1)) with false by (symmetry; exact Cl).
  cbn [negb]. replace (callback (vars w1)) with f by (symmetry; exact Cb).
  replace (arguments_ (vars w1)) with args by (symmetry; exact Ar).
  destruct (invoke_frame f args w1) as (K1 & K2 & K3 & K4 & K5).
  pose proof (invoke_log f args w1) as L.
  assert (C1 : calls w1 = calls w /\ completed w1 = S (completed w) /\
               issued w1 = issued w).
  { unfold w1. rewrite calls_emit, completed_emit, issued_emit.
    cbn [is_call is_final_fire is_issue]. rewrite Bo'. auto. }
  destruct C1 as (Y1 & Y2 & Y3).
  destruct (invoke_promise_signals f args w w1 eq_refl eq_refl) as (Q1 & Q2).
  rewrite K1, K2, K4, Q1, Q2. unfold spans, call_args. rewrite L.
  destruct (target_fn f) as [k|].
  - destruct (counts_cons _ _ _ L) as (X1 & X2 & X3).
    cbn [is_call is_final_fire is_issue] in X1, X2, X3.
    rewrite X1, X2, X3, Y1, Y2, Y3. cbn. auto 12.
  - destruct (counts_log _ _ L) as (X1 & X2 & X3).
  rewrite X1, X2, X3, Y1, Y2, Y3. cbn. auto 12.
Qed.

(** [k] capped segments, each fired on time. *)
Lemma armed_chain (k : nat) :
  forall (r : Z) (w : World),
    armed f args r w -> (k = 0%nat \/ Z.of_nat k * MAX_TIMEOUT < r) ->
    let w' := exec (repeat (Fire 0) k) w in
    armed f args (r - Z.of_nat k * MAX_TIMEOUT) w' /\
    clock w' = clock w + Z.of_nat k * MAX_TIMEOUT /\
    calls w' = calls w /\ completed w' = completed w /\
    issued w' = (issued w + k)%nat /\
    spans w' =
    spans w ++
    map (fun j => Fin (Z.min (r - Z.of_nat j * MAX_TIMEOUT) MAX_TIMEOUT))
      (seq 1 k) /\
      call_args w' = call_args w /\
      promise w' = promise w /\ signals w' = signals w.
Proof.
  pose proof MAX_TIMEOUT_pos as P.
  induction k as [|k IH]; intros r w Hw Hk.
  - cbn [repeat exec fold_left seq map]. rewrite app_nil_r.
    replace (r - Z.of_nat 0 * MAX_TIMEOUT) with r by lia.
    repeat split; auto; lia.
  - assert (Hr : MAX_TIMEOUT < r) by (destruct Hk; [discriminate|nia]).
    destruct (armed_fire_chain r w Hw Hr)
    as (A1 & A2 & A3 & A4 & A5 & A6 & A7 & A8 & A9).
    cbn [repeat]. rewrite exec_cons. cbn [step].
    destruct (IH (r - MAX_TIMEOUT) (fire 0 w) A1) as
    (B1 & B2 & B3 & B4 & B5 & B6 & B7 & B8 & B9); [right; nia|].
    replace (r - Z.of_nat (S k) * MAX_TIMEOUT)
      with (r - MAX_TIMEOUT - Z.of_nat k * MAX_TIMEOUT) by nia.
      rewrite B2, B3, B4, B5, B6, B7, B8, B9, A2, A3, A4, A5, A6, A7, A8, A9.
    repeat split; auto; try nia.
    rewrite <- app_assoc. f_equal. cbn [seq map app]. f_equal.
    rewrite <- (seq_shift k 1), map_map. apply map_ext. intros j.
    f_equal. f_equal. nia.
Qed.

End OnTime.

(** ** Native timers that fire late *)


Section Late.

Variable f : fn.
Variable args : list value.



End Late.



(** ** Making a one-shot timer *)

Arguments clamp : simpl never.

(** A delay above [Number.MAX_SAFE_INTEGER]: line 122 returns the handle
    before a target time is set or anything is scheduled. *)
Lemma _setTimeout_over (f : fn) (d : option num) (args : list value)
    (w : World) :
  Num.gtb (or_zero d) (Fin MAX_SAFE_INTEGER) = true ->
  let w' := _setTimeout f d args w in
  natives w' = natives w /\ log w' = log w /\
  handle w' = {| made_by := OneShot; brand := true; id := None;
                 _cleared := false; _targetTime := None |} /\
  clock w' = clock w /\ signals w' = signals w /\ promise w' = promise w.
Proof.
  intros H. unfold _setTimeout. rewrite H. cbn. auto 10.
Qed.

(** Any other delay: the target time is set and the first segment is
    registered. *)
Lemma _setTimeout_armed (f : fn) (d : option num) (args : list value)
    (w : World) (z : Z) :
  natives w = [] ->
  Num.gtb (or_zero d) (Fin MAX_SAFE_INTEGER) = false ->
  clamp (or_zero d) = Fin z ->
  let w' := _setTimeout f d args w in
  armed f args z w' /\
  log w' = Issued (segment TFinal TChain z w) :: log w /\
  made_by (handle w') = OneShot /\ brand (handle w') = true /\
  id (handle w') = Some (next_nid w) /\
  map nid (natives w') = [next_nid w] /\
  clock w' = clock w /\ signals w' = signals w /\ promise w' = promise w /\
  0 <= z <= MAX_SAFE_INTEGER.
Proof.
  intros N H Hz. unfold _setTimeout. rewrite H, Hz.
  destruct (clamp_finite _ H) as (z' & Hz' & R).
  assert (z' = z) by congruence. subst z'.
  rewrite OneShotTimer_schedule_eq.
  match goal with
  | |- context [schedule_with TFinal TChain (Fin z) ?w0] =>
      set (w1 := w0);
      destruct (schedule_with_spec TFinal TChain z w1 eq_refl N)
        as (S1 & S2 & S3 & S4 & S5 & S6 & S7 & S8 & S9 & S10 & S11)
  end.
  cbv zeta. fold w1. set (w2 := schedule_with TFinal TChain (Fin z) w1) in *.
  split; [|repeat split; auto; try lia].
  - eexists. split; [exact S1|].
    rewrite mark_issued_at, mark_span, mark_body, S4, S7, S8, S9.
    unfold segment, w1. cbn. repeat split; auto; lia.
  - rewrite S1. cbn [map]. rewrite mark_nid. reflexivity.
Qed.

Lemma _setTimeout_oneshot (f : fn) (d : option num) (args : list value)
    (w : World) (z : Z) :
  natives w = [] -> log w = [] ->
  Num.gtb (or_zero d) (Fin MAX_SAFE_INTEGER) = false ->
  clamp (or_zero d) = Fin z ->
  oneshot f args (clock w + z) (_setTimeout f d args w).
Proof.
  intros N L H Hz.
  destruct (_setTimeout_armed f d args w z N H Hz)
    as ((n & A1 & A2 & A3 & A4 & A5 & A6 & A7 & A8 & A9)
        & B1 & B2 & B3 & B4 & Q & B5 & _).
  set (w' := _setTimeout f d args w) in *.
  rewrite L in B1.
  assert (Co : completed w' = 0%nat)
    by (unfold completed; rewrite B1; reflexivity).
  assert (Ca : calls w' = 0%nat) by (unfold calls; rewrite B1; reflexivity).
  constructor; auto.
  - rewrite A5, B5. reflexivity.
  - right. exists n. repeat split; auto.
    + rewrite B4. rewrite A1 in Q. injection Q as ->. reflexivity.
    + rewrite A4. destruct (z <=? MAX_TIMEOUT); auto.
  - lia.
  - rewrite Ca, Co. destruct (target_fn f); reflexivity.
  - intros k a t. rewrite B1. intros [Q'|[]]. discriminate.
  - intros m. rewrite B1. intros [Q'|[]]. injection Q' as <-.
    unfold segment. cbn [span issued_at]. f_equal. lia.
Qed.

Section OnTimeRun.

Variable f : fn.
Variable args : list value.


Lemma on_time_done (d : Z) (w : World) :
  armed f args d w ->
  let w' := exec (repeat (Fire 0) (segments d)) w in
  natives w' = [] /\ clock w' = clock w + d /\
  completed w' = S (completed w) /\
  issued w' = (issued w + Nat.pred (segments d))%nat /\
  spans w' =
  spans w ++
  map (fun j => Fin (Z.min (d - Z.of_nat j * MAX_TIMEOUT) MAX_TIMEOUT))
    (seq 1 (Nat.pred (segments d))) /\
  calls w' = match target_fn f with
             | Some _ => S (calls w)
             | None => calls w
             end /\
  call_args w' = match target_fn f with
                 | Some _ => call_args w ++ [args]
                 | None => call_args w
                 end /\
                 _cleared (handle w') = false /\
                 promise w' = promise (invoke f args w) /\
                 signals w' = signals (invoke f args w).
Proof.
  intros Hw.
  assert (R : 0 <= d) by (destruct Hw as (n & H); tauto).
  destruct (segments_bounds d R) as (B1 & B2).
  set (m := Nat.pred (segments d)) in *.
  assert (E : segments d = S m) by reflexivity.
  rewrite E. cbn [repeat]. rewrite repeat_cons, exec_app.
  destruct (armed_chain f args m d w Hw B2)
  as (A1 & A2 & A3 & A4 & A5 & A6 & A7 & A8 & A9).
  set (w1 := exec (repeat (Fire 0) m) w) in *.
  destruct (armed_fire_final f args _ w1 A1 (proj2 B1))
  as (F1 & F2 & F3 & F4 & F5 & F6 & F7 & F8 & F9 & F10).
  destruct (invoke_promise_signals f args w w1 A8 A9) as (Q1 & Q2).
  cbn [exec fold_left step].
  rewrite F1, F2, F3, F4, F5, F6, F7, F8, F9, F10, A2, A3, A4, A5, A6, A7,
  Q1, Q2.
  repeat split; auto. lia.
Qed.

End OnTimeRun.

(** ** The interval: what every script preserves *)

Section IntervalInvariant.

Variable f : fn.
Variable args : list value.
Variable p : Z.     (* the period: [delay] after line 223 *)
Variable T0 : Z.    (* the first target time *)

Lemma interval_agree (w w' : World) :
  handle w' = handle w -> vars w' = vars w -> natives w' = natives w ->
  log w' = log w -> interval f args p T0 w -> interval f args p T0 w'.
Proof.
  intros Hh Hv Hn Hl [A B C D E F G H I].
  constructor; unfold ticking, completed, calls in *;
    rewrite ?Hh, ?Hv, ?Hn, ?Hl; auto.
Qed.

Lemma interval_clearTimeout (a : arg) (w : World) :
  interval f args p T0 w -> interval f args p T0 (clearTimeout a w).
Proof.
  intros Hw. destruct a; try exact Hw.
  destruct Hw as [A B C D E F G H I].
  destruct (clearTimeout_frame ArgHandle w)
    as ((_ & V & L & _ & M & Br & Tg) & _).
  constructor; unfold completed, calls in *; rewrite ?V, ?L, ?M, ?Br, ?Tg;
    auto.
  left. destruct G as [(G & Cl)|(n & N & Cl & Id & _)].
  - split; [apply clearTimeout_idle, G|].
    apply clearTimeout_cleared, Cl.
  - unfold clearTimeout. rewrite B. cbn. rewrite Id. cbn. rewrite N. cbn.
    rewrite Nat.eqb_refl. auto.
Qed.

Lemma interval_run_listener (l : listener) (w : World) :
  interval f args p T0 w -> interval f args p T0 (run_listener l w).
Proof.
  intros Hw. destruct l; unfold run_listener.
  - apply interval_clearTimeout, Hw.
  - eapply interval_agree;
      [| | | |apply (interval_clearTimeout ArgHandle), Hw]; reflexivity.
Qed.

Lemma interval_abort (s : nat) (w : World) :
  interval f args p T0 w -> interval f args p T0 (abort s w).
Proof.
  apply abort_listeners_invariant.
  - intros g w' Hw'. eapply interval_agree; [| | | |exact Hw']; reflexivity.
  - intros l w'. apply interval_run_listener.
Qed.

Lemma interval_mark (u : bool) (w : World) :
  interval f args p T0 w ->
  interval f args p T0 (set_natives
              (match id (handle w) with
               | Some k => map (mark u k) (natives w)
               | None => natives w
               end) (set_shouldUnref u w)).
Proof.
  intros [A B C D E F G H I].
  constructor; unfold completed, calls in *; cbn; auto.
  destruct G as [(G & Cl)|(n & N & Cl & Id & Bo & Du)].
  - left. rewrite G. destruct (id (handle w)); auto.
  - right. exists (mark u (nid n) n). rewrite Id, N. cbn.
    rewrite mark_nid, mark_body, mark_due. auto.
Qed.

(** One period completes: the target moves on by the period, the next
    cycle is registered for what is left until the new target, and the
    callback runs last. *)
Lemma interval_tick (late : nat) (w : World) (n : Native) :
  interval f args p T0 w -> natives w = [n] -> body n = IFinal ->
  let t := Z.max (clock w) (due n) + Z.of_nat late in
  let next := T0 + Z.of_nat (completed w) * p + p in
  let w1 :=
    set_nextTargetTime (Fin next)
      (emit (Fired n t) (set_clock t (set_natives [] w))) in
  let w' := fire late w in
  w' = invoke f args
         (schedule_with IFinal IChain (Fin (Z.max 0 (next - t))) w1) /\
  nextTargetTime (vars w') = Fin next /\
  clock w' = t /\
  natives w' =
  [mark (shouldUnref (vars w)) (next_nid w)
     (segment IFinal IChain (Z.max 0 (next - t)) w1)] /\
  log w' =
  match target_fn f with
  | Some k =>
      [Called k args t;
       Issued (segment IFinal IChain (Z.max 0 (next - t)) w1)]
  | None => [Issued (segment IFinal IChain (Z.max 0 (next - t)) w1)]
  end ++ Fired n t :: log w.
Proof.
  intros [A B C D E F G H I] N Bo t next w1 w'.
  destruct G as [(G & _)|(n' & N' & Cl & Id & _)]; [congruence|].
  assert (E1 : w' = invoke f args
             (schedule_with IFinal IChain (Fin (Z.max 0 (next - t))) w1)).
  { unfold w', fire. rewrite N, Bo. cbn [run]. fold t.
    set (w0 := emit (Fired n t) (set_clock t (set_natives [] w))).
    replace (_cleared (handle w0)) with false by (symmetry; exact Cl).
    replace (nextTargetTime (vars w0)) with
      (Fin (T0 + Z.of_nat (completed w) * p)) by (symmetry; exact F).
    replace (delay_ (vars w0)) with (Fin p) by (symmetry; exact E).
    cbn [Num.add]. fold next.
    change (set_nextTargetTime (Fin next) w0) with w1.
    replace (nextTargetTime (vars w1)) with (Fin next) by reflexivity.
    rewrite max0_sub, IntervalTimer_schedule_eq.
    replace (clock w1) with t by reflexivity.
    set (w2 := schedule_with IFinal IChain (Fin (Z.max 0 (next - t))) w1).
    assert (V : vars w2 = vars w1).
    { apply (schedule_with_spec IFinal IChain _ w1 Cl eq_refl). }
    rewrite V. cbn [vars w1 set_nextTargetTime set_vars callback arguments_].
    unfold w1. cbn [vars set_nextTargetTime set_vars callback arguments_
                      emit set_clock set_natives].
    rewrite C, D. reflexivity. }
  split; [exact E1|]. rewrite E1.
  destruct (schedule_with_spec IFinal IChain (Z.max 0 (next - t)) w1 Cl
              eq_refl)
    as (S1 & S2 & S3 & S4 & S5 & S6 & S7 & S8 & S9 & _).
  set (w2 := schedule_with IFinal IChain (Fin (Z.max 0 (next - t))) w1) in *.
  destruct (invoke_frame f args w2) as (K1 & K2 & K3 & K4 & K5).
  rewrite K1, K3, K4, S8, S9, S1, invoke_log, S2, ?S9.
  repeat split. destruct (target_fn f); reflexivity.
Qed.

Lemma segment_due (r : Z) (w : World) (x : Z) :
  x - clock w <= r ->
  body (segment IFinal IChain r w) = IFinal ->
  x <= due (segment IFinal IChain r w).
Proof.
  intros H1. unfold segment, due. cbn [body span issued_at].
  destruct (r <=? MAX_TIMEOUT) eqn:E; [|discriminate].
  apply Z.leb_le in E. lia.
Qed.

Lemma interval_fire (late : nat) (w : World) :
  interval f args p T0 w -> interval f args p T0 (fire late w).
Proof.
  intros Hw.
  destruct (natives w) as [|n rest] eqn:N;
    [unfold fire; rewrite N; exact Hw|].
  pose proof Hw as [A B C D E F G H I].
  destruct G as [(G & _)|(n' & N' & Cl & Id & Bo & Du)]; [congruence|].
  rewrite N in N'. injection N' as -> ->.
  destruct Bo as [Bo|Bo].
  - (* a period completes *)
    destruct (interval_tick late w n' Hw N Bo) as (E1 & T1 & T2 & T3 & T4).
    set (t := Z.max (clock w) (due n') + Z.of_nat late) in *.
    set (next := T0 + Z.of_nat (completed w) * p + p) in *.
    set (w1 := set_nextTargetTime (Fin next)
                 (emit (Fired n' t) (set_clock t (set_natives [] w)))) in *.
    destruct (schedule_with_spec IFinal IChain (Z.max 0 (next - t)) w1 Cl
                eq_refl)
      as (S1 & S2 & S3 & S4 & S5 & S6 & S7 & S8 & S9 & _).
    set (w2 := schedule_with IFinal IChain (Fin (Z.max 0 (next - t))) w1)
      in *.
    destruct (invoke_frame f args w2) as (K1 & K2 & K3 & K4 & K5).
    set (w' := fire late w) in *.
    assert (Co : completed w' = S (completed w)).
    { unfold completed. rewrite T4.
      destruct (target_fn f); cbn; rewrite Bo; reflexivity. }
    assert (Ca : calls w' = match target_fn f with
                            | Some _ => S (calls w)
                            | None => calls w
                            end).
    { unfold calls. rewrite T4. destruct (target_fn f); reflexivity. }
    assert (Hh : handle w' = handle w2) by (rewrite E1; exact K2).
    assert (Hv : vars w' = vars w1) by (rewrite E1, K3; exact S8).
    constructor; rewrite ?Hh, ?S5, ?S6; auto.
    + rewrite Hv. exact C.
    + rewrite Hv. exact D.
    + rewrite Hv. exact E.
    + rewrite T1, Co. f_equal. unfold next. lia.
    + right. eexists. split; [exact T3|].
      rewrite mark_nid, mark_body, mark_due, Hh, S4, S3.
      repeat split; auto.
      * unfold segment. cbn [body].
        destruct (Z.max 0 (next - t) <=? MAX_TIMEOUT); auto.
      * rewrite Co. intros Q.
        apply segment_due; auto.
        replace (clock w1) with t by reflexivity. unfold next. lia.
    + rewrite Ca, Co, H. destruct (target_fn f); reflexivity.
    + rewrite T4. intros k a t0 Q. apply in_app_or in Q.
      destruct Q as [Q|[Q|Q]]; [|discriminate|eauto].
      destruct (target_fn f); cbn in Q.
      * destruct Q as [Q|[Q|[]]]; [congruence|discriminate].
      * destruct Q as [Q|[]]; discriminate.
  - (* a capped segment of a long period *)
    unfold fire. rewrite N, Bo. cbn [run].
    set (t := Z.max (clock w) (due n') + Z.of_nat late).
    set (w1 := emit (Fired n' t) (set_clock t (set_natives [] w))).
    replace (nextTargetTime (vars w1))
      with (Fin (T0 + Z.of_nat (completed w) * p)) by (symmetry; exact F).
    rewrite max0_sub, IntervalTimer_schedule_eq.
    replace (clock w1) with t by reflexivity.
    set (r := Z.max 0 (T0 + Z.of_nat (completed w) * p - t)).
    destruct (schedule_with_spec IFinal IChain r w1 Cl eq_refl)
      as (S1 & S2 & S3 & S4 & S5 & S6 & S7 & S8 & S9 & _).
    set (w2 := schedule_with IFinal IChain (Fin r) w1) in *.
    assert (Co : completed w2 = completed w).
    { unfold completed. rewrite S2. cbn. rewrite Bo. reflexivity. }
    assert (Ca : calls w2 = calls w).
    { unfold calls. rewrite S2. reflexivity. }
    constructor; rewrite ?S5, ?S6, ?S8, ?Co, ?Ca; auto.
    + right. eexists. split; [exact S1|].
      rewrite mark_nid, mark_body, mark_due, S4, S3.
      repeat split; auto.
      * unfold segment. cbn [body]. destruct (r <=? MAX_TIMEOUT); auto.
      * rewrite Co. intros Q.
        apply segment_due; auto.
        replace (clock w1) with t by reflexivity. unfold r. lia.
    + intros k a t0. rewrite S2. intros [Q|[Q|Q]];
        [discriminate|discriminate|eauto].
Qed.

Theorem interval_step (e : event) (w : World) :
  interval f args p T0 w -> interval f args p T0 (step e w).
Proof.
  intros Hw. destruct e as [late|dt|a|s| |]; cbn [step].
  - apply interval_fire, Hw.
  - eapply interval_agree; [| | | |exact Hw]; reflexivity.
  - apply interval_clearTimeout, Hw.
  - apply interval_abort, Hw.
  - unfold ref. rewrite (iv_made f args p T0 w Hw).
    generalize (interval_mark false w Hw). unfold native_ref.
    destruct (id (handle w)); cbn; auto.
  - unfold unref. rewrite (iv_made f args p T0 w Hw).
    generalize (interval_mark true w Hw). unfold native_unref.
    destruct (id (handle w)); cbn; auto.
Qed.

Lemma interval_exec (es : list event) (w : World) :
  interval f args p T0 w -> interval f args p T0 (exec es w).
Proof. apply exec_invariant. intros e w'. apply interval_step. Qed.

End IntervalInvariant.

(** ** Making an interval *)

Lemma setInterval_over (f : fn) (d : option num) (args : list value)
    (w : World) :
  Num.gtb (or_zero d) (Fin MAX_SAFE_INTEGER) = true ->
  exists w0,
    setInterval (VFunction f) d args w = Normal w0 /\
    natives w0 = natives w /\ log w0 = log w /\
    handle w0 = {| made_by := Repeating; brand := true; id := None;
                   _cleared := false; _targetTime := None |} /\
    nextTargetTime (vars w0) = PosInf /\
    clock w0 = clock w /\ signals w0 = signals w /\ promise w0 = promise w.
Proof.
  intros H. unfold setInterval. rewrite H. eexists. split; [reflexivity|].
  cbn. auto 10.
Qed.

Lemma setInterval_interval (f : fn) (d : option num) (args : list value)
    (w : World) (z : Z) :
  natives w = [] -> log w = [] ->
  Num.gtb (or_zero d) (Fin MAX_SAFE_INTEGER) = false ->
  clamp (or_zero d) = Fin z ->
  exists w0,
    setInterval (VFunction f) d args w = Normal w0 /\
    interval f args z (clock w + z) w0 /\
    log w0 = [Issued (segment IFinal IChain z w)] /\
    _cleared (handle w0) = false /\
    clock w0 = clock w /\ signals w0 = signals w /\ promise w0 = promise w.
Proof.
  intros N L H Hz. unfold setInterval. rewrite H, Hz.
  eexists. split; [reflexivity|].
  destruct (clamp_finite _ H) as (z' & Hz' & R).
  assert (z' = z) by congruence. subst z'.
  rewrite IntervalTimer_schedule_eq.
  match goal with
  | |- context [schedule_with IFinal IChain (Fin z) ?w0] =>
      set (w1 := w0);
      destruct (schedule_with_spec IFinal IChain z w1 eq_refl N)
        as (S1 & S2 & S3 & S4 & S5 & S6 & S7 & S8 & S9 & S10 & S11)
  end.
  set (w2 := schedule_with IFinal IChain (Fin z) w1) in *.
  assert (L2 : log w2 = [Issued (segment IFinal IChain z w)]).
  { rewrite S2. unfold w1. cbn [log set_nextTargetTime set_delay set_vars
                                  set_handle]. rewrite L. reflexivity. }
  assert (Co : completed w2 = 0%nat)
    by (unfold completed; rewrite L2; reflexivity).
  assert (Ca : calls w2 = 0%nat) by (unfold calls; rewrite L2; reflexivity).
  split; [|repeat split; auto].
  constructor; rewrite ?S5, ?S6, ?S8, ?Co, ?Ca; auto.
  - unfold w1. cbn. f_equal. lia.
  - right. eexists. split; [exact S1|].
    rewrite mark_nid, mark_body, mark_due, S4, S3. repeat split; auto.
    + unfold segment. cbn [body]. destruct (z <=? MAX_TIMEOUT); auto.
    + rewrite Co. intros Q. apply segment_due; auto.
      unfold w1. cbn. lia.
  - destruct (target_fn f); reflexivity.
  - intros k a t. rewrite L2. intros [Q|[]]. discriminate.
Qed.

(** ** Flavour, brand and log of a handle *)

Lemma schedule_with_made_by (final chain : closure) (r : num) (w : World) :
  made_by (handle (schedule_with final chain r w)) = made_by (handle w) /\
  brand (handle (schedule_with final chain r w)) = brand (handle w).
Proof.
  unfold schedule_with. destruct (_cleared (handle w)); [auto|].
  destruct (Num.leb r (Fin MAX_TIMEOUT)); cbn;
    destruct (shouldUnref (vars w)); auto.
Qed.

Lemma run_made_by (c : closure) (w : World) :
  made_by (handle (run c w)) = made_by (handle w) /\
  brand (handle (run c w)) = brand (handle w).
Proof.
  destruct c; cbn [run].
  - destruct (negb (_cleared (handle w))); [|auto].
    destruct (invoke_frame (callback (vars w)) (arguments_ (vars w)) w)
      as (_ & H & _). rewrite H. auto.
  - rewrite OneShotTimer_schedule_eq. apply schedule_with_made_by.
  - destruct (_cleared (handle w)); [auto|].
    match goal with
    | |- context [invoke ?g ?a ?x] =>
        destruct (invoke_frame g a x) as (_ & H & _); rewrite H
    end.
    rewrite IntervalTimer_schedule_eq.
    match goal with
    | |- context [schedule_with ?a ?b ?r ?x] =>
        destruct (schedule_with_made_by a b r x) as (-> & ->)
    end.
    auto.
  - rewrite IntervalTimer_schedule_eq. apply schedule_with_made_by.
Qed.

Lemma step_made_by (e : event) (w : World) :
  made_by (handle (step e w)) = made_by (handle w) /\
  brand (handle (step e w)) = brand (handle w).
Proof.
  destruct e as [late|dt|a|s| |]; cbn [step].
  - unfold fire. destruct (natives w) as [|n rest]; [auto|].
    match goal with
    | |- context [run ?c ?x] => destruct (run_made_by c x) as (-> & ->)
    end.
    auto.
  - auto.
  - destruct (clearTimeout_frame a w) as ((_ & _ & _ & _ & M & B & _) & _).
    auto.
  - destruct (abort_frame s w) as (_ & _ & _ & _ & M & B & _). auto.
  - unfold ref. destruct (made_by (handle w)) eqn:M; [auto| |];
      destruct (id (handle w)); cbn; auto.
  - unfold unref. destruct (made_by (handle w)) eqn:M; [auto| |];
      destruct (id (handle w)); cbn; auto.
Qed.

Lemma exec_made_by (es : list event) (w : World) :
  made_by (handle (exec es w)) = made_by (handle w) /\
  brand (handle (exec es w)) = brand (handle w).
Proof.
  apply (exec_invariant
           (fun w' => made_by (handle w') = made_by (handle w) /\
                      brand (handle w') = brand (handle w))); auto.
  intros e w' (H1 & H2). destruct (step_made_by e w') as (-> & ->). auto.
Qed.

Lemma _setTimeout_brand (f : fn) (d : option num) (args : list value)
    (w : World) :
  made_by (handle (_setTimeout f d args w)) = OneShot /\
  brand (handle (_setTimeout f d args w)) = true.
Proof.
  unfold _setTimeout. destruct (Num.gtb _ _); [cbn; auto|].
  rewrite OneShotTimer_schedule_eq.
  match goal with
  | |- context [schedule_with ?a ?b ?r ?x] =>
      destruct (schedule_with_made_by a b r x) as (-> & ->)
  end.
  cbn. auto.
Qed.








(** ** What a step leaves of the closure variables and the signals *)

Lemma schedule_with_env (final chain : closure) (r : num) (w : World) :
  let w' := schedule_with final chain r w in
  callback (vars w') = callback (vars w) /\
  arguments_ (vars w') = arguments_ (vars w) /\
  signals w' = signals w /\ promise w' = promise w /\
  _cleared (handle w') = _cleared (handle w).
Proof.
  unfold schedule_with. destruct (_cleared (handle w)) eqn:C; [auto|].
  destruct (Num.leb r (Fin MAX_TIMEOUT)); cbn;
    destruct (shouldUnref (vars w)); cbn; auto.
Qed.

(** On a handle that is not cleared and has nothing pending, [schedule]
    registers one native timer, whatever the remaining delay. *)
Lemma schedule_with_shape (final chain : closure) (r : num) (w : World) :
  _cleared (handle w) = false -> natives w = [] ->
  let w' := schedule_with final chain r w in
  exists n,
    natives w' = [n] /\ id (handle w') = Some (nid n) /\
    _cleared (handle w') = false /\
    (body n = final \/ body n = chain) /\
    made_by (handle w') = made_by (handle w) /\
    brand (handle w') = brand (handle w) /\
    callback (vars w') = callback (vars w) /\
    signals w' = signals w /\ promise w' = promise w.
Proof.
  intros C N. unfold schedule_with. rewrite C.
  destruct (Num.leb r (Fin MAX_TIMEOUT)); cbn -[mark]; rewrite N;
    destruct (shouldUnref (vars w)); cbn -[mark];
    eexists; (split; [reflexivity|]); rewrite ?mark_nid, ?mark_body;
    cbn; auto 10.
Qed.

Lemma run_env (c : closure) (w : World) (k : nat) :
  callback (vars w) = UserFn k ->
  let w' := run c w in
  callback (vars w') = UserFn k /\
  arguments_ (vars w') = arguments_ (vars w) /\
  signals w' = signals w /\ promise w' = promise w /\
  _cleared (handle w') = _cleared (handle w).
Proof.
  intros Cb. destruct c; cbn [run].
  - destruct (negb (_cleared (handle w))); [|auto]. rewrite Cb. cbn. auto.
  - rewrite OneShotTimer_schedule_eq.
    destruct (schedule_with_env TFinal TChain
                (Num.max (Fin 0)
                   (Num.sub (or_zero (_targetTime (handle w)))
                      (Fin (clock w)))) w) as (E1 & E2 & E3 & E4 & E5).
    rewrite E1, E2, E3, E4, E5. auto.
  - destruct (_cleared (handle w)) eqn:C; [auto|].
    rewrite IntervalTimer_schedule_eq.
    match goal with
    | |- context [schedule_with ?a ?b ?r ?x] =>
        destruct (schedule_with_env a b r x) as (E1 & E2 & E3 & E4 & E5);
        set (w2 := schedule_with a b r x) in *
    end.
    cbn in E1, E2, E3, E4, E5. rewrite E1, E2, Cb. cbn.
    rewrite E1, E2, E3, E4, E5. auto.
  - rewrite IntervalTimer_schedule_eq.
    destruct (schedule_with_env IFinal IChain
                (Num.max (Fin 0)
                   (Num.sub (nextTargetTime (vars w)) (Fin (clock w)))) w)
      as (E1 & E2 & E3 & E4 & E5).
    rewrite E1, E2, E3, E4, E5. auto.
Qed.

Lemma fold_listeners_signals (ls : list listener) (w : World) :
  signals (fold_left (fun w l => run_listener l w) ls w) = signals w.
Proof.
  revert w. induction ls as [|l ls IH]; intros w; [reflexivity|].
  cbn [fold_left]. rewrite IH.
  destruct l; unfold run_listener, reject; cbn [signals set_promise];
    apply clearTimeout_frame.
Qed.

Lemma abort_signals (s : nat) (w : World) :
  signals (abort s w) =
  if aborted (signals w s) then signals w
  else upd s {| aborted := true; listeners := [] |} (signals w).
Proof.
  unfold abort. destruct (aborted (signals w s)); [reflexivity|].
  apply fold_listeners_signals.
Qed.

(** An abort of a signal nobody listens to changes that signal only. *)
Lemma abort_unheard (s : nat) (w : World) :
  listeners (signals w s) = [] ->
  abort s w = w \/
  abort s w =
  set_signals (upd s {| aborted := true; listeners := [] |} (signals w)) w.
Proof.
  intros H. unfold abort. destruct (aborted (signals w s)); [auto|].
  rewrite H. auto.
Qed.

(** A timer whose callback is a function of the caller: no step other
    than an abort touches the signals, and none touches the callback and
    its arguments. *)
Lemma step_env (e : event) (w : World) (k : nat) :
  callback (vars w) = UserFn k ->
  callback (vars (step e w)) = UserFn k /\
  arguments_ (vars (step e w)) = arguments_ (vars w) /\
  (is_abort e = false -> signals (step e w) = signals w).
Proof.
  intros Cb. destruct e as [late|dt|a|s| |]; cbn [step is_abort].
  - unfold fire. destruct (natives w) as [|n rest]; [auto|].
    match goal with
    | |- context [run ?c ?x] =>
        destruct (run_env c x k Cb) as (E1 & E2 & E3 & _)
    end.
    rewrite E1, E2, E3. auto.
  - auto.
  - destruct (clearTimeout_frame a w) as ((_ & V & _) & _ & S).
    rewrite V, S. auto.
  - destruct (abort_frame s w) as (_ & V & _). rewrite V.
    repeat split; auto. discriminate.
  - unfold ref. destruct (made_by (handle w)); [auto| |];
      destruct (id (handle w)); cbn; auto.
  - unfold unref. destruct (made_by (handle w)); [auto| |];
      destruct (id (handle w)); cbn; auto.
Qed.

(** The abort listener of [s] stays where it is until [s] aborts. *)
Lemma exec_listeners_kept (k s : nat) (es : list event) (w : World) :
  callback (vars w) = UserFn k ->
  aborted (signals w s) = false ->
  existsb (fun e => match e with Abort x => Nat.eqb x s | _ => false end) es
  = false ->
  callback (vars (exec es w)) = UserFn k /\
  signals (exec es w) s = signals w s.
Proof.
  revert w. induction es as [|e es IH]; intros w Cb Ab Hes; [auto|].
  cbn [existsb] in Hes. apply orb_false_elim in Hes. destruct Hes as (He & Hes).
  rewrite exec_cons.
  destruct (step_env e w k Cb) as (E1 & _ & E3).
  assert (Q : signals (step e w) s = signals w s).
  { destruct e as [late|dt|a|x| |]; try (rewrite E3; reflexivity).
    cbn [step]. rewrite abort_signals.
    destruct (aborted (signals w x)); [reflexivity|].
    unfold upd. rewrite Nat.eqb_sym, He. reflexivity. }
  destruct (IH (step e w) E1) as (F1 & F2); [rewrite Q; exact Ab|exact Hes|].
  rewrite F1, F2, Q. auto.
Qed.

(** ** The public [setTimeout] *)

Lemma setTimeout_unfold (f : fn) (d : option num) (args : list value)
    (w : World) :
  setTimeout (VFunction f) d args w =
  if signal_aborted (options_signal args) w
  then Normal (set_handle precleared w)
  else Normal (addEventListener (options_signal args) ClearListener
                 (_setTimeout f d (snd (split_options args)) w)).
Proof.
  unfold setTimeout, options_signal.
  destruct (split_options args) as (o & newArgs). cbn [fst snd].
  reflexivity.
Qed.

Lemma split_options_snoc (init : list value) (v : value) :
  split_options (init ++ [v]) =
  if is_options v then (Some v, init) else (None, init ++ [v]).
Proof.
  unfold split_options. rewrite last_last, removelast_last. reflexivity.
Qed.


Lemma addEventListener_agree (s : option nat) (l : listener) (w : World) :
  handle (addEventListener s l w) = handle w /\
  vars (addEventListener s l w) = vars w /\
  natives (addEventListener s l w) = natives w /\
  log (addEventListener s l w) = log w /\
  clock (addEventListener s l w) = clock w /\
  promise (addEventListener s l w) = promise w.
Proof. destruct s; cbn; auto 10. Qed.

(** [armed] depends on the handle, the variables, the native timers and
    the clock only. *)
Lemma armed_agree (f : fn) (args : list value) (r : Z) (w w' : World) :
  handle w' = handle w -> vars w' = vars w -> natives w' = natives w ->
  clock w' = clock w -> armed f args r w -> armed f args r w'.
Proof.
  intros Hh Hv Hn Hc (n & H). exists n. rewrite Hh, Hv, Hn, Hc. exact H.
Qed.

Lemma in_call_args (a : list value) (w : World) :
  In a (call_args w) <-> exists k t, In (Called k a t) (log w).
Proof.
  unfold call_args. rewrite <- in_rev, in_flat_map. split.
  - intros (o & Ho & Ha). destruct o as [n|n t|k a' t]; cbn in Ha;
      try contradiction.
    destruct Ha as [<-|[]]. eauto.
  - intros (k & t & H). exists (Called k a t). split; [exact H|].
    left. reflexivity.
Qed.


(** When the signal has not aborted and every native timer fires on time,
    the timer is armed and runs out after [segments p] fires. *)
Lemma setTimeout_armed (f : fn) (d : option num) (args : list value)
    (t : Z) (sigs : nat -> Signal) (p : Z) :
  signal_aborted (options_signal args) (fresh t sigs) = false ->
  Num.gtb (or_zero d) (Fin MAX_SAFE_INTEGER) = false ->
  clamp (or_zero d) = Fin p ->
  exists w0,
    setTimeout (VFunction f) d args (fresh t sigs) = Normal w0 /\
    w0 = addEventListener (options_signal args) ClearListener
           (_setTimeout f d (snd (split_options args)) (fresh t sigs)) /\
    armed f (snd (split_options args)) p w0 /\
    log w0 = [Issued (segment TFinal TChain p (fresh t sigs))] /\
    callback (vars w0) = f /\
    arguments_ (vars w0) = snd (split_options args).
Proof.
  intros Ab G Cz. rewrite setTimeout_unfold, Ab.
  eexists. split; [reflexivity|]. split; [reflexivity|].
  set (w1 := _setTimeout f d (snd (split_options args)) (fresh t sigs)).
  destruct (addEventListener_agree (options_signal args) ClearListener w1)
    as (Hh & Hv & Hn & Hl & Hc & _).
  destruct (_setTimeout_armed f d (snd (split_options args)) (fresh t sigs)
              p eq_refl G Cz) as (Ar & L & _).
  fold w1 in Ar, L.
  pose proof (armed_agree _ _ _ w1 _ Hh Hv Hn Hc Ar) as Ar'.
  split; [exact Ar'|]. rewrite Hl, Hv. split; [exact L|].
  destruct Ar as (n & _ & _ & _ & _ & _ & _ & Cb & Ag & _). auto.
Qed.

(** ** The interval and the signals *)

Lemma setInterval_env (f : fn) (d : option num) (args : list value)
    (w w0 : World) :
  setInterval (VFunction f) d args w = Normal w0 ->
  callback (vars w0) = f /\ arguments_ (vars w0) = args /\
  signals w0 = signals w /\ promise w0 = promise w /\
  _cleared (handle w0) = false /\ made_by (handle w0) = Repeating.
Proof.
  unfold setInterval.
  destruct (Num.gtb (or_zero d) (Fin MAX_SAFE_INTEGER));
    intros E; injection E as <-; [cbn; auto 10|].
  rewrite IntervalTimer_schedule_eq.
  match goal with
  | |- context [schedule_with ?a ?b ?r ?x] =>
      destruct (schedule_with_env a b r x) as (E1 & E2 & E3 & E4 & E5);
      destruct (schedule_with_made_by a b r x) as (E6 & _);
      set (w2 := schedule_with a b r x) in *
  end.
  rewrite E1, E2, E3, E4, E5, E6. cbn. auto 10.
Qed.

Lemma setInterval_called (k : nat) (d : option num) (args : list value)
    (t : Z) (sigs : nat -> Signal) (w0 : World) (es : list event)
    (a : list value) :
  setInterval (VFunction (UserFn k)) d args (fresh t sigs) = Normal w0 ->
  In a (call_args (exec es w0)) -> a = args.
Proof.
  intros E Ha. apply in_call_args in Ha. destruct Ha as (k' & t' & Ha).
  destruct (Num.gtb (or_zero d) (Fin MAX_SAFE_INTEGER)) eqn:G.
  - destruct (setInterval_over (UserFn k) d args (fresh t sigs) G)
      as (w0' & E' & N & L & _).
    assert (w0' = w0) by congruence. subst w0'.
    destruct (exec_idle es _ N) as (_ & L' & _).
    rewrite L', L in Ha. destruct Ha.
  - destruct (clamp_finite _ G) as (z & Hz & _).
    destruct (setInterval_interval (UserFn k) d args (fresh t sigs) z
                eq_refl eq_refl G Hz) as (w0' & E' & Inv & _).
    assert (w0' = w0) by congruence. subst w0'.
    apply (interval_exec _ _ _ _ es) in Inv.
    exact (iv_called _ _ _ _ _ Inv k' a t' Ha).
Qed.

Lemma unheard_step (k : nat) (e : event) (w : World) :
  is_clear e = false -> unheard k w -> unheard k (step e w).
Proof.
  intros He (Cb & Ls & Cl). destruct (step_env e w k Cb) as (E1 & _ & E3).
  unfold unheard. split; [exact E1|].
  destruct e as [late|dt|a|s| |]; try discriminate; cbn [step] in *.
  - rewrite E3 by reflexivity. split; [exact Ls|].
    unfold fire. destruct (natives w) as [|n rest]; [exact Cl|].
    match goal with
    | |- context [run ?c ?x] =>
        destruct (run_env c x k Cb) as (_ & _ & _ & _ & E5)
    end.
    rewrite E5. exact Cl.
  - auto.
  - destruct (abort_unheard s w (Ls s)) as [->| ->]; [auto|].
    cbn. split; [|exact Cl]. intros x. unfold upd.
    destruct (Nat.eqb x s); [reflexivity|apply Ls].
  - rewrite E3 by reflexivity. split; [exact Ls|].
    unfold ref. destruct (made_by (handle w)); [exact Cl| |];
      destruct (id (handle w)); exact Cl.
  - rewrite E3 by reflexivity. split; [exact Ls|].
    unfold unref. destruct (made_by (handle w)); [exact Cl| |];
      destruct (id (handle w)); exact Cl.
Qed.

(** ** A settled promise stays as it is *)

Lemma resolve_settled (w : World) :
  state (promise w) <> Pending ->
  state (promise (resolve w)) = state (promise w).
Proof. cbn. destruct (state (promise w)); congruence. Qed.

Lemma reject_settled (e : error) (w : World) :
  state (promise w) <> Pending ->
  state (promise (reject e w)) = state (promise w).
Proof. cbn. destruct (state (promise w)); congruence. Qed.

Lemma removeEventListener_promise (s : option nat) (l : listener)
    (w : World) :
  promise (removeEventListener s l w) = promise w.
Proof. destruct s; reflexivity. Qed.

Lemma invoke_settled (f : fn) (args : list value) (w : World) :
  state (promise w) <> Pending ->
  state (promise (invoke f args w)) = state (promise w).
Proof.
  revert w. induction f as [k|s|s f IH]; intros w H; cbn [invoke].
  - reflexivity.
  - rewrite removeEventListener_promise. apply resolve_settled, H.
  - rewrite IH; rewrite removeEventListener_promise; auto.
Qed.

Lemma run_settled (c : closure) (w : World) :
  state (promise w) <> Pending ->
  state (promise (run c w)) = state (promise w).
Proof.
  intros H. destruct c; cbn [run].
  - destruct (negb (_cleared (handle w))); [|reflexivity].
    apply invoke_settled, H.
  - rewrite OneShotTimer_schedule_eq.
    match goal with
    | |- context [schedule_with ?a ?b ?r ?x] =>
        destruct (schedule_with_env a b r x) as (_ & _ & _ & E & _)
    end.
    rewrite E. reflexivity.
  - destruct (_cleared (handle w)); [reflexivity|].
    rewrite IntervalTimer_schedule_eq.
    match goal with
    | |- context [schedule_with ?a ?b ?r ?x] =>
        destruct (schedule_with_env a b r x) as (_ & _ & _ & E & _);
        set (w2 := schedule_with a b r x) in *
    end.
    rewrite invoke_settled; rewrite E; auto.
  - rewrite IntervalTimer_schedule_eq.
    match goal with
    | |- context [schedule_with ?a ?b ?r ?x] =>
        destruct (schedule_with_env a b r x) as (_ & _ & _ & E & _)
    end.
    rewrite E. reflexivity.
Qed.

Lemma run_listener_settled (l : listener) (w : World) :
  state (promise w) <> Pending ->
  state (promise (run_listener l w)) = state (promise w).
Proof.
  intros H. destruct (clearTimeout_frame ArgHandle w) as (_ & P & _).
  destruct l; unfold run_listener.
  - rewrite P. reflexivity.
  - rewrite reject_settled; rewrite P; auto.
Qed.

Lemma step_settled (e : event) (w : World) :
  state (promise w) <> Pending ->
  state (promise (step e w)) = state (promise w).
Proof.
  intros H. destruct e as [late|dt|a|s| |]; cbn [step].
  - unfold fire. destruct (natives w) as [|n rest]; [reflexivity|].
    rewrite run_settled; auto.
  - reflexivity.
  - destruct (clearTimeout_frame a w) as (_ & P & _). rewrite P. reflexivity.
  - apply (abort_listeners_invariant
             (fun w' => state (promise w') = state (promise w))); auto.
    intros l w' Hw'. rewrite run_listener_settled; congruence.
  - unfold ref. destruct (made_by (handle w)); [reflexivity| |];
      destruct (id (handle w)); reflexivity.
  - unfold unref. destruct (made_by (handle w)); [reflexivity| |];
      destruct (id (handle w)); reflexivity.
Qed.

Lemma exec_settled (es : list event) (w : World) :
  state (promise w) <> Pending ->
  state (promise (exec es w)) = state (promise w).
Proof.
  intros H.
  apply (exec_invariant
           (fun w' => state (promise w') = state (promise w))); auto.
  intros e w' Hw'. rewrite step_settled; congruence.
Qed.

(** ** A signal that has aborted *)

Lemma get_has_property (k : string) (props : list property) (s : nat) :
  get k (VObject props) = VSignal s ->
  has_property k (VObject props) = true.
Proof.
  cbn. destruct (find _ props) as [p|] eqn:F; [|discriminate].
  intros _. apply existsb_exists. exists p.
  apply find_some in F. exact F.
Qed.

Lemma options_signal_snoc (init : list value) (props : list property)
    (s : nat) :
  get "signal" (VObject props) = VSignal s ->
  options_signal (init ++ [VObject props]) = Some s.
Proof.
  intros G. unfold options_signal. rewrite split_options_snoc.
  assert (O : is_options (VObject props) = true).
  { unfold is_options. rewrite (get_has_property _ _ _ G). reflexivity. }
  rewrite O. cbn [fst]. rewrite G. reflexivity.
Qed.

(** A handle made for an aborted signal: nothing ever happens to it. *)
Lemma precleared_inert (w0 : World) (es : list event) :
  natives w0 = [] -> log w0 = [] -> made_by (handle w0) = PreCleared ->
  let w := exec es w0 in
  natives w = [] /\ issued w = 0%nat /\ calls w = 0%nat /\
  cleared w = true /\ remaining w = Fin 0.
Proof.
  intros N L M. cbv zeta.
  destruct (exec_idle es w0 N) as (N' & L' & M' & _).
  unfold issued, calls, cleared, remaining. rewrite N', L', M', L, M. auto.
Qed.

(** ** A signal that has not aborted *)

Lemma _setTimeout_env (f : fn) (d : option num) (args : list value)
    (w : World) :
  let w' := _setTimeout f d args w in
  callback (vars w') = f /\ arguments_ (vars w') = args /\
  signals w' = signals w /\ promise w' = promise w /\
  _cleared (handle w') = false.
Proof.
  unfold _setTimeout.
  destruct (Num.gtb (or_zero d) (Fin MAX_SAFE_INTEGER)); [cbn; auto 10|].
  rewrite OneShotTimer_schedule_eq.
  match goal with
  | |- context [schedule_with ?a ?b ?r ?x] =>
      destruct (schedule_with_env a b r x) as (E1 & E2 & E3 & E4 & E5);
      set (w2 := schedule_with a b r x) in *
  end.
  cbv zeta. rewrite E1, E2, E3, E4, E5. cbn. auto 10.
Qed.

(** The world [setTimeout] returns when it is given a signal that has not
    aborted: the callback the timer holds is the one that was passed, and
    the abort listener is registered last on the signal. *)
Lemma setTimeout_with_signal (f : fn) (d : option num) (init : list value)
    (props : list property) (s : nat) (t : Z) (sigs : nat -> Signal) :
  get "signal" (VObject props) = VSignal s ->
  aborted (sigs s) = false ->
  exists w0,
    setTimeout (VFunction f) d (init ++ [VObject props]) (fresh t sigs)
    = Normal w0 /\
    callback (vars w0) = f /\
    aborted (signals w0 s) = false /\
    listeners (signals w0 s) = listeners (sigs s) ++ [ClearListener].
Proof.
  intros G Ab.
  rewrite setTimeout_unfold, (options_signal_snoc init props s G).
  cbn [signal_aborted fresh signals]. rewrite Ab.
  eexists. split; [reflexivity|].
  match goal with
  | |- context [_setTimeout ?a ?b ?c ?x] =>
      destruct (_setTimeout_env a b c x) as (E1 & _ & E3 & _);
      set (w1 := _setTimeout a b c x) in *
  end.
  cbn [addEventListener vars set_signals signals]. rewrite E3.
  cbn [fresh signals]. unfold upd. rewrite Nat.eqb_refl. cbn. auto.
Qed.

(** ** Delays that collapse to 0 *)

Lemma collapses_clamp (d : option num) :
  collapses d ->
  Num.gtb (or_zero d) (Fin MAX_SAFE_INTEGER) = false /\
  clamp (or_zero d) = Fin 0.
Proof.
  intros [->|(a & -> & Ha & Hb)]; [split; reflexivity|].
  cbn [or_zero]. unfold clamp.
  destruct a as [z| | |]; try contradiction; try (split; reflexivity).
  destruct Hb as [Hb|Hb]; [discriminate|].
  cbn in Hb |- *. rewrite Hb. apply Z.ltb_lt in Hb. split; [|reflexivity].
  apply Z.ltb_ge. unfold MAX_SAFE_INTEGER. lia.
Qed.

Lemma _setTimeout_collapse (f : fn) (d : option num) (args : list value)
    (w : World) :
  collapses d ->
  _setTimeout f d args w = _setTimeout f (Some (Fin 0)) args w.
Proof.
  intros H. destruct (collapses_clamp d H) as (G & Cz).
  unfold _setTimeout. rewrite G, Cz. reflexivity.
Qed.

Lemma setInterval_collapse (cb : value) (d : option num)
    (args : list value) (w : World) :
  collapses d ->
  setInterval cb d args w = setInterval cb (Some (Fin 0)) args w.
Proof.
  intros H. destruct (collapses_clamp d H) as (G & Cz).
  unfold setInterval. destruct cb; try reflexivity.
  rewrite G, Cz. reflexivity.
Qed.

(** ** The target time *)

Lemma remaining_spec (w : World) :
  remaining w =
  if cleared w then Fin 0 else
  match absoluteTargetTime w with
  | None => PosInf
  | Some T => Num.max (Fin 0) (Num.sub T (Fin (clock w)))
  end.
Proof.
  unfold remaining, cleared, absoluteTargetTime.
  destruct (made_by (handle w)); [reflexivity| |];
    destruct (_cleared (handle w)); try reflexivity.
  destruct (Num.isFinite (nextTargetTime (vars w))); reflexivity.
Qed.

Lemma target_after_oneshot (f : fn) (d : option num) (args : list value)
    (t : Z) (sigs : nat -> Signal) (es : list event) (w0 : World) :
  let w1 := _setTimeout f d args (fresh t sigs) in
  handle w0 = handle w1 -> vars w0 = vars w1 -> natives w0 = natives w1 ->
  log w0 = log w1 ->
  if Num.gtb (or_zero d) (Fin MAX_SAFE_INTEGER)
  then absoluteTargetTime (exec es w0) = None
  else exists z, absoluteTargetTime (exec es w0) = Some (Fin z).
Proof.
  intros w1 Hh Hv Hn Hl.
  destruct (Num.gtb (or_zero d) (Fin MAX_SAFE_INTEGER)) eqn:G.
  - destruct (_setTimeout_over f d args (fresh t sigs) G) as (N & _ & H1 & _).
    fold w1 in N, H1. rewrite <- Hn in N.
    destruct (exec_idle es _ N) as (_ & _ & M & Tg & _).
    unfold absoluteTargetTime. rewrite M, Tg, Hh, H1. reflexivity.
  - destruct (clamp_finite _ G) as (z & Hz & _).
    pose proof (_setTimeout_oneshot f d args (fresh t sigs) z
                  eq_refl eq_refl G Hz) as Inv.
    fold w1 in Inv.
    apply (oneshot_agree _ _ _ w1 w0 Hh Hv Hn Hl) in Inv.
    apply (oneshot_exec _ _ _ es) in Inv.
    unfold absoluteTargetTime.
    rewrite (os_made _ _ _ _ Inv), (os_target _ _ _ _ Inv). eauto.
Qed.

(** The target time of a timer after any script: absent when the delay
    is above [Number.MAX_SAFE_INTEGER], a finite number otherwise. *)
Lemma target_after (f : fn) (d : option num) (args : list value) (t : Z)
    (sigs : nat -> Signal) (es : list event) (w0 : World) :
  scheduled f d args t sigs w0 ->
  if Num.gtb (or_zero d) (Fin MAX_SAFE_INTEGER)
  then absoluteTargetTime (exec es w0) = None
  else exists z, absoluteTargetTime (exec es w0) = Some (Fin z).
Proof.
  intros [->|[(E & Ab)|E]].
  - apply (target_after_oneshot f d args t sigs); reflexivity.
  - rewrite setTimeout_unfold, Ab in E. injection E as <-.
    destruct (addEventListener_agree (options_signal args) ClearListener
                (_setTimeout f d (snd (split_options args)) (fresh t sigs)))
      as (Hh & Hv & Hn & Hl & _).
    apply (target_after_oneshot f d (snd (split_options args)) t sigs);
      assumption.
  - destruct (Num.gtb (or_zero d) (Fin MAX_SAFE_INTEGER)) eqn:G.
    + destruct (setInterval_over f d args (fresh t sigs) G)
        as (w0' & E' & N & _ & Hh & Nx & _).
      assert (w0' = w0) by congruence. subst w0'.
      destruct (exec_idle es _ N) as (_ & _ & M & _ & Nx').
      unfold absoluteTargetTime. rewrite M, Nx', Hh, Nx. reflexivity.
    + destruct (clamp_finite _ G) as (z & Hz & _).
      destruct (setInterval_interval f d args (fresh t sigs) z
                  eq_refl eq_refl G Hz) as (w0' & E' & Inv & _).
      assert (w0' = w0) by congruence. subst w0'.
      apply (interval_exec _ _ _ _ es) in Inv.
      unfold absoluteTargetTime.
      rewrite (iv_made _ _ _ _ _ Inv), (iv_next _ _ _ _ _ Inv). cbn. eauto.
Qed.

(** ** [delay]: what every script preserves *)

(** A timer with nothing pending and no listener anywhere: no step does
    anything to its promise. *)
Lemma step_quiet (e : event) (w : World) :
  natives w = [] -> (forall x, listeners (signals w x) = []) ->
  natives (step e w) = [] /\
  (forall x, listeners (signals (step e w) x) = []) /\
  promise (step e w) = promise w /\
  callback (vars (step e w)) = callback (vars w).
Proof.
  intros N Ls. destruct e as [late|dt|a|s| |]; cbn [step].
  - unfold fire. rewrite N. auto.
  - auto.
  - destruct (clearTimeout_frame a w) as ((_ & V & _) & P & S).
    rewrite (clearTimeout_idle a w N), V, P, S. auto.
  - destruct (abort_unheard s w (Ls s)) as [->| ->]; [auto|].
    cbn. repeat split; auto. intros x. unfold upd.
    destruct (Nat.eqb x s); [reflexivity|apply Ls].
  - unfold ref. destruct (made_by (handle w)); [auto| |];
      destruct (id (handle w)); cbn; rewrite ?N; auto.
  - unfold unref. destruct (made_by (handle w)); [auto| |];
      destruct (id (handle w)); cbn; rewrite ?N; auto.
Qed.

Lemma delaying_settled (sg : option nat) (e : event) (w : World) :
  state (promise w) <> Pending -> delaying sg w -> delaying sg (step e w).
Proof.
  intros NP [A B C D E].
  assert (Q : natives w = [] /\ forall x, listeners (signals w x) = []).
  { unfold delay_state in E. destruct (state (promise w));
      [congruence| |]; tauto. }
  destruct Q as (N & Ls).
  destruct (step_quiet e w N Ls) as (N' & Ls' & P & V).
  destruct (step_made_by e w) as (M & Br).
  constructor; rewrite ?M, ?Br, ?V; auto.
  unfold delay_state in *. rewrite P.
  destruct (state (promise w)); try congruence; tauto.
Qed.

Lemma delaying_fire (sg : option nat) (late : nat) (w : World) :
  state (promise w) = Pending -> delaying sg w -> delaying sg (fire late w).
Proof.
  intros Pe Hw. pose proof Hw as [A B C D E].
  unfold delay_state in E. rewrite Pe in E.
  destruct E as (R1 & R2 & Sg & [N|(n & N & Id & Cl & Bo)]);
    unfold fire; rewrite N; [exact Hw|].
  set (t := Z.max (clock w) (due n) + Z.of_nat late).
  set (w1 := emit (Fired n t) (set_clock t (set_natives [] w))).
  destruct Bo as [Bo|Bo]; rewrite Bo; cbn [run].
  - (* the last segment: the promise resolves *)
    replace (_cleared (handle w1)) with false by (symmetry; exact Cl).
    replace (callback (vars w1)) with (DelayResolver sg)
      by (symmetry; exact A).
    cbn [negb invoke].
    constructor.
    + destruct sg; exact A.
    + destruct sg; exact B.
    + destruct sg; exact C.
    + intros x Hx. destruct sg as [s|]; cbn; [|apply D, Hx].
      unfold upd. destruct (Nat.eqb x s) eqn:Ex; [|apply D, Hx].
      apply Nat.eqb_eq in Ex. congruence.
    + unfold delay_state.
      replace (state (promise (removeEventListener sg RejectListener
                                 (resolve w1)))) with Resolved
        by (destruct sg; cbn; rewrite Pe; reflexivity).
      destruct sg as [s|]; cbn; rewrite R1, R2; repeat split; auto.
      * intros x. unfold upd. destruct (Nat.eqb x s) eqn:Ex.
        -- cbn. rewrite (proj2 (Sg s eq_refl)). reflexivity.
        -- apply D. apply Nat.eqb_neq in Ex. congruence.
      * intros x. apply D. discriminate.
  - (* a capped segment: the next one is registered *)
    rewrite OneShotTimer_schedule_eq.
    match goal with
    | |- context [schedule_with TFinal TChain ?rr w1] =>
        destruct (schedule_with_shape TFinal TChain rr w1 Cl eq_refl)
          as (m & S1 & S2 & S3 & S4 & S5 & S6 & S7 & S8 & S9);
        set (w2 := schedule_with TFinal TChain rr w1) in *
    end.
    constructor; rewrite ?S5, ?S6, ?S7; auto.
    + intros x Hx. rewrite S8. apply D, Hx.
    + unfold delay_state. rewrite S9, S8.
      replace (promise w1) with (promise w) by reflexivity. rewrite Pe.
      repeat split; auto; try apply Sg; auto.
      right. exists m. auto.
Qed.

Lemma clearTimeout_owned (w : World) :
  brand (handle w) = true ->
  natives w = [] \/
  (exists n, natives w = [n] /\ id (handle w) = Some (nid n)) ->
  natives (clearTimeout ArgHandle w) = [].
Proof.
  intros B [N|(n & N & Id)].
  - apply clearTimeout_idle, N.
  - unfold clearTimeout. rewrite B. cbn. rewrite Id. cbn. rewrite N. cbn.
    rewrite Nat.eqb_refl. reflexivity.
Qed.

Lemma delaying_owned (sg : option nat) (w : World) :
  state (promise w) = Pending -> delaying sg w ->
  natives w = [] \/
  (exists n, natives w = [n] /\ id (handle w) = Some (nid n)).
Proof.
  intros Pe [A B C D E]. unfold delay_state in E. rewrite Pe in E.
  destruct E as (_ & _ & _ & [N|(n & N & Id & _)]); eauto.
Qed.

Lemma delaying_clearTimeout (sg : option nat) (a : arg) (w : World) :
  state (promise w) = Pending -> delaying sg w ->
  delaying sg (clearTimeout a w).
Proof.
  intros Pe Hw. pose proof (delaying_owned sg w Pe Hw) as Ow.
  pose proof Hw as [A B C D E].
  unfold delay_state in E. rewrite Pe in E.
  destruct E as (R1 & R2 & Sg & Nat).
  destruct a; try exact Hw.
  destruct (clearTimeout_frame ArgHandle w)
    as ((_ & V & _ & _ & M & Br & _) & P & S).
  constructor; rewrite ?V, ?M, ?Br, ?S; auto.
  unfold delay_state. rewrite P, Pe, S.
  rewrite (clearTimeout_owned w B Ow). auto.
Qed.

Lemma delaying_abort (sg : option nat) (x : nat) (w : World) :
  state (promise w) = Pending -> delaying sg w -> delaying sg (abort x w).
Proof.
  intros Pe Hw. pose proof (delaying_owned sg w Pe Hw) as Ow.
  pose proof Hw as [A B C D E].
  unfold delay_state in E. rewrite Pe in E.
  destruct E as (R1 & R2 & Sg & Nat).
  unfold abort. destruct (aborted (signals w x)) eqn:Ab; [exact Hw|].
  set (w1 := set_signals
               (upd x {| aborted := true; listeners := [] |} (signals w)) w).
  assert (Lx : forall y, sg <> Some y \/ y = x ->
                         listeners (signals w1 y) = []).
  { intros y Hy. cbn. unfold upd. destruct (Nat.eqb y x) eqn:Ey;
      [reflexivity|].
    apply Nat.eqb_neq in Ey. destruct Hy as [Hy|Hy]; [apply D, Hy|tauto]. }
  assert (Hx : sg = Some x \/ sg <> Some x).
  { destruct sg as [s|]; [|right; discriminate].
    destruct (Nat.eq_dec s x) as [->|Ne]; [left; reflexivity|].
    right. congruence. }
  destruct Hx as [Hx|Hx].
  - (* the signal of the call: its listener rejects the promise *)
    rewrite (proj2 (Sg x Hx)). cbn [fold_left run_listener].
    destruct (clearTimeout_frame ArgHandle w1)
      as ((_ & V & _ & _ & M & Br & _) & P & S).
    assert (N2 : natives (clearTimeout ArgHandle w1) = [])
      by (apply clearTimeout_owned; [exact B|exact Ow]).
    constructor; cbn [reject vars handle signals set_promise];
      rewrite ?V, ?M, ?Br, ?S; auto.
    unfold delay_state.
    cbn [reject promise set_promise state resolve_calls reject_calls
           natives signals].
    rewrite P, S, N2. replace (promise w1) with (promise w) by reflexivity.
    rewrite Pe, R1, R2. repeat split; auto.
    intros y. destruct (Nat.eq_dec y x) as [->|Ne]; [apply Lx; auto|].
    apply Lx. left. congruence.
  - rewrite (D x Hx). cbn [fold_left].
    constructor; auto.
    unfold delay_state. replace (promise w1) with (promise w) by reflexivity.
    rewrite Pe. repeat split; auto;
      destruct (Sg s H) as (S1 & S2); cbn; unfold upd;
      (destruct (Nat.eqb s x) eqn:Es;
       [apply Nat.eqb_eq in Es; congruence|auto]).
Qed.

Lemma delaying_mark (sg : option nat) (u : bool) (w : World) :
  delaying sg w ->
  delaying sg (set_natives
                 (match id (handle w) with
                  | Some k => map (mark u k) (natives w)
                  | None => natives w
                  end) (set_shouldUnref u w)).
Proof.
  intros [A B C D E]. constructor; auto.
  unfold delay_state in *. cbn [promise set_natives set_shouldUnref set_vars
                                  signals natives handle].
  destruct (state (promise w)).
  - destruct E as (R1 & R2 & Sg & [N|(n & N & Id & Cl & Bo)]).
    + split; [exact R1|split; [exact R2|split; [exact Sg|]]].
      left. rewrite N. destruct (id (handle w)); reflexivity.
    + split; [exact R1|split; [exact R2|split; [exact Sg|]]].
      right. exists (mark u (nid n) n).
      rewrite Id, N. cbn [map]. rewrite mark_nid, mark_body. auto.
  - destruct E as (R1 & R2 & N & Ls). rewrite N.
    destruct (id (handle w)); auto.
  - destruct E as (R0 & R1 & R2 & N & Ls). rewrite N.
    destruct (id (handle w)); auto.
Qed.

Theorem delaying_step (sg : option nat) (e : event) (w : World) :
  delaying sg w -> delaying sg (step e w).
Proof.
  intros Hw.
  destruct (state (promise w)) eqn:Pe;
    [|apply delaying_settled; [congruence|exact Hw]
     |apply delaying_settled; [congruence|exact Hw]].
  destruct e as [late|dt|a|s| |]; cbn [step].
  - apply delaying_fire; auto.
  - destruct Hw as [A B C D E]. constructor; auto.
  - apply delaying_clearTimeout; auto.
  - apply delaying_abort; auto.
  - unfold ref. rewrite (dl_made sg w Hw).
    generalize (delaying_mark sg false w Hw). unfold native_ref.
    destruct (id (handle w)); cbn; auto.
  - unfold unref. rewrite (dl_made sg w Hw).
    generalize (delaying_mark sg true w Hw). unfold native_unref.
    destruct (id (handle w)); cbn; auto.
Qed.

Lemma delaying_exec (sg : option nat) (es : list event) (w : World) :
  delaying sg w -> delaying sg (exec es w).
Proof. apply exec_invariant. intros e w'. apply delaying_step. Qed.

(** The world [delay] builds when its signal has not aborted. *)
Lemma delay_unfold (ms : num) (sg : option nat) (w : World) :
  signal_aborted sg w = false ->
  delay ms sg w =
  addEventListener sg RejectListener
    (_setTimeout (DelayResolver sg) (Some ms) [] w).
Proof.
  intros Ab. unfold delay. rewrite Ab, setTimeout_unfold. reflexivity.
Qed.

Lemma delay_delaying (ms : num) (sg : option nat) (t : Z)
    (sigs : nat -> Signal) :
  (forall x, listeners (sigs x) = []) ->
  signal_aborted sg (fresh t sigs) = false ->
  delaying sg (delay ms sg (fresh t sigs)) /\
  state (promise (delay ms sg (fresh t sigs))) = Pending.
Proof.
  intros Ls Ab. rewrite (delay_unfold ms sg _ Ab).
  set (w1 := _setTimeout (DelayResolver sg) (Some ms) [] (fresh t sigs)).
  destruct (_setTimeout_env (DelayResolver sg) (Some ms) [] (fresh t sigs))
    as (E1 & _ & E3 & E4 & E5).
  destruct (_setTimeout_brand (DelayResolver sg) (Some ms) [] (fresh t sigs))
    as (M & Br).
  fold w1 in E1, E3, E4, E5, M, Br.
  destruct (addEventListener_agree sg RejectListener w1)
    as (Hh & Hv & Hn & Hl & Hc & Hp).
  assert (Pe : state (promise (addEventListener sg RejectListener w1))
               = Pending) by (rewrite Hp, E4; reflexivity).
  split; [|exact Pe].
  constructor; rewrite ?Hh, ?Hv; auto.
  - intros x Hx. destruct sg as [s|]; cbn; rewrite E3; cbn; [|apply Ls].
    unfold upd. destruct (Nat.eqb x s) eqn:Ex; [|apply Ls].
    apply Nat.eqb_eq in Ex. congruence.
  - unfold delay_state. rewrite Pe, Hp, E4, Hn, Hh.
    cbn [fresh promise resolve_calls reject_calls].
    repeat split; auto.
    + subst sg. cbn. rewrite E3. cbn. unfold upd. rewrite Nat.eqb_refl.
      cbn in Ab |- *. exact Ab.
    + subst sg. cbn. rewrite E3. cbn. unfold upd. rewrite Nat.eqb_refl.
      cbn. rewrite Ls. reflexivity.
    + destruct (Num.gtb (or_zero (Some ms)) (Fin MAX_SAFE_INTEGER)) eqn:G.
      * left.
        exact (proj1 (_setTimeout_over (DelayResolver sg) (Some ms) []
                        (fresh t sigs) G)).
      * right. destruct (clamp_finite _ G) as (z & Hz & _).
        pose proof (_setTimeout_oneshot (DelayResolver sg) (Some ms) []
                      (fresh t sigs) z eq_refl eq_refl G Hz) as Inv.
        fold w1 in Inv.
        destruct (os_natives _ _ _ _ Inv) as [N|(n & N & Cl & Id & _ & Bo)].
        -- destruct (_setTimeout_armed (DelayResolver sg) (Some ms) []
                       (fresh t sigs) z eq_refl G Hz)
             as ((n & N' & _) & _).
           fold w1 in N'. congruence.
        -- exists n. auto.
Qed.





(** * The claims *)

(** ** C1: the chain of segments of a long delay *)




(** ** C2: the cadence of an interval *)



(** ** C3: the cleared flag and the number of calls *)



(** ** C4: the abort listener after a completed timer *)

(** What the code does where C4 says the listener is removed.  A timer
    made by [setTimeout] with a signal that has not aborted holds the
    callback it was passed, not the wrapper of line 76; and as long as the
    signal does not abort, the abort listener stays registered on the
    signal, whatever else happens.  In particular it is still registered
    once the delay has run out and the callback has been called. *)
Theorem C4_abort_listener_is_left_registered (k : nat) (d : option num)
    (init : list value) (props : list property) (s : nat) (t : Z)
    (sigs : nat -> Signal) (es : list event) :
  get "signal" (VObject props) = VSignal s ->
  aborted (sigs s) = false ->
  existsb (fun e => match e with Abort x => Nat.eqb x s | _ => false end) es
  = false ->
  exists w0,
    setTimeout (VFunction (UserFn k)) d (init ++ [VObject props])
      (fresh t sigs) = Normal w0 /\
    callback (vars w0) = UserFn k /\
    listeners (signals (exec es w0) s) = listeners (sigs s) ++ [ClearListener]
    /\
    forall p,
      Num.gtb (or_zero d) (Fin MAX_SAFE_INTEGER) = false ->
      clamp (or_zero d) = Fin p ->
      let w := exec (repeat (Fire 0) (segments p)) w0 in
      calls w = 1%nat /\ natives w = [] /\
      listeners (signals w s) = listeners (sigs s) ++ [ClearListener].
Proof.
  intros G Ab Hes.
  destruct (setTimeout_with_signal (UserFn k) d init props s t sigs G Ab)
    as (w0 & E & Cb & Ab0 & Ls).
  exists w0. split; [exact E|]. split; [exact Cb|]. split.
  - destruct (exec_listeners_kept k s es w0 Cb Ab0 Hes) as (_ & ->).
    exact Ls.
  - intros p Gd Cz. cbv zeta.
    assert (So : signal_aborted
                   (options_signal (init ++ [VObject props])) (fresh t sigs)
                 = false).
    { rewrite (options_signal_snoc init props s G). exact Ab. }
    destruct (setTimeout_armed (UserFn k) d _ t sigs p So Gd Cz)
      as (w0' & E' & _ & Ar & L & _).
    assert (w0' = w0) by congruence. subst w0'.
    destruct (on_time_done _ _ p w0 Ar) as (N & _ & _ & _ & _ & B6 & _).
    cbn [target_fn] in B6. rewrite B6, N. unfold calls at 1. rewrite L.
    repeat split.
    destruct (exec_listeners_kept k s (repeat (Fire 0) (segments p)) w0
                Cb Ab0) as (_ & ->); [|exact Ls].
    clear. induction (segments p); auto.
Qed.

(** C4 at its failing input: [setTimeout(fn, 10, { signal })] with a
    signal that never aborts.  The timer fires, [fn] is called, and the
    signal still holds the abort listener. *)
Lemma C4_abort_listener_is_left_registered_witness :
  exists w0,
    setTimeout (VFunction (UserFn 7)) (Some (Fin 10))
      ([] ++ [VObject [Property "signal" true true (VSignal 0)]])
      (fresh 1000 quiet) = Normal w0 /\
    calls (exec (repeat (Fire 0) (segments 10)) w0) = 1%nat /\
    listeners (signals (exec (repeat (Fire 0) (segments 10)) w0) 0%nat)
    = [ClearListener].
Proof.
  destruct (C4_abort_listener_is_left_registered 7 (Some (Fin 10)) []
              [Property "signal" true true (VSignal 0)] 0 1000 quiet []
              eq_refl eq_refl eq_refl) as (w0 & E & _ & _ & H).
  exists w0. split; [exact E|].
  destruct (H 10 eq_refl eq_refl) as (H1 & _ & H3). split; [exact H1|].
  exact H3.
Defined.

(** ** C5: omitted, negative and non-finite delays *)

(** C5, as amended.  A delay that is omitted, [NaN], [-Infinity] or
    negative makes [_setTimeout], [setTimeout] and [setInterval] do exactly
    what they do for the delay 0.  The delay [+Infinity] does not: the
    timer gets no target time and no native timer, never calls its
    callback, and its [remaining()] is [Infinity]. *)
Theorem C5_delay_defaults_and_clamps (f : fn) (cb : value)
    (d : option num) (args : list value) (w : World) :
  collapses d ->
  _setTimeout f d args w = _setTimeout f (Some (Fin 0)) args w /\
  setTimeout cb d args w = setTimeout cb (Some (Fin 0)) args w /\
  setInterval cb d args w = setInterval cb (Some (Fin 0)) args w /\
  (forall t sigs es,
     let w1 := exec es (_setTimeout f (Some PosInf) args (fresh t sigs)) in
     natives w1 = [] /\ calls w1 = 0%nat /\ issued w1 = 0%nat /\
     (_cleared (handle w1) = false -> remaining w1 = PosInf)) /\
  (forall t sigs es w0,
     setInterval (VFunction f) (Some PosInf) args (fresh t sigs) = Normal w0 ->
     let w1 := exec es w0 in
     natives w1 = [] /\ calls w1 = 0%nat /\ issued w1 = 0%nat /\
     (_cleared (handle w1) = false -> remaining w1 = PosInf)).
Proof.
  intros H. split; [apply _setTimeout_collapse, H|].
  split; [|split; [apply setInterval_collapse, H|split]].
  - destruct cb; try reflexivity. rewrite !setTimeout_unfold.
    rewrite (_setTimeout_collapse _ d _ _ H). reflexivity.
  - intros t sigs es w1.
    destruct (exec_idle es (_setTimeout f (Some PosInf) args (fresh t sigs))
                eq_refl) as (N & L & M & Tg & _).
    fold w1 in N, L, M, Tg. unfold calls, issued, remaining.
    rewrite N, L, M, Tg. cbn. repeat split; auto.
    intros ->. reflexivity.
  - intros t sigs es w0 E w1. injection E as <-.
    match goal with
    | w1 := exec es ?x |- _ =>
        destruct (exec_idle es x eq_refl) as (N & L & M & _ & Nx)
    end.
    fold w1 in N, L, M, Nx. unfold calls, issued, remaining.
    rewrite N, L, M, Nx. cbn. repeat split; auto.
    intros ->. reflexivity.
Qed.

(** C5 on [setTimeout(fn, -5)] and [setInterval(fn, NaN)]. *)
Lemma C5_delay_defaults_and_clamps_witness :
  collapses (Some (Fin (-5))) /\
  _setTimeout (UserFn 7) (Some (Fin (-5))) [] (fresh 1000 quiet) =
  _setTimeout (UserFn 7) (Some (Fin 0)) [] (fresh 1000 quiet).
Proof.
  assert (H : collapses (Some (Fin (-5)))).
  { right. exists (Fin (-5)). split; [reflexivity|].
    split; [discriminate|]. right. reflexivity. }
  split; [exact H|].
  exact (proj1 (C5_delay_defaults_and_clamps (UserFn 7)
                  (VFunction (UserFn 7)) (Some (Fin (-5))) []
                  (fresh 1000 quiet) H)).
Defined.

(** C5 as stated fails at [+Infinity], which is not finite: with delay 0
    the callback is called when the native timer fires, with delay
    [+Infinity] there is no native timer and it is never called, and the
    two handles differ in [remaining()]. *)
Lemma C5_counterexample :
  let w0 := _setTimeout (UserFn 7) (Some (Fin 0)) [] (fresh 1000 quiet) in
  let wi := _setTimeout (UserFn 7) (Some PosInf) [] (fresh 1000 quiet) in
  Num.isFinite PosInf = false /\
  calls (exec [Fire 0] w0) = 1%nat /\
  (forall es, calls (exec es wi) = 0%nat) /\
  remaining w0 = Fin 0 /\ remaining wi = PosInf /\
  wi <> w0.
Proof.
  cbv zeta. split; [reflexivity|]. split; [reflexivity|]. split.
  - intros es.
    destruct (exec_idle es
                (_setTimeout (UserFn 7) (Some PosInf) [] (fresh 1000 quiet))
                eq_refl) as (_ & L & _).
    unfold calls. rewrite L. reflexivity.
  - split; [reflexivity|]. split; [reflexivity|].
    intros E. apply (f_equal natives) in E. discriminate E.
Qed.

(** ** C6: remaining() *)

(** C6.  For the handle of [_setTimeout], of [setTimeout] with a signal
    that has not aborted, or of [setInterval], after any script: the
    absolute target time is absent exactly when the delay passed is above
    [Number.MAX_SAFE_INTEGER]; [remaining()] is 0 when the handle is
    cleared, else [Infinity] when the target time is absent, else
    [max(0, target - now())], a finite number since the target is; and it
    is never negative and never [NaN]. *)
Theorem C6_remaining (f : fn) (d : option num) (args : list value) (t : Z)
    (sigs : nat -> Signal) (es : list event) (w0 : World) :
  scheduled f d args t sigs w0 ->
  let w := exec es w0 in
  (absoluteTargetTime w = None <->
   Num.gtb (or_zero d) (Fin MAX_SAFE_INTEGER) = true) /\
  remaining w =
  (if cleared w then Fin 0 else
   match absoluteTargetTime w with
   | None => PosInf
   | Some T => Num.max (Fin 0) (Num.sub T (Fin (clock w)))
   end) /\
  (cleared w = true -> remaining w = Fin 0) /\
  (cleared w = false -> absoluteTargetTime w = None ->
   remaining w = PosInf) /\
  (forall T, cleared w = false -> absoluteTargetTime w = Some T ->
     exists z, T = Fin z /\ remaining w = Fin (Z.max 0 (z - clock w))) /\
  Num.nonneg (remaining w) = true.
Proof.
  intros H w. pose proof (target_after f d args t sigs es w0 H) as Tg.
  fold w in Tg. pose proof (remaining_spec w) as R.
  split; [|split; [exact R|]].
  - destruct (Num.gtb (or_zero d) (Fin MAX_SAFE_INTEGER)).
    + split; auto.
    + destruct Tg as (z & ->). split; discriminate.
  - split; [intros C; rewrite R, C; reflexivity|].
    split; [intros C A; rewrite R, C, A; reflexivity|].
    split.
    + intros T C A. rewrite R, C, A.
      destruct (Num.gtb (or_zero d) (Fin MAX_SAFE_INTEGER));
        [congruence|].
      destruct Tg as (z & Tz). exists z. rewrite A in Tz.
      injection Tz as ->. split; [reflexivity|apply max0_sub].
    + rewrite R. destruct (cleared w); [reflexivity|].
      destruct (Num.gtb (or_zero d) (Fin MAX_SAFE_INTEGER)).
      * rewrite Tg. reflexivity.
      * destruct Tg as (z & ->). rewrite max0_sub. cbn. apply Z.leb_le. lia.
Qed.

(** C6 on the test suite's [setTimeout(() => {}, Infinity)] and on a timer
    of 100 ms read 20 ms after it was made. *)
Lemma C6_remaining_witness :
  remaining (exec [Advance 20]
               (_setTimeout (UserFn 7) (Some PosInf) [] (fresh 1000 quiet)))
  = PosInf /\
  remaining (exec [Advance 20]
               (_setTimeout (UserFn 7) (Some (Fin 100)) [] (fresh 1000 quiet)))
  = Fin 80.
Proof.
  split.
  - refine (proj1 (proj2 (proj2 (proj2
              (C6_remaining (UserFn 7) (Some PosInf) [] 1000 quiet
                 [Advance 20] _ (or_introl eq_refl))))) _ _); reflexivity.
  - destruct (proj1 (proj2 (proj2 (proj2 (proj2
                (C6_remaining (UserFn 7) (Some (Fin 100)) [] 1000 quiet
                   [Advance 20] _ (or_introl eq_refl))))))
               (Fin 1100) eq_refl eq_refl) as (z & Hz & R).
    injection Hz as <-. exact R.
Defined.

(** ** C7: a signal that has already aborted *)

(** C7.  When the signal found in the options has already aborted,
    [setTimeout] returns a handle whose [cleared] is true and whose
    [remaining()] is 0, registers no native timer and no listener, and no
    later event makes it call the callback or register anything; [delay]
    rejects its promise at once with an [AbortError], registering no
    native timer and no listener, and the promise stays rejected. *)
Theorem C7_signal_already_aborted (f : fn) (d : option num)
    (init : list value) (props : list property) (s : nat) (t : Z)
    (sigs : nat -> Signal) (ms : num) (es : list event) :
  get "signal" (VObject props) = VSignal s ->
  aborted (sigs s) = true ->
  (exists w0,
     setTimeout (VFunction f) d (init ++ [VObject props]) (fresh t sigs)
     = Normal w0 /\
     cleared w0 = true /\ remaining w0 = Fin 0 /\
     natives w0 = [] /\ issued w0 = 0%nat /\ signals w0 = sigs /\
     let w := exec es w0 in
     natives w = [] /\ issued w = 0%nat /\ calls w = 0%nat /\
     cleared w = true /\ remaining w = Fin 0) /\
  (let w0 := delay ms (Some s) (fresh t sigs) in
   state (promise w0) = Rejected (AbortError None) /\
   reject_calls (promise w0) = 1%nat /\ resolve_calls (promise w0) = 0%nat /\
   natives w0 = [] /\ issued w0 = 0%nat /\ signals w0 = sigs /\
   let w := exec es w0 in
   natives w = [] /\ issued w = 0%nat /\
   state (promise w) = Rejected (AbortError None)).
Proof.
  intros G Ab. split.
  - rewrite setTimeout_unfold, (options_signal_snoc init props s G).
    cbn [signal_aborted fresh signals]. rewrite Ab.
    eexists. split; [reflexivity|].
    repeat (split; [reflexivity|]).
    apply precleared_inert; reflexivity.
  - unfold delay. cbn [signal_aborted fresh signals]. rewrite Ab.
    cbv zeta. repeat (split; [reflexivity|]).
    set (w0 := reject (AbortError None) (fresh t sigs)).
    destruct (exec_idle es w0 eq_refl) as (N & L & _).
    unfold issued. rewrite N, L. repeat split.
    rewrite exec_settled; [reflexivity|]. discriminate.
Qed.

(** C7 on the scenario of the test suite: [controller.abort()] comes
    before [setTimeout(fn, 50, { signal })] and before
    [delay(100, { signal })]. *)
Lemma C7_signal_already_aborted_witness :
  let sigs := upd 0%nat {| aborted := true; listeners := [] |} quiet in
  (exists w0,
     setTimeout (VFunction (UserFn 7)) (Some (Fin 50))
       ([] ++ [VObject [Property "signal" true true (VSignal 0)]])
       (fresh 1000 sigs) = Normal w0 /\
     cleared w0 = true /\
     calls (exec [Advance 100; Fire 0] w0) = 0%nat) /\
  state (promise (exec [Advance 100; Fire 0]
                    (delay (Fin 100) (Some 0%nat) (fresh 1000 sigs))))
  = Rejected (AbortError None).
Proof.
  intros sigs.
  destruct (C7_signal_already_aborted (UserFn 7) (Some (Fin 50)) []
              [Property "signal" true true (VSignal 0)] 0 1000 sigs
              (Fin 100) [Advance 100; Fire 0] eq_refl eq_refl)
    as ((w0 & E & C & _ & _ & _ & _ & _ & _ & K & _) & D).
  split.
  - exists w0. auto.
  - apply D.
Defined.

(** ** C8: delay settles once *)




(** ** C9: detecting the options *)



(** ** C10: setInterval has no options *)

(** C10.  [setInterval] takes no argument for options: the callback gets
    the trailing arguments as they were passed, on every tick; no abort
    listener is registered; and as long as nobody calls [clearInterval],
    aborting signals does not clear the interval.  So
    [setInterval(cb, 10, {signal})] ticks with [{signal}] as argument
    after the signal has aborted. *)
Theorem C10_interval_has_no_options (k : nat) (d : option num)
    (args : list value) (t : Z) (sigs : nat -> Signal) (es : list event)
    (w0 : World) :
  setInterval (VFunction (UserFn k)) d args (fresh t sigs) = Normal w0 ->
  arguments_ (vars w0) = args /\
  signals w0 = sigs /\
  (forall a, In a (call_args (exec es w0)) -> a = args) /\
  ((forall x, listeners (sigs x) = []) ->
   Forall (fun e => is_clear e = false) es ->
   cleared (exec es w0) = false) /\
  (exists w1,
     setInterval (VFunction (UserFn k)) (Some (Fin 10))
       [VObject [Property "signal" true true (VSignal 0)]] (fresh 1000 quiet)
     = Normal w1 /\
     cleared (exec [Abort 0; Fire 0; Fire 0] w1) = false /\
     call_args (exec [Abort 0; Fire 0; Fire 0] w1) =
     [[VObject [Property "signal" true true (VSignal 0)]];
      [VObject [Property "signal" true true (VSignal 0)]]]).
Proof.
  intros E.
  destruct (setInterval_env _ _ _ _ _ E) as (Cb & Ag & Sg & _ & Cl & Mb).
  split; [exact Ag|]. split; [exact Sg|]. split; [|split].
  - intros a. apply (setInterval_called k d args t sigs w0 es a E).
  - intros Ls Hes.
    assert (U : unheard k (exec es w0)).
    { apply (exec_invariant_on (fun e => is_clear e = false) (unheard k));
        auto.
      - intros e w He. apply unheard_step, He.
      - split; [exact Cb|]. split; [rewrite Sg; exact Ls|exact Cl]. }
    unfold cleared. rewrite (proj1 (exec_made_by es w0)), Mb.
    apply U.
  - eexists. split; [reflexivity|]. split; reflexivity.
Qed.

(** C10 on an interval given a signal as only argument: the signal aborts,
    the interval goes on. *)
Lemma C10_interval_has_no_options_witness :
  exists w0,
    setInterval (VFunction (UserFn 7)) (Some (Fin 10)) [VSignal 0]
      (fresh 1000 quiet) = Normal w0 /\
    cleared (exec [Fire 0; Abort 0; Fire 2; Advance 30; Fire 0] w0) = false.
Proof.
  eexists. split; [reflexivity|].
  refine (proj1 (proj2 (proj2 (proj2
            (C10_interval_has_no_options 7 (Some (Fin 10)) [VSignal 0] 1000
               quiet [Fire 0; Abort 0; Fire 2; Advance 30; Fire 0] _
               eq_refl)))) _ _).
  - intros x. reflexivity.
  - repeat constructor.
Defined.

(** * Further invariants of the code *)

(** ** One native timer at a time *)

Lemma owned_agree (w w' : World) :
  handle w' = handle w -> vars w' = vars w -> natives w' = natives w ->
  owned w -> owned w'.
Proof.
  intros H V N O. unfold owned. rewrite H, V, N. exact O.
Qed.

Lemma schedule_with_owned (final chain : closure) (r : num) (w : World) :
  natives w = [] ->
  (_cleared (handle w) = true -> id (handle w) = None) ->
  owned (schedule_with final chain r w).
Proof.
  intros N C. unfold schedule_with.
  destruct (_cleared (handle w)) eqn:E.
  - split; [left; exact N|]. intros _. apply C. reflexivity.
  - destruct (Num.leb r (Fin MAX_TIMEOUT)); cbn; rewrite N;
      destruct (shouldUnref (vars w)) eqn:U; cbn;
      (split; cbn; rewrite ?E; [right|intros X; discriminate X]);
      unfold mark; cbn; rewrite ?Nat.eqb_refl;
      eexists; (split; [reflexivity|]); cbn; rewrite ?U; auto.
Qed.

Lemma owned_clearTimeout (a : arg) (w : World) :
  owned w -> owned (clearTimeout a w).
Proof.
  intros O. destruct a; try exact O. unfold clearTimeout.
  destruct (brand (handle w)); cbn; [|exact O].
  destruct O as (O & _).
  destruct (id (handle w)) as [i|] eqn:I; cbn.
  - split; [left|reflexivity]. cbn.
    destruct O as [N|(n & N & Id & _)]; rewrite N; cbn; [reflexivity|].
    injection Id as ->. rewrite Nat.eqb_refl. reflexivity.
  - split; [left|intros _; exact I].
    destruct O as [N|(n & N & Id & _)]; [exact N|congruence].
Qed.

Lemma owned_run_listener (l : listener) (w : World) :
  owned w -> owned (run_listener l w).
Proof.
  intros O. destruct l; cbn [run_listener].
  - apply owned_clearTimeout, O.
  - apply (owned_agree (clearTimeout ArgHandle w)); try reflexivity.
    apply owned_clearTimeout, O.
Qed.

Lemma owned_mark (u : bool) (w : World) :
  owned w ->
  owned (set_natives
           (match id (handle w) with
            | Some k => map (mark u k) (natives w)
            | None => natives w
            end) (set_shouldUnref u w)).
Proof.
  intros (O & C). split; [|exact C]. cbn.
  destruct O as [N|(n & N & Id & Cl & U)].
  - left. rewrite N. destruct (id (handle w)); reflexivity.
  - right. rewrite Id, N. cbn. exists (mark u (nid n) n).
    rewrite mark_nid. unfold mark. rewrite Nat.eqb_refl. cbn. auto.
Qed.

Lemma owned_fire (late : nat) (w : World) :
  owned w -> owned (fire late w).
Proof.
  intros O. unfold fire. destruct (natives w) as [|n rest] eqn:N; [exact O|].
  destruct O as ([X|(n' & X & Id & Cl & U)] & C); rewrite N in X;
    [discriminate X|].
  injection X as <- ->.
  set (w1 := emit _ _).
  assert (N1 : natives w1 = []) by reflexivity.
  assert (C1 : _cleared (handle w1) = false) by exact Cl.
  assert (K1 : _cleared (handle w1) = true -> id (handle w1) = None)
    by (rewrite C1; discriminate).
  destruct (body n); cbn [run].
  - rewrite C1. cbn [negb].
    destruct (invoke_frame (callback (vars w1)) (arguments_ (vars w1)) w1)
      as (_ & H & V & Nv & _).
    split; [left; rewrite Nv; exact N1|rewrite H; exact K1].
  - rewrite OneShotTimer_schedule_eq. apply schedule_with_owned; assumption.
  - rewrite C1, IntervalTimer_schedule_eq.
    match goal with
    | |- owned (invoke ?f ?a ?x) =>
        destruct (invoke_frame f a x) as (_ & H & V & Nv & _);
        apply (owned_agree x); auto
    end.
    apply schedule_with_owned; assumption.
  - rewrite IntervalTimer_schedule_eq. apply schedule_with_owned; assumption.
Qed.

Lemma owned_step (e : event) (w : World) : owned w -> owned (step e w).
Proof.
  intros O. destruct e as [late|dt|a|s| |]; cbn [step].
  - apply owned_fire, O.
  - exact O.
  - apply owned_clearTimeout, O.
  - apply abort_listeners_invariant; auto using owned_run_listener.
  - unfold ref. destruct (made_by (handle w)); [exact O| |];
      generalize (owned_mark false w O); unfold native_ref; cbn;
      destruct (id (handle w)); auto.
  - unfold unref. destruct (made_by (handle w)); [exact O| |];
      generalize (owned_mark true w O); unfold native_unref; cbn;
      destruct (id (handle w)); auto.
Qed.

Lemma owned_fresh (t : Z) (sigs : nat -> Signal) : owned (fresh t sigs).
Proof.
  split; [left; reflexivity|discriminate].
Qed.

Lemma _setTimeout_owned (f : fn) (d : option num) (args : list value)
    (w : World) :
  natives w = [] -> owned (_setTimeout f d args w).
Proof.
  intros N. unfold _setTimeout.
  destruct (Num.gtb (or_zero d) (Fin MAX_SAFE_INTEGER)).
  - split; [left; exact N|discriminate].
  - rewrite OneShotTimer_schedule_eq. apply schedule_with_owned;
      [exact N|discriminate].
Qed.

Lemma setTimeout_owned (cb : value) (d : option num) (args : list value)
    (w w0 : World) :
  natives w = [] -> setTimeout cb d args w = Normal w0 -> owned w0.
Proof.
  intros N E. destruct cb; try discriminate E.
  rewrite setTimeout_unfold in E.
  destruct (signal_aborted (options_signal args) w); injection E as <-.
  - split; [left; exact N|reflexivity].
  - destruct (addEventListener_agree (options_signal args) ClearListener
                (_setTimeout f d (snd (split_options args)) w))
      as (H & V & Nv & _).
    apply (owned_agree _ _ H V Nv), _setTimeout_owned, N.
Qed.

Lemma setInterval_owned (cb : value) (d : option num) (args : list value)
    (w w0 : World) :
  natives w = [] -> setInterval cb d args w = Normal w0 -> owned w0.
Proof.
  intros N E. destruct cb; try discriminate E. unfold setInterval in E.
  destruct (Num.gtb (or_zero d) (Fin MAX_SAFE_INTEGER)); injection E as <-.
  - split; [left; exact N|discriminate].
  - rewrite IntervalTimer_schedule_eq. apply schedule_with_owned;
      [exact N|discriminate].
Qed.

Lemma delay_owned (ms : num) (sg : option nat) (w : World) :
  natives w = [] -> owned w -> owned (delay ms sg w).
Proof.
  intros N O. unfold delay. destruct (signal_aborted sg w).
  - exact O.
  - destruct (setTimeout (VFunction (DelayResolver sg)) (Some ms) [] w)
      as [w0|e] eqn:E; [|exact O].
    destruct (addEventListener_agree sg RejectListener w0) as (H & V & Nv & _).
    apply (owned_agree _ _ H V Nv), (setTimeout_owned _ _ _ _ _ N E).
Qed.

Lemma made_owned (t : Z) (sigs : nat -> Signal) (w0 : World)
    (es : list event) :
  made t sigs w0 -> owned (exec es w0).
Proof.
  intros M. apply exec_invariant; [exact owned_step|].
  destruct M as [[(f & d & args & ->)|[(cb & d & args & E)|(cb & d & args & E)]]
                |(ms & sg & ->)].
  - apply _setTimeout_owned. reflexivity.
  - apply (setTimeout_owned cb d args (fresh t sigs) w0 eq_refl E).
  - apply (setInterval_owned cb d args (fresh t sigs) w0 eq_refl E).
  - apply delay_owned; [reflexivity|apply owned_fresh].
Qed.

(** ** What [ref()] and [unref()] leave behind *)

Lemma schedule_with_vars (final chain : closure) (r : num) (w : World) :
  vars (schedule_with final chain r w) = vars w.
Proof.
  unfold schedule_with. destruct (_cleared (handle w)); [reflexivity|].
  destruct (Num.leb r (Fin MAX_TIMEOUT)); cbn;
    destruct (shouldUnref (vars w)); reflexivity.
Qed.

Lemma run_shouldUnref (c : closure) (w : World) :
  shouldUnref (vars (run c w)) = shouldUnref (vars w).
Proof.
  destruct c; cbn [run].
  - destruct (negb (_cleared (handle w))); [|reflexivity].
    destruct (invoke_frame (callback (vars w)) (arguments_ (vars w)) w)
      as (_ & _ & V & _). rewrite V. reflexivity.
  - rewrite OneShotTimer_schedule_eq, schedule_with_vars. reflexivity.
  - destruct (_cleared (handle w)); [reflexivity|].
    rewrite IntervalTimer_schedule_eq.
    match goal with
    | |- context [invoke ?f ?a ?x] =>
        destruct (invoke_frame f a x) as (_ & _ & V & _); rewrite V
    end.
    rewrite schedule_with_vars. reflexivity.
  - rewrite IntervalTimer_schedule_eq, schedule_with_vars. reflexivity.
Qed.

Lemma step_asked (e : event) (w : World) :
  made_by (handle w) <> PreCleared ->
  shouldUnref (vars (step e w)) = asked (shouldUnref (vars w)) e.
Proof.
  intros M. destruct e as [late|dt|a|s| |]; cbn [step asked].
  - unfold fire. destruct (natives w); [reflexivity|].
    rewrite run_shouldUnref. reflexivity.
  - reflexivity.
  - destruct (clearTimeout_frame a w) as ((_ & V & _) & _).
    rewrite V. reflexivity.
  - destruct (abort_frame s w) as (_ & V & _). rewrite V. reflexivity.
  - unfold ref. destruct (made_by (handle w)); [congruence| |];
      destruct (id (handle w)); reflexivity.
  - unfold unref. destruct (made_by (handle w)); [congruence| |];
      destruct (id (handle w)); reflexivity.
Qed.

Lemma exec_asked (es : list event) (w : World) :
  made_by (handle w) <> PreCleared ->
  shouldUnref (vars (exec es w)) = fold_left asked es (shouldUnref (vars w)).
Proof.
  revert w. induction es as [|e es IH]; intros w M; [reflexivity|].
  rewrite exec_cons. cbn [fold_left]. rewrite <- (step_asked e w M).
  apply IH. rewrite (proj1 (step_made_by e w)). exact M.
Qed.

Lemma _setTimeout_shouldUnref (f : fn) (d : option num) (args : list value)
    (w : World) :
  shouldUnref (vars (_setTimeout f d args w)) = false.
Proof.
  unfold _setTimeout. destruct (Num.gtb (or_zero d) (Fin MAX_SAFE_INTEGER));
    [reflexivity|].
  rewrite OneShotTimer_schedule_eq, schedule_with_vars. reflexivity.
Qed.

(** A world the library has made either holds no timer that could ever
    run, or a timer that does not ask to be unref'ed. *)
Lemma made_flavour (t : Z) (sigs : nat -> Signal) (w0 : World) :
  made t sigs w0 ->
  (made_by (handle w0) = PreCleared /\ natives w0 = [] /\ log w0 = []) \/
  (made_by (handle w0) <> PreCleared /\ shouldUnref (vars w0) = false).
Proof.
  assert (T : forall f d args w,
             made_by (handle (_setTimeout f d args w)) <> PreCleared /\
             shouldUnref (vars (_setTimeout f d args w)) = false).
  { intros f d args w. rewrite (proj1 (_setTimeout_brand f d args w)).
    split; [discriminate|apply _setTimeout_shouldUnref]. }
  assert (P : forall cb d args w w0,
             natives w = [] -> log w = [] ->
             setTimeout cb d args w = Normal w0 ->
             (made_by (handle w0) = PreCleared /\ natives w0 = [] /\
              log w0 = []) \/
             (made_by (handle w0) <> PreCleared /\
              shouldUnref (vars w0) = false)).
  { intros cb d args w w1 N L E. destruct cb; try discriminate E.
    rewrite setTimeout_unfold in E.
    destruct (signal_aborted (options_signal args) w); injection E as <-.
    - left. auto.
    - right.
      destruct (addEventListener_agree (options_signal args) ClearListener
                  (_setTimeout f d (snd (split_options args)) w))
        as (H & V & _).
      rewrite H, V. apply T. }
  intros [[(f & d & args & ->)|[(cb & d & args & E)|(cb & d & args & E)]]
         |(ms & sg & ->)].
  - right. apply T.
  - apply (P cb d args (fresh t sigs) w0 eq_refl eq_refl E).
  - right. destruct cb; try discriminate E.
    destruct (setInterval_env f d args (fresh t sigs) w0 E)
      as (_ & _ & _ & _ & _ & M).
    rewrite M. split; [discriminate|].
    unfold setInterval in E.
    destruct (Num.gtb (or_zero d) (Fin MAX_SAFE_INTEGER)); injection E as <-;
      [reflexivity|].
    rewrite IntervalTimer_schedule_eq, schedule_with_vars. reflexivity.
  - unfold delay. destruct (signal_aborted sg (fresh t sigs)); [left; auto|].
    destruct (setTimeout (VFunction (DelayResolver sg)) (Some ms) []
                (fresh t sigs)) as [w1|e] eqn:E; [|left; auto].
    destruct (addEventListener_agree sg RejectListener w1)
      as (H & V & N & L & _).
    rewrite H, V, N, L.
    apply (P _ (Some ms) [] (fresh t sigs) w1 eq_refl eq_refl E).
Qed.

Lemma made_natives (t : Z) (sigs : nat -> Signal) (w0 : World)
    (es : list event) :
  made t sigs w0 ->
  let w := exec es w0 in
  natives w = [] \/
  exists n, natives w = [n] /\ id (handle w) = Some (nid n) /\
            _cleared (handle w) = false /\ unrefd n = intent es.
Proof.
  intros M. cbv zeta.
  destruct (made_owned t sigs w0 es M) as ([N|(n & N & Id & C & U)] & _);
    [left; exact N|].
  destruct (made_flavour t sigs w0 M) as [(F & N0 & L0)|(F & S0)].
  - left. apply (precleared_inert w0 es N0 L0 F).
  - right. exists n. rewrite U, (exec_asked es w0 F), S0. auto.
Qed.

(** ** Clearing *)

Lemma clearTimeout_idem (a : arg) (w : World) :
  clearTimeout a (clearTimeout a w) = clearTimeout a w.
Proof.
  destruct a; try reflexivity. unfold clearTimeout.
  destruct (brand (handle w)) eqn:B; cbn; rewrite ?B; [|reflexivity].
  destruct (id (handle w)) eqn:I; cbn; rewrite ?B, ?I; reflexivity.
Qed.

Lemma handed_brand (t : Z) (sigs : nat -> Signal) (w0 : World) :
  handed t sigs w0 -> brand (handle w0) = true.
Proof.
  intros [(f & d & args & ->)|[(cb & d & args & E)|(cb & d & args & E)]].
  - apply _setTimeout_brand.
  - destruct cb; try discriminate E. rewrite setTimeout_unfold in E.
    destruct (signal_aborted (options_signal args) (fresh t sigs));
      injection E as <-; [reflexivity|].
    destruct (addEventListener_agree (options_signal args) ClearListener
                (_setTimeout f d (snd (split_options args)) (fresh t sigs)))
      as (H & _).
    rewrite H. apply _setTimeout_brand.
  - destruct cb; try discriminate E. unfold setInterval in E.
    destruct (Num.gtb (or_zero d) (Fin MAX_SAFE_INTEGER)); injection E as <-;
      [reflexivity|].
    rewrite IntervalTimer_schedule_eq.
    rewrite (proj2 (schedule_with_made_by _ _ _ _)). reflexivity.
Qed.

(** ** The spans handed to the native timer *)

Lemma max0_not_negative (x : num) :
  Num.ltb (Num.max (Fin 0) x) (Fin 0) = false.
Proof.
  destruct x as [z| | |]; cbn; try reflexivity.
  destruct (0 <? z) eqn:E; cbn; [|reflexivity].
  apply Z.ltb_lt in E. apply Z.ltb_ge. lia.
Qed.

Lemma clamp_not_negative (d : num) : Num.ltb (clamp d) (Fin 0) = false.
Proof.
  unfold clamp. destruct d as [z| | |]; cbn; try reflexivity.
  destruct (z <? 0) eqn:E; cbn; [reflexivity|exact E].
Qed.

Lemma bounded_mark (u : bool) (i : nat) (n : Native) :
  bounded n -> bounded (mark u i n).
Proof.
  unfold bounded. rewrite mark_span. auto.
Qed.

Lemma schedule_with_bounded (final chain : closure) (r : num) (w : World) :
  Num.ltb r (Fin 0) = false ->
  all_bounded w -> all_bounded (schedule_with final chain r w).
Proof.
  intros R (L & N). unfold schedule_with.
  destruct (_cleared (handle w)); [split; assumption|].
  assert (B : forall c s,
             s = r /\ Num.leb r (Fin MAX_TIMEOUT) = true \/
             s = Fin MAX_TIMEOUT ->
             bounded {| nid := next_nid w; body := c; span := s;
                        issued_at := clock w; unrefd := false |}).
  { intros c s [(-> & E)| ->]; unfold bounded; cbn.
    - destruct r as [z| | |]; try discriminate E; try discriminate R.
      cbn in R, E. apply Z.ltb_ge in R. apply Z.leb_le in E. eauto.
    - exists MAX_TIMEOUT. split; [reflexivity|]. pose proof MAX_TIMEOUT_pos.
      lia. }
  destruct (Num.leb r (Fin MAX_TIMEOUT)) eqn:E; cbn;
    destruct (shouldUnref (vars w));
    (split; cbn;
     [intros n [X|X]; [injection X as <-; apply B; auto|apply L, X]
     |intros n X;
      try (apply in_map_iff in X as (m & <- & X); apply bounded_mark);
      apply in_app_or in X as [X|[<-|[]]]; [apply N, X|apply B; auto]]).
Qed.

Lemma all_bounded_sub (w w' : World) :
  (forall n, In (Issued n) (log w') -> In (Issued n) (log w)) ->
  (forall n, In n (natives w') -> In n (natives w)) ->
  all_bounded w -> all_bounded w'.
Proof.
  intros L N (BL & BN). split; auto.
Qed.

Lemma invoke_bounded (f : fn) (args : list value) (w : World) :
  all_bounded w -> all_bounded (invoke f args w).
Proof.
  apply all_bounded_sub.
  - intros n. rewrite invoke_log. destruct (target_fn f); [|auto].
    intros [X|X]; [discriminate X|exact X].
  - intros n. rewrite (proj1 (proj2 (proj2 (proj2 (invoke_frame f args w))))).
    auto.
Qed.

Lemma clearTimeout_natives (a : arg) (w : World) (n : Native) :
  In n (natives (clearTimeout a w)) -> In n (natives w).
Proof.
  destruct a; try (intros H; exact H). unfold clearTimeout.
  destruct (brand (handle w)); cbn; [|auto].
  destruct (id (handle w)); cbn; [|auto].
  intros H. apply filter_In in H. apply H.
Qed.

Lemma clearTimeout_bounded (a : arg) (w : World) :
  all_bounded w -> all_bounded (clearTimeout a w).
Proof.
  apply all_bounded_sub.
  - rewrite clearTimeout_log. auto.
  - apply clearTimeout_natives.
Qed.

Lemma run_listener_bounded (l : listener) (w : World) :
  all_bounded w -> all_bounded (run_listener l w).
Proof.
  intros B. destruct l; cbn [run_listener].
  - apply clearTimeout_bounded, B.
  - apply (all_bounded_sub (clearTimeout ArgHandle w)); cbn; auto.
    apply clearTimeout_bounded, B.
Qed.

Lemma run_bounded (c : closure) (w : World) :
  all_bounded w -> all_bounded (run c w).
Proof.
  intros B. destruct c; cbn [run].
  - destruct (negb (_cleared (handle w))); [|exact B].
    apply invoke_bounded, B.
  - rewrite OneShotTimer_schedule_eq.
    apply schedule_with_bounded; [apply max0_not_negative|exact B].
  - destruct (_cleared (handle w)); [exact B|].
    rewrite IntervalTimer_schedule_eq. apply invoke_bounded.
    apply schedule_with_bounded; [apply max0_not_negative|exact B].
  - rewrite IntervalTimer_schedule_eq.
    apply schedule_with_bounded; [apply max0_not_negative|exact B].
Qed.

Lemma all_bounded_mark (u : bool) (k : nat) (w : World) :
  all_bounded w ->
  all_bounded (set_natives (map (mark u k) (natives w))
                 (set_shouldUnref u w)).
Proof.
  intros (L & N). split; [exact L|]. cbn. intros n X.
  apply in_map_iff in X as (m & <- & X). apply bounded_mark, N, X.
Qed.

Lemma step_bounded (e : event) (w : World) :
  all_bounded w -> all_bounded (step e w).
Proof.
  intros B. destruct e as [late|dt|a|s| |]; cbn [step].
  - unfold fire. destruct (natives w) as [|n rest] eqn:N; [exact B|].
    apply run_bounded. destruct B as (L & Nb). split; cbn.
    + intros m [X|X]; [discriminate X|apply L, X].
    + intros m X. apply Nb. rewrite N. right. exact X.
  - exact B.
  - apply clearTimeout_bounded, B.
  - apply abort_listeners_invariant; auto using run_listener_bounded.
  - unfold ref. destruct (made_by (handle w)); [exact B| |];
      unfold native_ref; cbn; destruct (id (handle w));
      try apply all_bounded_mark; exact B.
  - unfold unref. destruct (made_by (handle w)); [exact B| |];
      unfold native_unref; cbn; destruct (id (handle w));
      try apply all_bounded_mark; exact B.
Qed.

Lemma _setTimeout_bounded (f : fn) (d : option num) (args : list value)
    (w : World) :
  all_bounded w -> all_bounded (_setTimeout f d args w).
Proof.
  intros B. unfold _setTimeout.
  destruct (Num.gtb (or_zero d) (Fin MAX_SAFE_INTEGER)); [exact B|].
  rewrite OneShotTimer_schedule_eq.
  apply schedule_with_bounded; [apply clamp_not_negative|exact B].
Qed.

Lemma setTimeout_bounded (cb : value) (d : option num) (args : list value)
    (w w0 : World) :
  all_bounded w -> setTimeout cb d args w = Normal w0 -> all_bounded w0.
Proof.
  intros B E. destruct cb; try discriminate E. rewrite setTimeout_unfold in E.
  destruct (signal_aborted (options_signal args) w); injection E as <-.
  - exact B.
  - destruct (addEventListener_agree (options_signal args) ClearListener
                (_setTimeout f d (snd (split_options args)) w))
      as (_ & _ & N & L & _).
    apply (all_bounded_sub (_setTimeout f d (snd (split_options args)) w));
      [rewrite L; auto|rewrite N; auto|].
    apply _setTimeout_bounded, B.
Qed.

Lemma setInterval_bounded (cb : value) (d : option num) (args : list value)
    (w w0 : World) :
  all_bounded w -> setInterval cb d args w = Normal w0 -> all_bounded w0.
Proof.
  intros B E. destruct cb; try discriminate E. unfold setInterval in E.
  destruct (Num.gtb (or_zero d) (Fin MAX_SAFE_INTEGER)); injection E as <-.
  - exact B.
  - rewrite IntervalTimer_schedule_eq.
    apply schedule_with_bounded; [apply clamp_not_negative|exact B].
Qed.

Lemma made_bounded (t : Z) (sigs : nat -> Signal) (w0 : World)
    (es : list event) :
  made t sigs w0 -> all_bounded (exec es w0).
Proof.
  assert (F : all_bounded (fresh t sigs)) by (split; intros n []).
  intros M. apply exec_invariant; [exact step_bounded|].
  destruct M as [[(f & d & args & ->)|[(cb & d & args & E)|(cb & d & args & E)]]
                |(ms & sg & ->)].
  - apply _setTimeout_bounded, F.
  - apply (setTimeout_bounded cb d args (fresh t sigs) w0 F E).
  - apply (setInterval_bounded cb d args (fresh t sigs) w0 F E).
  - unfold delay. destruct (signal_aborted sg (fresh t sigs)); [exact F|].
    destruct (setTimeout (VFunction (DelayResolver sg)) (Some ms) []
                (fresh t sigs)) as [w1|e] eqn:E; [|exact F].
    destruct (addEventListener_agree sg RejectListener w1)
      as (_ & _ & N & L & _).
    apply (all_bounded_sub w1); [rewrite L; auto|rewrite N; auto|].
    apply (setTimeout_bounded _ _ _ _ _ F E).
Qed.

(** ** Nothing happens before the target time *)





Section Punctual.

Variable f : fn.
Variable args : list value.
Variable T : Z.




End Punctual.


(** A one-shot timer is the pre-cleared handle, which never does anything,
    or agrees with the timer [_setTimeout] has made. *)
Lemma timed_cases (d : option num) (t : Z) (sigs : nat -> Signal)
    (w0 : World) :
  timed d t sigs w0 ->
  (made_by (handle w0) = PreCleared /\ natives w0 = [] /\ log w0 = []) \/
  exists f args,
    let w1 := _setTimeout f d args (fresh t sigs) in
    handle w0 = handle w1 /\ vars w0 = vars w1 /\ natives w0 = natives w1 /\
    log w0 = log w1 /\ clock w0 = clock w1 /\ promise w0 = promise w1.
Proof.
  intros [(f & args & ->)|(f & args & E)].
  - right. exists f, args. cbv zeta. auto 10.
  - rewrite setTimeout_unfold in E.
    destruct (signal_aborted (options_signal args) (fresh t sigs));
      injection E as <-; [left; auto|].
    right. exists f, (snd (split_options args)). cbv zeta.
    destruct (addEventListener_agree (options_signal args) ClearListener
                (_setTimeout f d (snd (split_options args)) (fresh t sigs)))
      as (H & V & N & L & C & P).
    auto 10.
Qed.




(** ** The clock and [remaining()] *)

Lemma schedule_with_clock (final chain : closure) (r : num) (w : World) :
  clock (schedule_with final chain r w) = clock w.
Proof.
  unfold schedule_with. destruct (_cleared (handle w)); [reflexivity|].
  destruct (Num.leb r (Fin MAX_TIMEOUT)); cbn;
    destruct (shouldUnref (vars w)); reflexivity.
Qed.

Lemma run_clock (c : closure) (w : World) : clock (run c w) = clock w.
Proof.
  destruct c; cbn [run].
  - destruct (negb (_cleared (handle w))); [|reflexivity].
    apply invoke_frame.
  - rewrite OneShotTimer_schedule_eq. apply schedule_with_clock.
  - destruct (_cleared (handle w)); [reflexivity|].
    rewrite IntervalTimer_schedule_eq.
    match goal with
    | |- clock (invoke ?g ?a ?x) = _ =>
        rewrite (proj1 (invoke_frame g a x))
    end.
    rewrite schedule_with_clock. reflexivity.
  - rewrite IntervalTimer_schedule_eq. apply schedule_with_clock.
Qed.

Lemma step_clock (e : event) (w : World) : clock w <= clock (step e w).
Proof.
  destruct e as [late|dt|a|s| |]; cbn [step].
  - unfold fire. destruct (natives w); [lia|]. rewrite run_clock. cbn. lia.
  - cbn. lia.
  - destruct (clearTimeout_frame a w) as ((C & _) & _). rewrite C. lia.
  - destruct (abort_frame s w) as (C & _). rewrite C. lia.
  - unfold ref. destruct (made_by (handle w)); [lia| |];
      destruct (id (handle w)); cbn; lia.
  - unfold unref. destruct (made_by (handle w)); [lia| |];
      destruct (id (handle w)); cbn; lia.
Qed.


Lemma remaining_oneshot (f : fn) (args : list value) (T : Z) (w : World) :
  oneshot f args T w ->
  remaining w =
  if _cleared (handle w) then Fin 0 else Fin (Z.max 0 (T - clock w)).
Proof.
  intros O. unfold remaining.
  rewrite (os_made f args T w O), (os_target f args T w O), max0_sub.
  reflexivity.
Qed.

Lemma remaining_step (d : option num) (t : Z) (sigs : nat -> Signal)
    (w0 : World) (es : list event) (e : event) :
  timed d t sigs w0 ->
  Num.leb (remaining (step e (exec es w0))) (remaining (exec es w0)) = true.
Proof.
  intros Tm. set (w := exec es w0).
  destruct (timed_cases d t sigs w0 Tm)
    as [(M & N & L)|(f & args & H & V & N & L & _)].
  - (* the pre-cleared handle *)
    destruct (exec_idle es w0 N) as (N' & _ & M' & _). fold w in N', M'.
    destruct (step_idle e w N') as (_ & _ & M'' & _).
    unfold remaining. rewrite M'', M', M. reflexivity.
  - destruct (Num.gtb (or_zero d) (Fin MAX_SAFE_INTEGER)) eqn:G.
    + (* no target time: Infinity until the handle is cleared *)
      destruct (_setTimeout_over f d args (fresh t sigs) G)
        as (N1 & _ & H1 & _).
      rewrite <- N in N1. rewrite <- H in H1.
      destruct (exec_idle es w0 N1) as (N' & _ & M' & T' & _).
      fold w in N', M', T'.
      destruct (step_idle e w N') as (_ & _ & M'' & T'' & _).
      unfold remaining. rewrite M'', T'', M', T', H1. cbn.
      destruct (_cleared (handle w)) eqn:C.
      * rewrite (proj1 (step_cleared e w C)). reflexivity.
      * destruct (_cleared (handle (step e w))); reflexivity.
    + (* a target time: the clock only moves forward *)
      destruct (clamp_finite _ G) as (p & Cp & _).
      pose proof (_setTimeout_oneshot f d args (fresh t sigs) p
                    eq_refl eq_refl G Cp) as O.
      apply (oneshot_agree f args _ _ w0 H V N L) in O.
      apply (oneshot_exec f args _ es) in O. fold w in O.
      rewrite (remaining_oneshot _ _ _ _ (oneshot_step f args _ e w O)).
      rewrite (remaining_oneshot _ _ _ _ O).
      pose proof (step_clock e w) as Ck.
      destruct (_cleared (handle w)) eqn:C.
      * rewrite (proj1 (step_cleared e w C)). reflexivity.
      * destruct (_cleared (handle (step e w))); cbn; apply Z.leb_le; lia.
Qed.

(** ** A delay the native timer takes as it is *)

Lemma spans_log (w w' : World) : log w' = log w -> spans w' = spans w.
Proof.
  unfold spans. intros ->. reflexivity.
Qed.

Lemma spans_skip (o : obs) (w w' : World) :
  log w' = o :: log w -> is_issue o = false -> spans w' = spans w.
Proof.
  unfold spans. intros -> I. destruct o; [discriminate I| |]; reflexivity.
Qed.

Lemma single_sub (p : Z) (w w' : World) :
  spans w' = spans w ->
  (forall n, In n (natives w') -> exists m, In m (natives w) /\
                                            body m = body n) ->
  single p w -> single p w'.
Proof.
  intros S N (P1 & P2). split; [congruence|].
  intros n I. destruct (N n I) as (m & Im & <-). apply P2, Im.
Qed.

Lemma single_clearTimeout (p : Z) (a : arg) (w : World) :
  single p w -> single p (clearTimeout a w).
Proof.
  apply single_sub.
  - apply spans_log, clearTimeout_log.
  - intros n I. exists n. split; [|reflexivity].
    apply (clearTimeout_natives a), I.
Qed.

Lemma single_mark (p : Z) (u : bool) (k : nat) (w : World) :
  single p w ->
  single p (set_natives (map (mark u k) (natives w)) (set_shouldUnref u w)).
Proof.
  apply single_sub; [reflexivity|]. cbn. intros n I.
  apply in_map_iff in I as (m & <- & I). exists m.
  rewrite mark_body. auto.
Qed.

Lemma single_step (p : Z) (e : event) (w : World) :
  single p w -> single p (step e w).
Proof.
  intros S. destruct e as [late|dt|a|s| |]; cbn [step].
  - unfold fire. destruct (natives w) as [|n rest] eqn:N; [exact S|].
    destruct S as (S1 & S2).
    rewrite (S2 n) by (rewrite N; left; reflexivity). cbn [run].
    set (w1 := emit _ _).
    assert (S' : single p w1).
    { split; [exact S1|]. cbn. intros m I. apply S2. rewrite N. right.
      exact I. }
    destruct (negb (_cleared (handle w1))); [|exact S'].
    revert S'. apply single_sub.
    + pose proof (invoke_log (callback (vars w1)) (arguments_ (vars w1)) w1)
        as L.
      destruct (target_fn (callback (vars w1)));
        [apply (spans_skip _ _ _ L eq_refl)|apply (spans_log _ _ L)].
    + intros m I. exists m. split; [|reflexivity].
      rewrite (proj1 (proj2 (proj2 (proj2 (invoke_frame _ _ _))))) in I.
      exact I.
  - exact S.
  - apply single_clearTimeout, S.
  - apply abort_listeners_invariant; auto.
    intros [|] w' S'; cbn [run_listener];
      [|apply (single_sub p (clearTimeout ArgHandle w')); eauto];
      apply single_clearTimeout, S'.
  - unfold ref. destruct (made_by (handle w)); [exact S| |];
      unfold native_ref; cbn; destruct (id (handle w));
      try apply single_mark; exact S.
  - unfold unref. destruct (made_by (handle w)); [exact S| |];
      unfold native_unref; cbn; destruct (id (handle w));
      try apply single_mark; exact S.
Qed.

Lemma armed_single (f : fn) (args : list value) (p : Z) (w : World)
    (m : Native) :
  armed f args p w -> p <= MAX_TIMEOUT ->
  log w = [Issued m] -> span m = Fin (Z.min p MAX_TIMEOUT) ->
  single p w.
Proof.
  intros (n & N & _ & _ & B & _) P L S. split.
  - unfold spans. rewrite L. cbn. rewrite S, Z.min_l by exact P. reflexivity.
  - rewrite N. intros x [<-|[]]. rewrite B.
    apply Z.leb_le in P. rewrite P. reflexivity.
Qed.

(** The first fire of a timer armed for no more than [MAX_TIMEOUT]. *)
Lemma armed_fire_late (k : nat) (args : list value) (p : Z) (late : nat)
    (w : World) :
  armed (UserFn k) args p w -> p <= MAX_TIMEOUT ->
  natives (fire late w) = [] /\
  clock (fire late w) = clock w + p + Z.of_nat late /\
  exists n,
    log (fire late w) =
    Called k args (clock w + p + Z.of_nat late)
    :: Fired n (clock w + p + Z.of_nat late) :: log w.
Proof.
  intros (n & N & I & S & B & _ & C & Cb & Ar & P0) P.
  apply Z.leb_le in P. rewrite P in B. apply Z.leb_le in P.
  unfold fire. rewrite N, B. cbn [run].
  assert (D : Z.max (clock w) (due n) = clock w + p).
  { unfold due. rewrite I, S, Z.min_l by exact P. lia. }
  rewrite D. set (w1 := emit _ _).
  replace (_cleared (handle w1)) with false by (symmetry; exact C).
  replace (callback (vars w1)) with (UserFn k) by (symmetry; exact Cb).
  replace (arguments_ (vars w1)) with args by (symmetry; exact Ar).
  cbn. eauto.
Qed.

(** ** Ticks that do not drift *)

Section Cadence.

Variable k : nat.
Variable args : list value.
Variable p : Z.
Variable T0 : Z.
Hypothesis period : 0 <= p <= MAX_TIMEOUT.

(** A tick that comes no more than a period late leaves the interval on
    schedule for the next one. *)
Lemma on_schedule_fire (i late : nat) (w : World) :
  interval (UserFn k) args p T0 w -> on_schedule p T0 i w ->
  Z.of_nat late <= p ->
  on_schedule p T0 (S i) (fire late w) /\
  call_times (fire late w) =
  call_times w ++ [T0 + Z.of_nat i * p + Z.of_nat late].
Proof.
  intros Iv (n & N & B & D & C & Co) L.
  destruct (interval_tick (UserFn k) args p T0 late w n Iv N B)
    as (_ & _ & K3 & K4 & K5).
  cbn [target_fn] in K5. rewrite Co in K4, K5.
  assert (Et : Z.max (clock w) (due n) + Z.of_nat late
               = T0 + Z.of_nat i * p + Z.of_nat late) by lia.
  rewrite Et in K3, K4, K5.
  set (t := T0 + Z.of_nat i * p + Z.of_nat late) in *.
  assert (Er : Z.max 0 (T0 + Z.of_nat i * p + p - t) = p - Z.of_nat late)
    by (unfold t; lia).
  rewrite Er in K4, K5. split.
  - eexists. split; [exact K4|]. rewrite mark_body, mark_due.
    unfold segment, due. cbn [body span issued_at clock set_nextTargetTime
                               set_vars emit set_clock].
    assert (E : (p - Z.of_nat late <=? MAX_TIMEOUT) = true)
      by (apply Z.leb_le; lia).
    rewrite E, Z.min_l by lia. rewrite K3.
    repeat split; try lia.
    unfold completed. rewrite K5. cbn. rewrite B. cbn. f_equal. exact Co.
  - unfold call_times. rewrite K5. reflexivity.
Qed.

Lemma on_schedule_run (lates : list nat) :
  forall (i : nat) (w : World),
    interval (UserFn k) args p T0 w -> on_schedule p T0 i w ->
    Forall (fun late => Z.of_nat late <= p) lates ->
    call_times (exec (map Fire lates) w) =
    call_times w ++
    map (fun x => T0 + Z.of_nat (fst x) * p + Z.of_nat (snd x))
      (combine (seq i (List.length lates)) lates).
Proof.
  induction lates as [|late lates IH]; intros i w Iv Sc F.
  - cbn. rewrite app_nil_r. reflexivity.
  - apply Forall_cons_iff in F as (F1 & F2).
    destruct (on_schedule_fire i late w Iv Sc F1) as (S' & Ct).
    cbn [map List.length seq combine]. rewrite exec_cons. cbn [step].
    rewrite (IH (S i) (fire late w)
               (interval_step (UserFn k) args p T0 (Fire late) w Iv) S' F2).
    rewrite Ct, <- app_assoc. reflexivity.
Qed.

End Cadence.

Lemma setInterval_on_schedule (f : fn) (d : option num) (args : list value)
    (t : Z) (sigs : nat -> Signal) (p : Z) (w0 : World) :
  Num.gtb (or_zero d) (Fin MAX_SAFE_INTEGER) = false ->
  clamp (or_zero d) = Fin p -> p <= MAX_TIMEOUT ->
  setInterval (VFunction f) d args (fresh t sigs) = Normal w0 ->
  interval f args p (t + p) w0 /\ on_schedule p (t + p) 0 w0 /\
  call_times w0 = [].
Proof.
  intros G Cp P E.
  destruct (setInterval_interval f d args (fresh t sigs) p eq_refl eq_refl
              G Cp) as (w1 & E1 & Iv & L & C & Ck & _).
  rewrite E in E1. injection E1 as <-.
  destruct (clamp_finite _ G) as (p' & Cp' & P0 & _).
  assert (p' = p) by congruence. subst p'.
  split; [exact Iv|]. split.
  - destruct (iv_natives _ _ _ _ _ Iv) as [(_ & X)|(n & N & _ & _ & B & D)];
      [congruence|].
    assert (Co : completed w0 = 0%nat)
      by (unfold completed; rewrite L; reflexivity).
    unfold setInterval in E. rewrite G, Cp in E. injection E as E.
    rewrite IntervalTimer_schedule_eq in E.
    match type of E with
    | schedule_with _ _ _ ?x = _ =>
        destruct (schedule_with_spec IFinal IChain p x eq_refl eq_refl)
          as (S1 & _)
    end.
    rewrite E, N in S1. injection S1 as S1.
    exists n. split; [exact N|]. rewrite S1, mark_body, mark_due, Co.
    unfold segment, due. cbn.
    apply Z.leb_le in P. rewrite P. apply Z.leb_le in P.
    rewrite Z.min_l by exact P. rewrite Ck. cbn. repeat split; lia.
  - unfold call_times. rewrite L. reflexivity.
Qed.

(** ** The abort listener of [setTimeout] *)

Lemma clearTimeout_sets (w : World) :
  brand (handle w) = true -> _cleared (handle (clearTimeout ArgHandle w)) = true.
Proof.
  intros B. unfold clearTimeout. rewrite B. cbn.
  destruct (id (handle w)); reflexivity.
Qed.

Lemma listeners_keep_cleared (ls : list listener) (w : World) :
  _cleared (handle w) = true ->
  _cleared (handle (fold_left (fun w l => run_listener l w) ls w)) = true.
Proof.
  revert w. induction ls as [|l ls IH]; intros w C; [exact C|].
  cbn [fold_left]. apply IH, run_listener_cleared, C.
Qed.

Lemma listeners_clear (ls : list listener) (w : World) :
  In ClearListener ls -> brand (handle w) = true ->
  _cleared (handle (fold_left (fun w l => run_listener l w) ls w)) = true.
Proof.
  revert w. induction ls as [|l ls IH]; intros w I B; [destruct I|].
  cbn [fold_left]. destruct I as [->|I].
  - apply listeners_keep_cleared. cbn [run_listener].
    apply clearTimeout_sets, B.
  - apply IH; [exact I|].
    destruct (run_listener_frame l w) as (_ & _ & _ & _ & _ & Br & _).
    rewrite Br. exact B.
Qed.

Lemma abort_clears (s : nat) (w : World) :
  aborted (signals w s) = false ->
  In ClearListener (listeners (signals w s)) ->
  brand (handle w) = true ->
  _cleared (handle (abort s w)) = true.
Proof.
  intros A I B. unfold abort. rewrite A. apply listeners_clear; [exact I|].
  exact B.
Qed.

(** ** Every firing re-arms an interval *)

Lemma schedule_with_issued (final chain : closure) (r : num) (w : World) :
  _cleared (handle w) = false ->
  issued (schedule_with final chain r w) = S (issued w) /\
  calls (schedule_with final chain r w) = calls w.
Proof.
  intros C. unfold schedule_with. rewrite C.
  destruct (Num.leb r (Fin MAX_TIMEOUT)); cbn;
    destruct (shouldUnref (vars w)); split; reflexivity.
Qed.

Lemma run_rearms (c : closure) (w : World) :
  _cleared (handle w) = false -> c <> TFinal ->
  issued (run c w) = S (issued w) /\
  _cleared (handle (run c w)) = false.
Proof.
  intros C N.
  assert (S : forall final chain r w1,
             _cleared (handle w1) = false ->
             issued (schedule_with final chain r w1) = S (issued w1) /\
             _cleared (handle (schedule_with final chain r w1)) = false).
  { intros final chain r w1 C1.
    split; [apply schedule_with_issued, C1|].
    rewrite (proj2 (proj2 (proj2 (proj2 (schedule_with_env _ _ _ _))))).
    exact C1. }
  destruct c; [congruence| | |]; cbn [run].
  - rewrite OneShotTimer_schedule_eq. apply S, C.
  - rewrite C, IntervalTimer_schedule_eq.
    match goal with
    | |- context [schedule_with IFinal IChain ?r ?x] =>
        destruct (S IFinal IChain r x C) as (S1 & S2);
        set (w2 := schedule_with IFinal IChain r x) in *
    end.
    destruct (invoke_frame (callback (vars w2)) (arguments_ (vars w2)) w2)
      as (_ & H & _).
    pose proof (invoke_log (callback (vars w2)) (arguments_ (vars w2)) w2)
      as L.
    rewrite H. split; [|exact S2].
    destruct (target_fn (callback (vars w2)));
      [destruct (counts_cons _ _ _ L) as (_ & _ & X)
      |destruct (counts_log _ _ L) as (_ & _ & X)];
      rewrite X; cbn [is_issue]; exact S1.
  - rewrite IntervalTimer_schedule_eq. apply S, C.
Qed.

Lemma in_spans (s : num) (w : World) :
  In s (spans w) <-> exists n, In (Issued n) (log w) /\ span n = s.
Proof.
  unfold spans. rewrite <- in_rev, in_flat_map. split.
  - intros (o & Ho & Hs). destruct o as [n|n t|k a t]; cbn in Hs;
      try contradiction.
    destruct Hs as [<-|[]]. eauto.
  - intros (n & H & <-). exists (Issued n). split; [exact H|].
    left. reflexivity.
Qed.

Lemma exec_quiet_idle (es : list event) (w : World) :
  natives w = [] -> (forall x, listeners (signals w x) = []) ->
  natives (exec es w) = [] /\ forall x, listeners (signals (exec es w) x) = [].
Proof.
  intros N L.
  apply (exec_invariant
           (fun w => natives w = [] /\
                     forall x, listeners (signals w x) = [])); [|auto].
  intros e w' (N' & L'). destruct (step_quiet e w' N' L') as (A & B & _).
  auto.
Qed.

(** ** An interval with a long period, every native timer on time *)



Section Cycles.

Variable k : nat.
Variable args : list value.
Variable p : Z.
Hypothesis period : 0 <= p.





End Cycles.


(** ** [remaining()] and the delay *)




(** * Further properties of the code *)

(** ** X1: one native timer at a time *)

(** X1.  Whatever [_setTimeout], [setTimeout], [setInterval] or [delay]
    has made, and whatever happens to it afterwards, at most one native
    timer is pending for it; the pending one is the one [id] of the handle
    names, and the handle is then not cleared.  A cleared handle has no
    native timer pending and its [id] is [undefined]. *)
Theorem one_native_timer_at_a_time (t : Z) (sigs : nat -> Signal)
    (w0 : World) (es : list event) :
  made t sigs w0 ->
  let w := exec es w0 in
  (List.length (natives w) <= 1)%nat /\
  (forall n, In n (natives w) ->
     id (handle w) = Some (nid n) /\ _cleared (handle w) = false) /\
  (_cleared (handle w) = true -> natives w = [] /\ id (handle w) = None).
Proof.
  intros M. cbv zeta.
  destruct (made_owned t sigs w0 es M) as ([N|(n & N & Id & C & _)] & K);
    rewrite N.
  - split; [cbn; lia|]. split; [intros n []|]. auto.
  - split; [cbn; lia|]. split.
    + intros m [<-|[]]. auto.
    + rewrite C. discriminate.
Qed.

(** X1 on a delay of two segments: the second segment is pending after
    the first has fired, and clearing leaves nothing behind. *)
Lemma one_native_timer_at_a_time_witness :
  let w0 := _setTimeout (UserFn 7) (Some (Fin 3000000000)) []
              (fresh 1000 quiet) in
  List.length (natives (exec [Fire 0] w0)) = 1%nat /\
  natives (exec [Fire 0; Unref; Clear ArgHandle] w0) = [] /\
  id (handle (exec [Fire 0; Unref; Clear ArgHandle] w0)) = None.
Proof.
  cbv zeta. split; [reflexivity|].
  refine (proj2 (proj2
            (one_native_timer_at_a_time 1000 quiet _
               [Fire 0; Unref; Clear ArgHandle] _)) _).
  - left. left. exists (UserFn 7), (Some (Fin 3000000000)), [].
    reflexivity.
  - reflexivity.
Defined.

(** ** X2: ref() and unref() *)

(** X2.  After any script, the native timer that is pending is unref'ed
    exactly when the last of [ref()] and [unref()] called on the handle
    was [unref()]: the request reaches the pending native timer at once and
    is applied again to every segment registered later. *)
Theorem unref_follows_the_last_request (t : Z) (sigs : nat -> Signal)
    (w0 : World) (es : list event) :
  made t sigs w0 ->
  Forall (fun n => unrefd n = intent es) (natives (exec es w0)).
Proof.
  intros M.
  destruct (made_natives t sigs w0 es M) as [N|(n & N & _ & _ & U)];
    rewrite N; auto.
Qed.

(** X2 on a delay of three segments: [unref()] is called while the first
    one is pending, and the third one is unref'ed when it is registered. *)
Lemma unref_follows_the_last_request_witness :
  let w := exec [Unref; Fire 0; Advance 5; Fire 2]
             (_setTimeout (UserFn 7) (Some (Fin 5000000000)) []
                (fresh 1000 quiet)) in
  List.length (natives w) = 1%nat /\
  Forall (fun n => unrefd n = true) (natives w).
Proof.
  cbv zeta. split; [reflexivity|].
  refine (unref_follows_the_last_request 1000 quiet _
            [Unref; Fire 0; Advance 5; Fire 2] _).
  left. left. exists (UserFn 7), (Some (Fin 5000000000)), []. reflexivity.
Defined.

(** ** X3: clearing a handle *)

(** X3.  [clearTimeout] (and [clearInterval], which is the same function)
    on a handle of [_setTimeout], [setTimeout] or [setInterval], after any
    script: the handle reads [cleared], its [remaining()] is 0, no native
    timer is pending, [id] is [undefined], and clearing it again changes
    nothing. *)
Theorem clearing_a_handle (t : Z) (sigs : nat -> Signal) (w0 : World)
    (es : list event) :
  handed t sigs w0 ->
  clearInterval ArgHandle (exec es w0) = clearTimeout ArgHandle (exec es w0) /\
  let w := exec (es ++ [Clear ArgHandle]) w0 in
  cleared w = true /\ remaining w = Fin 0 /\
  natives w = [] /\ id (handle w) = None /\
  clearTimeout ArgHandle w = w.
Proof.
  intros H. split; [reflexivity|]. cbv zeta.
  assert (B : brand (handle (exec es w0)) = true).
  { rewrite (proj2 (exec_made_by es w0)). apply (handed_brand t sigs), H. }
  assert (C : _cleared (handle (exec (es ++ [Clear ArgHandle]) w0)) = true).
  { rewrite exec_app. cbn [exec fold_left step]. apply clearTimeout_sets, B. }
  destruct (made_owned t sigs w0 (es ++ [Clear ArgHandle]) (or_introl H))
    as ([N|(n & _ & _ & X & _)] & K); [|congruence].
  unfold cleared, remaining. rewrite C, N, (K C).
  repeat split; try (destruct (made_by (handle _)); reflexivity).
  rewrite exec_app. cbn [exec fold_left step]. apply clearTimeout_idem.
Qed.

(** X3 on the test "can be cleared": [clearInterval] on an interval of
    10 ms that has ticked twice. *)
Lemma clearing_a_handle_witness :
  exists w0,
    setInterval (VFunction (UserFn 7)) (Some (Fin 10)) [] (fresh 1000 quiet)
    = Normal w0 /\
    cleared (exec ([Fire 0; Fire 1] ++ [Clear ArgHandle]) w0) = true /\
    remaining (exec ([Fire 0; Fire 1] ++ [Clear ArgHandle]) w0) = Fin 0.
Proof.
  eexists. split; [reflexivity|].
  destruct (proj2 (clearing_a_handle 1000 quiet _ [Fire 0; Fire 1]
              (or_intror (or_intror
                 (ex_intro _ (VFunction (UserFn 7))
                    (ex_intro _ (Some (Fin 10))
                       (ex_intro _ [] eq_refl)))))))
    as (C & R & _).
  split; [exact C|exact R].
Defined.

(** ** X4: the spans handed to the native timer *)

(** X4.  Whatever delay [_setTimeout], [setTimeout], [setInterval] or
    [delay] is given, and whatever happens afterwards, every native timer
    the library registers is given a span that is a number from 0 to
    [MAX_TIMEOUT]: never a negative one, never [NaN] or an infinity, never
    one the native timer would overflow on. *)
Theorem native_spans_are_in_range (t : Z) (sigs : nat -> Signal)
    (w0 : World) (es : list event) :
  made t sigs w0 ->
  let w := exec es w0 in
  Forall (fun s => exists z, s = Fin z /\ 0 <= z <= MAX_TIMEOUT) (spans w) /\
  Forall bounded (natives w).
Proof.
  intros M. cbv zeta. destruct (made_bounded t sigs w0 es M) as (L & N).
  split; apply Forall_forall.
  - intros s I. apply in_spans in I as (n & I & <-). apply L, I.
  - exact N.
Qed.

(** X4 on an interval with a period of three segments and a half, two of
    its native timers firing late. *)
Lemma native_spans_are_in_range_witness :
  exists w0,
    setInterval (VFunction (UserFn 7)) (Some (Fin 7516192764)) []
      (fresh 1000 quiet) = Normal w0 /\
    List.length (spans (exec [Fire 0; Fire 9; Fire 0; Fire 4; Fire 0] w0))
    = 6%nat /\
    Forall (fun s => exists z, s = Fin z /\ 0 <= z <= MAX_TIMEOUT)
      (spans (exec [Fire 0; Fire 9; Fire 0; Fire 4; Fire 0] w0)).
Proof.
  eexists. split; [reflexivity|]. split; [reflexivity|].
  refine (proj1 (native_spans_are_in_range 1000 quiet _
                   [Fire 0; Fire 9; Fire 0; Fire 4; Fire 0] _)).
  left. right. right.
  exists (VFunction (UserFn 7)), (Some (Fin 7516192764)), [].
  reflexivity.
Defined.

(** ** X5: a one-shot callback is never early *)



(** ** X6: delay is never early *)



(** ** X7: remaining() of a one-shot timer never grows *)

(** X7.  For a handle of [_setTimeout] or [setTimeout], whatever the
    delay, no event makes [remaining()] grow: a native timer firing, time
    passing, a clear, an abort, [ref()] or [unref()] leaves a value that is
    at most the one before. *)
Theorem remaining_never_grows (d : option num) (t : Z)
    (sigs : nat -> Signal) (w0 : World) (es : list event) (e : event) :
  timed d t sigs w0 ->
  Num.leb (remaining (step e (exec es w0))) (remaining (exec es w0)) = true.
Proof.
  apply remaining_step.
Qed.

(** X7 on a timer of 100 ms, 20 ms after it was made: 30 more
    milliseconds take [remaining()] from 80 to 50. *)
Lemma remaining_never_grows_witness :
  let w := exec [Advance 20]
             (_setTimeout (UserFn 7) (Some (Fin 100)) [] (fresh 1000 quiet)) in
  remaining w = Fin 80 /\ remaining (step (Advance 30) w) = Fin 50 /\
  Num.leb (remaining (step (Advance 30) w)) (remaining w) = true.
Proof.
  cbv zeta. split; [reflexivity|]. split; [reflexivity|].
  apply (remaining_never_grows (Some (Fin 100)) 1000 quiet _ [Advance 20]
           (Advance 30)).
  left. exists (UserFn 7), []. reflexivity.
Defined.

(** ** X8: an abort clears the timer *)

(** X8.  For [setTimeout(cb, d, ...init, { signal })] with a signal that
    has not aborted: when the signal aborts, however much later, the handle
    is cleared, no native timer stays pending, [remaining()] is 0, and from
    then on the callback is not called and no native timer is registered,
    whatever follows. *)
Theorem abort_clears_the_timer (k : nat) (d : option num)
    (init : list value) (props : list property) (s : nat) (t : Z)
    (sigs : nat -> Signal) (es1 es2 : list event) :
  get "signal" (VObject props) = VSignal s ->
  aborted (sigs s) = false ->
  existsb (fun e => match e with Abort x => Nat.eqb x s | _ => false end) es1
  = false ->
  exists w0,
    setTimeout (VFunction (UserFn k)) d (init ++ [VObject props])
      (fresh t sigs) = Normal w0 /\
    let w := exec (es1 ++ Abort s :: es2) w0 in
    cleared w = true /\ natives w = [] /\ remaining w = Fin 0 /\
    calls w = calls (exec es1 w0) /\ issued w = issued (exec es1 w0).
Proof.
  intros G Ab Hes.
  destruct (setTimeout_with_signal (UserFn k) d init props s t sigs G Ab)
    as (w0 & E & Cb & A0 & L0).
  exists w0. split; [exact E|]. cbv zeta.
  assert (H : handed t sigs w0) by (right; left; eauto).
  destruct (exec_listeners_kept k s es1 w0 Cb A0 Hes) as (_ & Sg).
  assert (C1 : _cleared (handle (abort s (exec es1 w0))) = true).
  { apply abort_clears.
    - rewrite Sg. exact A0.
    - rewrite Sg, L0. apply in_or_app. right. left. reflexivity.
    - rewrite (proj2 (exec_made_by es1 w0)). apply (handed_brand t sigs), H. }
  destruct (made_owned t sigs w0 (es1 ++ Abort s :: es2) (or_introl H))
    as (O & _).
  rewrite exec_app, exec_cons in *. cbn [step] in *.
  destruct (exec_cleared es2 _ C1) as (C2 & Ca & Is).
  destruct O as [N|(n & _ & _ & X & _)]; [|congruence].
  unfold cleared, remaining. rewrite C2, N, Ca, Is.
  destruct (counts_log _ _ (abort_log s (exec es1 w0))) as (Ca' & _ & Is').
  rewrite Ca', Is'.
  repeat split; destruct (made_by (handle _)); reflexivity.
Qed.

(** X8 on the test "aborts the timeout":
    [setTimeout(fn, 50, { signal })], then [controller.abort()]. *)
Lemma abort_clears_the_timer_witness :
  exists w0,
    setTimeout (VFunction (UserFn 7)) (Some (Fin 50))
      ([] ++ [VObject [Property "signal" true true (VSignal 0)]])
      (fresh 1000 quiet) = Normal w0 /\
    cleared (exec ([] ++ Abort 0 :: [Advance 100; Fire 0]) w0) = true /\
    natives (exec ([] ++ Abort 0 :: [Advance 100; Fire 0]) w0) = [].
Proof.
  destruct (abort_clears_the_timer 7 (Some (Fin 50)) []
              [Property "signal" true true (VSignal 0)] 0 1000 quiet []
              [Advance 100; Fire 0] eq_refl eq_refl eq_refl)
    as (w0 & E & C & N & _).
  exists w0. split; [exact E|]. split; [exact C|exact N].
Defined.

(** ** X9: delay leaves nothing behind *)

(** X9.  For a call of [delay], after any script: while the promise is
    pending, the abort listener is registered on the signal given; once the
    promise has settled, by resolution or by rejection, no native timer is
    pending and the abort listener is no longer registered on the
    signal. *)
Theorem delay_leaves_nothing_behind (ms : num) (sg : option nat) (t : Z)
    (sigs : nat -> Signal) (es : list event) :
  (forall x, listeners (sigs x) = []) ->
  let w := exec es (delay ms sg (fresh t sigs)) in
  (state (promise w) = Pending ->
   forall s, sg = Some s -> listeners (signals w s) = [RejectListener]) /\
  (state (promise w) <> Pending ->
   natives w = [] /\ forall x, listeners (signals w x) = []).
Proof.
  intros Ls. cbv zeta.
  destruct (signal_aborted sg (fresh t sigs)) eqn:Ab.
  - unfold delay. rewrite Ab. split.
    + intros P. rewrite exec_settled in P; [discriminate P|discriminate].
    + intros _. apply exec_quiet_idle; [reflexivity|exact Ls].
  - destruct (delay_delaying ms sg t sigs Ls Ab) as (D & _).
    apply (delaying_exec sg es) in D.
    pose proof (dl_state sg _ D) as S. unfold delay_state in S.
    destruct (state (promise (exec es (delay ms sg (fresh t sigs))))).
    + split; [|congruence]. intros _ s ->.
      destruct S as (_ & _ & S & _). apply (S s eq_refl).
    + split; [discriminate|]. intros _. apply S.
    + split; [discriminate|]. intros _. apply S.
Qed.

(** X9 on [delay(50, { signal })]: the listener is there while the timer
    runs, and gone when the promise has resolved. *)
Lemma delay_leaves_nothing_behind_witness :
  let w0 := delay (Fin 50) (Some 0%nat) (fresh 1000 quiet) in
  listeners (signals (exec [Advance 20] w0) 0%nat) = [RejectListener] /\
  state (promise (exec [Advance 20; Fire 1] w0)) = Resolved /\
  listeners (signals (exec [Advance 20; Fire 1] w0) 0%nat) = [].
Proof.
  cbv zeta. split; [|split; [reflexivity|]].
  - refine (proj1 (delay_leaves_nothing_behind (Fin 50) (Some 0%nat) 1000
                     quiet [Advance 20] _) _ 0%nat eq_refl);
      [intros x|]; reflexivity.
  - refine (proj2 (proj2 (delay_leaves_nothing_behind (Fin 50) (Some 0%nat)
                            1000 quiet [Advance 20; Fire 1] _) _) 0%nat);
      [intros x; reflexivity|discriminate].
Defined.

(** ** X10: a delay above Number.MAX_SAFE_INTEGER *)

(** X10.  A timer or an interval made with a delay above
    [Number.MAX_SAFE_INTEGER], finite or not, never registers a native
    timer and never calls its callback, whatever happens; its
    [remaining()] is [Infinity] until the handle is cleared, and 0
    afterwards. *)
Theorem over_range_never_fires (f : fn) (d : option num)
    (args : list value) (t : Z) (sigs : nat -> Signal) (w0 : World)
    (es : list event) :
  scheduled f d args t sigs w0 ->
  Num.gtb (or_zero d) (Fin MAX_SAFE_INTEGER) = true ->
  let w := exec es w0 in
  natives w = [] /\ issued w = 0%nat /\ calls w = 0%nat /\
  remaining w = if cleared w then Fin 0 else PosInf.
Proof.
  intros Sc G. cbv zeta.
  assert (I : natives w0 = [] /\ log w0 = []).
  { destruct Sc as [->|[(E & Ab)|E]].
    - destruct (_setTimeout_over f d args (fresh t sigs) G) as (N & L & _).
      auto.
    - rewrite setTimeout_unfold, Ab in E. injection E as <-.
      destruct (addEventListener_agree (options_signal args) ClearListener
                  (_setTimeout f d (snd (split_options args)) (fresh t sigs)))
        as (_ & _ & N & L & _).
      rewrite N, L.
      destruct (_setTimeout_over f d (snd (split_options args))
                  (fresh t sigs) G) as (N' & L' & _).
      auto.
    - destruct (setInterval_over f d args (fresh t sigs) G)
        as (w1 & E1 & N & L & _).
      rewrite E in E1. injection E1 as <-. auto. }
  destruct I as (N & L).
  destruct (exec_idle es w0 N) as (N' & L' & _).
  unfold issued, calls. rewrite N', L', L. repeat split.
  rewrite remaining_spec.
  pose proof (target_after f d args t sigs es w0 Sc) as Tg.
  rewrite G in Tg. rewrite Tg. reflexivity.
Qed.

(** X10 on a delay of [2^53], the first number above
    [Number.MAX_SAFE_INTEGER]. *)
Lemma over_range_never_fires_witness :
  let w0 := _setTimeout (UserFn 7) (Some (Fin 9007199254740992)) []
              (fresh 1000 quiet) in
  calls (exec [Advance 50; Fire 0; Fire 0] w0) = 0%nat /\
  remaining (exec [Advance 50; Fire 0; Fire 0] w0) = PosInf.
Proof.
  cbv zeta.
  destruct (over_range_never_fires (UserFn 7) (Some (Fin 9007199254740992))
              [] 1000 quiet _ [Advance 50; Fire 0; Fire 0]
              (or_introl eq_refl) eq_refl) as (_ & _ & C & R).
  split; [exact C|exact R].
Defined.

(** ** X11: a delay the native timer can take *)

(** X11.  For a delay that lines 125-127 make [p <= MAX_TIMEOUT], a timer
    made by [_setTimeout], or by [setTimeout] unless it returned the
    cleared handle, costs one native timer, registered with span [p]: no
    script makes it register another.  When that native timer fires,
    [late] milliseconds late, the callback is called at
    [now() + p + late] and nothing stays pending. *)
Theorem short_delay_takes_one_native_timer (k : nat) (d : option num)
    (args : list value) (t : Z) (sigs : nat -> Signal) (p : Z)
    (w0 : World) :
  w0 = _setTimeout (UserFn k) d args (fresh t sigs) \/
  (setTimeout (VFunction (UserFn k)) d args (fresh t sigs) = Normal w0 /\
   cleared w0 = false) ->
  Num.gtb (or_zero d) (Fin MAX_SAFE_INTEGER) = false ->
  clamp (or_zero d) = Fin p -> p <= MAX_TIMEOUT ->
  (forall es, spans (exec es w0) = [Fin p]) /\
  forall late,
    call_times (exec [Fire late] w0) = [t + p + Z.of_nat late] /\
    natives (exec [Fire late] w0) = [].
Proof.
  intros Hw G Cp P.
  assert (A : exists a m,
             armed (UserFn k) a p w0 /\ log w0 = [Issued m] /\
             span m = Fin (Z.min p MAX_TIMEOUT) /\ clock w0 = t).
  { destruct Hw as [->|(E & C)].
    - destruct (_setTimeout_armed (UserFn k) d args (fresh t sigs) p
                  eq_refl G Cp) as (Ar & L & _ & _ & _ & _ & Ck & _).
      exists args. eexists. split; [exact Ar|]. split; [exact L|].
      split; [reflexivity|exact Ck].
    - destruct (signal_aborted (options_signal args) (fresh t sigs)) eqn:Ab.
      + rewrite setTimeout_unfold, Ab in E. injection E as <-.
        discriminate C.
      + destruct (setTimeout_armed (UserFn k) d args t sigs p Ab G Cp)
          as (w1 & E1 & E2 & Ar & L & _).
        rewrite E in E1. injection E1 as <-.
        exists (snd (split_options args)). eexists.
        split; [exact Ar|]. split; [exact L|]. split; [reflexivity|].
        rewrite E2.
        rewrite (proj1 (proj2 (proj2 (proj2 (proj2
                   (addEventListener_agree _ _ _)))))).
        apply (_setTimeout_armed (UserFn k) d (snd (split_options args))
                 (fresh t sigs) p eq_refl G Cp). }
  destruct A as (a & m & Ar & L & Sm & Ck). split.
  - intros es.
    apply (exec_invariant (single p) (single_step p) es w0).
    apply (armed_single (UserFn k) a p w0 m Ar P L Sm).
  - intros late. cbn [exec fold_left step].
    destruct (armed_fire_late k a p late w0 Ar P) as (N & _ & n & Lg).
    split; [|exact N].
    unfold call_times. rewrite Lg, L, Ck. reflexivity.
Qed.

(** X11 on the test "basic timeout": [setTimeout(fn, 10)]. *)
Lemma short_delay_takes_one_native_timer_witness :
  exists w0,
    setTimeout (VFunction (UserFn 7)) (Some (Fin 10)) [] (fresh 1000 quiet)
    = Normal w0 /\
    spans (exec [Unref; Fire 2; Advance 40; Fire 0] w0) = [Fin 10] /\
    call_times (exec [Fire 2] w0) = [1012].
Proof.
  eexists. split; [reflexivity|].
  destruct (short_delay_takes_one_native_timer 7 (Some (Fin 10)) [] 1000
              quiet 10 _ (or_intror (conj eq_refl eq_refl)) eq_refl eq_refl)
    as (S & F); [unfold MAX_TIMEOUT; lia|].
  split; [apply S|apply (F 2%nat)].
Defined.

(** ** X12: ticks that do not drift *)

(** X12.  An interval whose period [p] is no more than [MAX_TIMEOUT],
    left to run: when every native timer fires no more than [p]
    milliseconds late, tick number [i] (counted from 0) comes at
    [now() + p + i * p] plus the lateness of its own native timer only.
    The lateness of earlier ticks does not add up. *)
Theorem ticks_do_not_drift (k : nat) (d : option num) (args : list value)
    (t : Z) (sigs : nat -> Signal) (p : Z) (w0 : World) (lates : list nat) :
  setInterval (VFunction (UserFn k)) d args (fresh t sigs) = Normal w0 ->
  Num.gtb (or_zero d) (Fin MAX_SAFE_INTEGER) = false ->
  clamp (or_zero d) = Fin p -> p <= MAX_TIMEOUT ->
  Forall (fun late => Z.of_nat late <= p) lates ->
  call_times (exec (map Fire lates) w0) =
  map (fun x => t + p + Z.of_nat (fst x) * p + Z.of_nat (snd x))
    (combine (seq 0 (List.length lates)) lates).
Proof.
  intros E G Cp P F.
  destruct (setInterval_on_schedule (UserFn k) d args t sigs p w0 G Cp P E)
    as (Iv & Sc & Ct).
  destruct (clamp_finite _ G) as (p' & Cp' & P0 & _).
  assert (p' = p) by congruence. subst p'.
  rewrite (on_schedule_run k args p (t + p) (conj P0 P) lates 0 w0 Iv Sc F).
  rewrite Ct. reflexivity.
Qed.

(** X12 on an interval of 10 ms whose native timers fire 3, 0, 10 and
    1 ms late. *)
Lemma ticks_do_not_drift_witness :
  exists w0,
    setInterval (VFunction (UserFn 7)) (Some (Fin 10)) [] (fresh 1000 quiet)
    = Normal w0 /\
    call_times (exec (map Fire [3; 0; 10; 1]%nat) w0)
    = [1013; 1020; 1040; 1041].
Proof.
  eexists. split; [reflexivity|].
  refine (ticks_do_not_drift 7 (Some (Fin 10)) [] 1000 quiet 10 _
            [3; 0; 10; 1]%nat eq_refl eq_refl eq_refl _ _).
  - unfold MAX_TIMEOUT. lia.
  - repeat constructor; cbn; lia.
Defined.

(** ** X13: an interval re-arms itself *)

(** X13.  An interval with a delay that is not above
    [Number.MAX_SAFE_INTEGER], after any script that has not cleared it:
    exactly one native timer is pending, and when that one fires, however
    late, exactly one new native timer is registered in its place and the
    interval is still not cleared.  So only [clearInterval] stops it. *)
Theorem interval_rearms_itself (f : fn) (d : option num)
    (args : list value) (t : Z) (sigs : nat -> Signal) (w0 : World)
    (es : list event) :
  setInterval (VFunction f) d args (fresh t sigs) = Normal w0 ->
  Num.gtb (or_zero d) (Fin MAX_SAFE_INTEGER) = false ->
  let w := exec es w0 in
  _cleared (handle w) = false ->
  (exists n, natives w = [n]) /\
  forall late,
    issued (fire late w) = S (issued w) /\
    _cleared (handle (fire late w)) = false /\
    exists n', natives (fire late w) = [n'].
Proof.
  intros E G. cbv zeta. intros C.
  destruct (clamp_finite _ G) as (p & Cp & _).
  destruct (setInterval_interval f d args (fresh t sigs) p eq_refl eq_refl
              G Cp) as (w1 & E1 & Iv & _).
  rewrite E in E1. injection E1 as <-.
  apply (interval_exec f args p _ es) in Iv.
  set (w := exec es w0) in *.
  destruct (iv_natives _ _ _ _ _ Iv) as [(_ & X)|(n & N & _ & _ & B & _)];
    [congruence|].
  split; [eauto|]. intros late.
  assert (R : issued (fire late w) = S (issued w) /\
              _cleared (handle (fire late w)) = false).
  { unfold fire. rewrite N.
    match goal with
    | |- context [run (body n) ?x] =>
        destruct (run_rearms (body n) x C) as (R1 & R2);
        [destruct B as [-> | ->]; discriminate|]
    end.
    split; [rewrite R1, issued_emit; reflexivity|exact R2]. }
  destruct R as (R1 & R2). split; [exact R1|]. split; [exact R2|].
  pose proof (interval_step f args p _ (Fire late) w Iv) as Iv'.
  cbn [step] in Iv'.
  destruct (iv_natives _ _ _ _ _ Iv') as [(_ & X)|(n' & N' & _)];
    [congruence|eauto].
Qed.

(** X13 on the test "basic interval": [setInterval(fn, 10)] after two
    ticks and an abort of some signal. *)
Lemma interval_rearms_itself_witness :
  exists w0,
    setInterval (VFunction (UserFn 7)) (Some (Fin 10)) [] (fresh 1000 quiet)
    = Normal w0 /\
    issued (exec [Fire 0; Abort 0; Fire 4] w0) = 3%nat /\
    issued (fire 1 (exec [Fire 0; Abort 0; Fire 4] w0)) = 4%nat.
Proof.
  eexists. split; [reflexivity|]. split; [reflexivity|].
  refine (proj1 (proj2 (interval_rearms_itself (UserFn 7) (Some (Fin 10)) []
                          1000 quiet _ [Fire 0; Abort 0; Fire 4]
                          eq_refl eq_refl eq_refl) 1%nat)).
Defined.

(** ** X14: a callback that is not a function *)



(** ** X15: an interval with a long period *)



(** ** X16: remaining() and the delay *)


